(** * loki-titanium-adapter: the chunked line codec and the batched
      export / load pipeline of [lib/adapter.js]

    The adapter stores a Loki database as one metadata file plus one
    newline-delimited JSON file per collection.  This development embeds

    - [_chunk], the line codec (adapter.js, 294-320);
    - [exportDatabase] (52-146) with its per-collection batch writer;
    - [loadDatabase] (156-238) with its per-collection chunk reader;
    - the constructor (33-40);
    - the synchronous [exportDatabase] and [loadDatabase] of part_000
      and the iterator [_each] of part_001, two earlier states of the
      adapter;

    and proves the properties of the specification about them, and
    further properties that the code shows.

    Strings are lists of characters, the unit [for (let byte of input)]
    walks over.  Files hold bytes: what a reader sees of a file is the
    string that [buffer.toString()] makes of the bytes of one buffer,
    and only for text of single-byte characters is that string known
    to be the bytes themselves.  Callbacks of asynchronous calls are transition
    functions: an export or a load is a state, and every completion
    reported by the platform (a finished write, a finished read, a timer)
    is an event delivered to it.  A schedule is a list of events, in the
    order in which the platform reports them; theorems quantify over
    schedules, so they hold for every timing of the filesystem. *)

From Stdlib Require Import Ascii ZArith.
From Stdlib Require String.
From stdpp Require Import base list gmap.
Import String.StringSyntax.

Local Open Scope Z_scope.
Local Open Scope nat_scope.

(* ===================================================================== *)
(** * Values of the host language                                          *)
(* ===================================================================== *)

(** A string, as the sequence of characters that iteration yields. *)
Abbreviation str := (list ascii).

(** ['\n'] *)
Definition NL : ascii := "010"%char.

Definition is_nl (byte : ascii) : bool := Ascii.eqb byte NL.

(** [JSON.stringify] and [JSON.parse] are built-ins of the host; a
    document type comes with both.  [parse] answers [None] where
    [JSON.parse] raises a SyntaxError. *)
Class JSON (doc : Type) := {
  stringify : doc -> str;
  parse : str -> option doc
}.

(** What "JSON-serializable" gives: a serialized document is read back
    as itself, and its text is one non-empty line ([JSON.stringify]
    escapes line breaks inside strings). *)
Class JSONLaws (doc : Type) `{JSON doc} := {
  parse_stringify : forall d : doc, parse (stringify d) = Some d;
  stringify_no_nl : forall d : doc, NL ∉ stringify d;
  stringify_nonempty : forall d : doc, stringify d <> []
}.

(** A file holds bytes and the codec works on strings.  The platform
    turns a string into bytes where a buffer is made of it
    ([Ti.createBuffer({ value: batch })]), and the bytes of a buffer
    into a string in [buffer.toString()], which decodes what this one
    buffer holds, on its own.  A byte is written as the character of
    its code. *)
Class Encoding : Type := {
  utf8 : str -> str;
  toString : str -> str
}.

(** A character that is encoded as one byte, the byte of its code. *)
Definition single (c : ascii) : bool := nat_of_ascii c <? 128.

Definition single_byte (s : str) : Prop := Forall (fun c => single c = true) s.

(** What is assumed of the encoding: text of single-byte characters
    and its bytes are the same.  Nothing is assumed about any other
    character: its bytes may be cut by the end of a buffer, and what
    [toString] makes of a part of them is not the character. *)
Class EncodingLaws `{Encoding} : Prop := {
  utf8_single : forall s, single_byte s -> utf8 s = s;
  toString_single : forall buffer, single_byte buffer -> toString buffer = buffer
}.

(** The values that travel as errors: [undefined], [null] and messages. *)
Inductive jsval : Type :=
  | Undefined
  | Null
  | Str (s : str).

(** Truthiness, as [if (err)] and [||] test it. *)
Definition truthy (v : jsval) : bool :=
  match v with
  | Str (_ :: _) => true
  | _ => false
  end.

(** [a || b] *)
Definition js_or (a b : jsval) : jsval := if truthy a then a else b.

(** [a % b === 0] between integers: [a % 0] is [NaN], which is equal to
    nothing, and otherwise the remainder takes the sign of [a]. *)
Definition rem_is_zero (a b : Z) : bool :=
  if (b =? 0)%Z then false else (Z.rem a b =? 0)%Z.

(* ===================================================================== *)
(** * The line codec                                                       *)
(* ===================================================================== *)

(** How a call of [_chunk] ends: it returns the leftover characters, or
    [JSON.parse] raised inside it.  Either way the consumer has seen the
    documents parsed before, which is what [st] holds. *)
Inductive chunked (S : Type) : Type :=
  | Returned (st : S) (tmp : str)
  | Raised (st : S).
Arguments Returned {S} st tmp.
Arguments Raised {S} st.

Section Codec.
Context {doc : Type} `{JSON doc}.

(** [_chunk(initial, input, consumer)]; the consumer is a callback with
    effects, here a transformer of the state [S] it acts on. *)
Fixpoint _chunk {S : Type} (tmp : str) (input : str)
    (consumer : doc -> S -> S) (st : S) : chunked S :=
  match input with
  | [] => Returned st tmp
  | byte :: input' =>
      if negb (is_nl byte) then _chunk (tmp ++ [byte]) input' consumer st
      else if length tmp =? 0 then _chunk tmp input' consumer st
      else match parse tmp with
           | Some entry => _chunk [] input' consumer (consumer entry st)
           | None => Raised st
           end
  end.

(** The caller's loop: every chunk goes through [_chunk] with the
    string the previous call returned; an exception ends the loop. *)
Fixpoint feed {S : Type} (pending : str) (chunks : list str)
    (consumer : doc -> S -> S) (st : S) : chunked S :=
  match chunks with
  | [] => Returned st pending
  | c :: chunks' =>
      match _chunk pending c consumer st with
      | Returned st' pending' => feed pending' chunks' consumer st'
      | Raised st' => Raised st'
      end
  end.

(** [collection.data.push(entry)] *)
Definition push (entry : doc) (data : list doc) : list doc := data ++ [entry].

(** The specification's reading of the codec, to compare [_chunk]
    with: cut the text at every line break into the lines that are
    complete and the unterminated rest ... *)
Fixpoint split_lines (cur : str) (s : str) : list str * str :=
  match s with
  | [] => ([], cur)
  | byte :: s' =>
      if is_nl byte then
        let '(ls, rest) := split_lines [] s' in (cur :: ls, rest)
      else split_lines (cur ++ [byte]) s'
  end.

Definition blank (line : str) : bool :=
  match line with [] => true | _ => false end.

(** ... then hand the lines that are not blank to the consumer, one
    parsed document each, until one does not parse. *)
Fixpoint emit_lines {S : Type} (lines : list str) (rest : str)
    (consumer : doc -> S -> S) (st : S) : chunked S :=
  match lines with
  | [] => Returned st rest
  | line :: lines' =>
      if blank line then emit_lines lines' rest consumer st
      else match parse line with
           | Some entry => emit_lines lines' rest consumer (consumer entry st)
           | None => Raised st
           end
  end.
End Codec.

(* ===================================================================== *)
(** * The database, the filesystem and the options                         *)
(* ===================================================================== *)

(** A collection of the in-memory engine, as far as the adapter looks at
    it: [collection.dirty] and [collection.data]. *)
Record collection (doc : Type) : Type := Collection {
  name : str;
  dirty : bool;
  data : list doc
}.
Arguments Collection {doc} name dirty data.
Arguments name {doc} c.
Arguments dirty {doc} c.
Arguments data {doc} c.

(** [collection.data = x] *)
Definition set_data {doc} (c : collection doc) (x : list doc) : collection doc :=
  Collection (name c) (dirty c) x.

(** The files of one database directory: ['_'] and one per index. *)
Inductive file : Type :=
  | Meta
  | Coll (cidx : nat).

Inductive mode : Type := MODE_READ | MODE_WRITE.

Global Instance file_eq_dec : EqDecision file.
Proof. solve_decision. Defined.

(** The metadata file: missing, there with a text that is no JSON (an
    empty file, say), or holding a serialized database, which
    [JSON.parse] gives back as it was serialized. *)
Inductive meta_file (doc : Type) : Type :=
  | Absent
  | Unparsable
  | Header (collections : list (collection doc)).
Arguments Absent {doc}.
Arguments Unparsable {doc}.
Arguments Header {doc} collections.

Record disk (doc : Type) : Type := Disk {
  meta : meta_file doc;
  files : gmap nat str           (* the text of collection file cidx *)
}.
Arguments Disk {doc} meta files.
Arguments meta {doc} d.
Arguments files {doc} d.

(** The calls the adapter makes on [Ti.Filesystem], files and streams. *)
Inductive op (doc : Type) : Type :=
  | CreateDirectory
  | Exists (f : file)
  | ReadText (f : file)
  | Open (f : file) (m : mode)
  | WriteHeader (cloned : list (collection doc))
  | Write (f : file) (data : str)
  | Read (f : file)
  | Close (f : file).
Arguments CreateDirectory {doc}.
Arguments Exists {doc} f.
Arguments ReadText {doc} f.
Arguments Open {doc} f m.
Arguments WriteHeader {doc} cloned.
Arguments Write {doc} f data.
Arguments Read {doc} f.
Arguments Close {doc} f.

(** What a write reports to its callback. *)
Record write_result : Type := WriteResult {
  w_success : bool;
  w_error : jsval
}.

(** What a read reports to its callback; [r_text] is what
    [buffer.toString()] gives once the read has filled the buffer. *)
Record read_result : Type := ReadResult {
  r_success : bool;
  r_error : jsval;
  bytesProcessed : Z;
  r_text : str
}.

Record options : Type := Options {
  reader_buffer : Z;
  writer_batch : Z
}.

(** The constructor: [x || default], a missing option being falsy as 0
    is; so neither option is ever 0. *)
Definition constructor (buffer batch : Z) : options :=
  {| reader_buffer := if (buffer =? 0)%Z then (1024 * 1024)%Z else buffer;
     writer_batch := if (batch =? 0)%Z then 25%Z else batch |}.

(* ===================================================================== *)
(** * [async.each]                                                         *)
(* ===================================================================== *)

(** The bookkeeping of neo-async's [each]: the number of items, the
    count of those that reported completion, and whether the final
    callback, wrapped in [once], was used up. *)
Record each_state : Type := Each {
  size : nat;
  completed : nat;
  used : bool
}.

(** [done(err)] of [each]: an error goes to the final callback at once,
    the last completion calls it with [null].  The answer is the new
    bookkeeping and what the final callback is called with, if it is. *)
Definition each_done (err : jsval) (s : each_state) : each_state * option jsval :=
  if truthy err then
    (Each (size s) (completed s) true, if used s then None else Some err)
  else
    let completed' := S (completed s) in
    if completed' =? size s then
      (Each (size s) completed' true, if used s then None else Some Null)
    else (Each (size s) completed' (used s), None).

(** [each] over an array: [if (!size) callback(null)] after the loop. *)
Definition each_empty (s : each_state) : each_state * option jsval :=
  if size s =? 0 then (Each (size s) (completed s) true, Some Null) else (s, None).

(* ===================================================================== *)
(** * exportDatabase                                                       *)
(* ===================================================================== *)

(** Where the writer of one collection stands.  Between two completions
    of [descriptor.write] its code runs without interruption, so the
    resting points are: a write started by the iterator of [eachSeries]
    is in flight ([dnext] waits for it), the write of the remaining
    items is in flight, or [cnext] was called. *)
Inductive writer_phase : Type :=
  | Iterating (inflight : str)
  | Finishing (err1 : jsval) (inflight : str)
  | Settled (outcome : jsval).

Record writer (doc : Type) : Type := Writer {
  w_phase : writer_phase;
  w_docs : list doc;      (* the documents eachSeries has not visited yet *)
  w_didx : nat;           (* the index of the next one *)
  w_batch : str           (* batch *)
}.
Arguments Writer {doc} w_phase w_docs w_didx w_batch.
Arguments w_phase {doc} w.
Arguments w_docs {doc} w.
Arguments w_didx {doc} w.
Arguments w_batch {doc} w.

Inductive export_event : Type :=
  | MetaWritten (result : write_result)
  | BatchWritten (cidx : nat) (result : write_result).

Record export_state (doc : Type) : Type := ExportState {
  e_database : list (collection doc);      (* database.collections *)
  e_disk : disk doc;
  e_ops : list (op doc);                   (* the calls made so far, in order *)
  e_meta : bool;                           (* the metadata write is in flight *)
  e_writers : list (writer doc);           (* one per collection reached by each *)
  e_each : each_state;
  e_callback : list jsval                  (* what callback was called with *)
}.
Arguments ExportState {doc} e_database e_disk e_ops e_meta e_writers e_each e_callback.
Arguments e_database {doc} e.
Arguments e_disk {doc} e.
Arguments e_ops {doc} e.
Arguments e_meta {doc} e.
Arguments e_writers {doc} e.
Arguments e_each {doc} e.
Arguments e_callback {doc} e.

Section ExportDatabase.
Context {doc : Type} `{JSON doc}.
Variable opts : options.

(** The end of [eachSeries]: [_write] of the remaining items, then
    [descriptor.close()] and [cnext(err1 || err2 || undefined)].  With
    an empty batch [_write] calls back at once, [err2] undefined. *)
Definition finish (f : file) (err1 : jsval) (docs : list doc) (didx : nat)
    (batch : str) : writer doc * list (op doc) :=
  if length batch =? 0 then
    (Writer (Settled (js_or (js_or err1 Undefined) Undefined)) docs didx batch,
     [Close f])
  else
    (Writer (Finishing err1 batch) docs didx [], [Write f batch]).

(** The iterator of [eachSeries] from document [didx] on, up to the
    next call of [descriptor.write] or to the end of the documents. *)
Fixpoint iterate (f : file) (docs : list doc) (didx : nat) (batch : str)
    : writer doc * list (op doc) :=
  match docs with
  | [] => finish f Null [] didx batch
  | document :: docs' =>
      let batch := batch ++ stringify document ++ [NL] in
      if rem_is_zero (Z.of_nat didx) (writer_batch opts) then
        (* _write(dnext) *)
        if length batch =? 0 then iterate f docs' (S didx) batch
        else (Writer (Iterating batch) docs' (S didx) [], [Write f batch])
      else iterate f docs' (S didx) batch
  end.

(** The iterator of [each] for the collection at [cidx]. *)
Definition start_writer (cidx : nat) (c : collection doc)
    : writer doc * list (op doc) :=
  if negb (dirty c) then (Writer (Settled Undefined) (data c) 0 [], [])
  else
    let '(w, ops) := iterate (Coll cidx) (data c) 0 [] in
    (w, Open (Coll cidx) MODE_WRITE :: ops).

(** What [cb] of [_write] gets from the callback of [descriptor.write]. *)
Definition write_error (result : write_result) : jsval :=
  if negb (w_success result) then w_error result else Undefined.

(** The callback of [descriptor.write]. *)
Definition written (f : file) (w : writer doc) (result : write_result)
    : writer doc * list (op doc) :=
  match w_phase w with
  | Iterating _ =>
      let err := write_error result in
      if truthy err then finish f err (w_docs w) (w_didx w) (w_batch w)
      else iterate f (w_docs w) (w_didx w) (w_batch w)
  | Finishing err1 _ =>
      let err2 := write_error result in
      (Writer (Settled (js_or (js_or err1 err2) Undefined))
              (w_docs w) (w_didx w) (w_batch w),
       [Close f])
  | Settled _ => (w, [])
  end.

Definition inflight (w : writer doc) : option str :=
  match w_phase w with
  | Iterating d | Finishing _ d => Some d
  | Settled _ => None
  end.

Definition outcome (w : writer doc) : option jsval :=
  match w_phase w with
  | Settled o => Some o
  | _ => None
  end.

(** [cnext(outcome)], when the writer has got there: [done] of [each],
    whose final callback is the caller's. *)
Definition cnext (w : writer doc) (st : export_state doc) : export_state doc :=
  match outcome w with
  | None => st
  | Some err =>
      let '(each', call) := each_done err (e_each st) in
      ExportState (e_database st) (e_disk st) (e_ops st) (e_meta st)
        (e_writers st) each'
        (e_callback st ++ match call with Some v => [v] | None => [] end)
  end.

(** Opening for writing empties the file (or creates it). *)
Definition truncate (c : collection doc) (cidx : nat) (d : disk doc) : disk doc :=
  if dirty c then Disk (meta d) (<[cidx := []]> (files d)) else d.

(** The loop of [each] from index [cidx] on. *)
Fixpoint each_collection (cidx : nat) (cs : list (collection doc))
    (st : export_state doc) : export_state doc :=
  match cs with
  | [] => st
  | c :: cs' =>
      let '(w, ops) := start_writer cidx c in
      let st' :=
        ExportState (e_database st) (truncate c cidx (e_disk st))
          (e_ops st ++ ops) (e_meta st) (e_writers st ++ [w])
          (e_each st) (e_callback st) in
      each_collection (S cidx) cs' (cnext w st')
  end.

Definition cloned (database : list (collection doc)) : list (collection doc) :=
  map (fun c => set_data c []) database.

(** [exportDatabase(name, database, callback)] up to its return: the
    directory is made, the metadata file opened and its write started. *)
Definition exportDatabase (database : list (collection doc)) (d : disk doc)
    : export_state doc :=
  ExportState database (Disk Unparsable (files d))
    [CreateDirectory; Open Meta MODE_WRITE; WriteHeader (cloned database)]
    true [] (Each (length database) 0 false) [].

(** The callback of [meta.write].  The platform calls it once, when
    the write is done; a completion reported when no metadata write is
    in flight stands for nothing. *)
Definition meta_written (result : write_result) (st : export_state doc)
    : export_state doc :=
  if negb (e_meta st) then st
  else if negb (w_success result) then
    ExportState (e_database st) (e_disk st) (e_ops st) false
      (e_writers st) (e_each st) (e_callback st ++ [w_error result])
  else
    let st1 :=
      ExportState (e_database st)
        (Disk (Header (cloned (e_database st))) (files (e_disk st)))
        (e_ops st ++ [Close Meta]) false [] (e_each st) (e_callback st) in
    let st2 := each_collection 0 (e_database st) st1 in
    let '(each', call) := each_empty (e_each st2) in
    ExportState (e_database st2) (e_disk st2) (e_ops st2) (e_meta st2)
      (e_writers st2) each'
      (e_callback st2 ++ match call with Some v => [v] | None => [] end).

(** A successful write has put its buffer at the end of the file.
    What a write that failed has left there the adapter is not told;
    the file is kept as it was, and what is stated below about the
    text of a file is stated of exports whose writes succeed, or whose
    failures end the export with an error. *)
Definition append (cidx : nat) (data : str) (result : write_result)
    (d : disk doc) : disk doc :=
  if w_success result then
    Disk (meta d) (<[cidx := default [] (files d !! cidx) ++ data]> (files d))
  else d.

Definition batch_written (cidx : nat) (result : write_result)
    (st : export_state doc) : export_state doc :=
  match e_writers st !! cidx with
  | None => st
  | Some w =>
      match inflight w with
      | None => st
      | Some data =>
          let '(w', ops) := written (Coll cidx) w result in
          cnext w'
            (ExportState (e_database st) (append cidx data result (e_disk st))
               (e_ops st ++ ops) (e_meta st) (<[cidx := w']> (e_writers st))
               (e_each st) (e_callback st))
      end
  end.

Definition export_step (st : export_state doc) (ev : export_event)
    : export_state doc :=
  match ev with
  | MetaWritten result => meta_written result st
  | BatchWritten cidx result => batch_written cidx result st
  end.

(** The export after the platform has reported the events of a
    schedule, in this order. *)
Definition export_run (st : export_state doc) (events : list export_event)
    : export_state doc :=
  fold_left export_step events st.

(** ** What one collection sees of an export *)

(** The file a call is made on. *)
Definition file_of (o : op doc) : option file :=
  match o with
  | CreateDirectory => None
  | WriteHeader _ => Some Meta
  | Exists f | ReadText f | Open f _ | Write f _ | Read f | Close f => Some f
  end.

(** The calls made on one file, in order. *)
Definition ops_on (f : file) (ops : list (op doc)) : list (op doc) :=
  filter (fun o => file_of o = Some f) ops.

(** The writes made on one file: their buffers, in order. *)
Definition writes_on (f : file) (ops : list (op doc)) : list str :=
  omap (fun o => match o with
                 | Write g data => if decide (g = f) then Some data else None
                 | _ => None
                 end) ops.

(** The part of an export that belongs to collection [cidx]: its
    writer, the calls on its file, and the text of its file. *)
Record view : Type := View {
  v_writer : writer doc;
  v_ops : list (op doc);
  v_text : option str
}.

Definition view_of (cidx : nat) (st : export_state doc) : option view :=
  w ← e_writers st !! cidx;
  Some (View w (ops_on (Coll cidx) (e_ops st)) (files (e_disk st) !! cidx)).

(** The writer of collection [cidx] on its own: started on a file that
    held [text], then told the results of its writes one by one. *)
Definition solo_start (cidx : nat) (c : collection doc) (text : option str)
    : view :=
  let '(w, ops) := start_writer cidx c in
  View w ops (if dirty c then Some [] else text).

Definition solo_step (cidx : nat) (v : view) (result : write_result) : view :=
  match inflight (v_writer v) with
  | None => v
  | Some data =>
      let '(w', ops) := written (Coll cidx) (v_writer v) result in
      View w' (v_ops v ++ ops)
        (if w_success result then Some (default [] (v_text v) ++ data)
         else v_text v)
  end.

Definition solo (cidx : nat) (c : collection doc) (text : option str)
    (results : list write_result) : view :=
  fold_left (solo_step cidx) results (solo_start cidx c text).

(** The results reported for the writes of collection [cidx]. *)
Definition results_for (cidx : nat) (events : list export_event)
    : list write_result :=
  omap (fun ev => match ev with
                  | BatchWritten i result =>
                      if decide (i = cidx) then Some result else None
                  | MetaWritten _ => None
                  end) events.

(** One line of a collection file. *)
Definition line (document : doc) : str := stringify document ++ [NL].

(** The text of a collection file: a line per document. *)
Definition lines (docs : list doc) : str := concat (map line docs).

(** The buffers the iterator and the end of [eachSeries] hand to
    [descriptor.write] from document [didx] on when no write fails:
    [_write] runs where the index is a multiple of the batch size, and
    once more after the last document. *)
Fixpoint flushes (docs : list doc) (didx : nat) (batch : str) : list str :=
  match docs with
  | [] => if length batch =? 0 then [] else [batch]
  | document :: docs' =>
      let batch := batch ++ stringify document ++ [NL] in
      if rem_is_zero (Z.of_nat didx) (writer_batch opts) then
        if length batch =? 0 then flushes docs' (S didx) batch
        else batch :: flushes docs' (S didx) []
      else flushes docs' (S didx) batch
  end.

(** The flushes still to come once the write in flight is done. *)
Definition flushes_left (w : writer doc) : list str :=
  match w_phase w with
  | Iterating _ => flushes (w_docs w) (w_didx w) (w_batch w)
  | _ => []
  end.

(** While a write is in flight the batch is empty, and the write of
    the remaining items is only started after a run without error. *)
Definition in_order (w : writer doc) : Prop :=
  match w_phase w with
  | Iterating _ => w_batch w = []
  | Finishing err1 _ => err1 = Null /\ w_batch w = []
  | Settled _ => True
  end.

Definition succeeded (result : write_result) : Prop := w_success result = true.
End ExportDatabase.

(* ===================================================================== *)
(** * loadDatabase                                                         *)
(* ===================================================================== *)

(** Where the reader of one collection stands: [stream.read] is in
    flight, the timer of [setTimeout(_read, 0)] is pending, [next] was
    called, or [JSON.parse] raised inside the callback of [stream.read],
    which nothing catches. *)
Inductive reader_phase : Type :=
  | Reading
  | Waiting
  | Finished (outcome : jsval)
  | Crashed.

Record reader : Type := Reader {
  r_phase : reader_phase;
  r_offset : str;         (* offset *)
  r_parsed : Z;           (* parsed *)
  r_position : nat        (* of the stream: the bytes read so far *)
}.

Inductive load_event : Type :=
  | ChunkRead (cidx : nat) (result : read_result)
  | Timeout (cidx : nat).

(** What the caller's callback gets: [undefined], or the object
    [database]; [contents] is what the object held when it was passed. *)
Inductive load_answer (doc : Type) : Type :=
  | NotFound
  | Database (contents : list (collection doc)).
Arguments NotFound {doc}.
Arguments Database {doc} contents.

Record load_state (doc : Type) : Type := LoadState {
  l_database : list (collection doc);      (* database.collections, shared *)
  l_ops : list (op doc);
  l_readers : list reader;
  l_each : each_state;
  l_callback : list (load_answer doc);
  l_raised : bool                          (* loadDatabase itself raised *)
}.
Arguments LoadState {doc} l_database l_ops l_readers l_each l_callback l_raised.
Arguments l_database {doc} l.
Arguments l_ops {doc} l.
Arguments l_readers {doc} l.
Arguments l_each {doc} l.
Arguments l_callback {doc} l.
Arguments l_raised {doc} l.

Section LoadDatabase.
Context {doc : Type} `{JSON doc} `{Encoding}.
Variable opts : options.

(** [_complete()]: the leftover goes through the codec once more, the
    stream is closed, [next()] is called. *)
Definition _complete (f : file) (offset : str) (parsed : Z)
    (position : nat) (entries : list doc) : reader * list doc * list (op doc) :=
  match _chunk [] offset push entries with
  | Returned entries' _ =>
      (Reader (Finished Undefined) offset parsed position, entries', [Close f])
  | Raised entries' => (Reader Crashed offset parsed position, entries', [])
  end.

(** The callback of [stream.read] in [_read], on the reader and on
    [collection.data]. *)
Definition _read_result (f : file) (r : reader) (entries : list doc)
    (result : read_result) : reader * list doc * list (op doc) :=
  if negb (r_success result) then
    if negb (r_parsed r =? 0)%Z
    then _complete f (r_offset r) (r_parsed r) (r_position r) entries
    else (Reader (Finished (r_error result)) (r_offset r) (r_parsed r)
            (r_position r), entries, [])
  else
    let position := r_position r + Z.to_nat (bytesProcessed result) in
    match _chunk (r_offset r) (r_text result) push entries with
    | Raised entries' =>
        (Reader Crashed (r_offset r) (r_parsed r) position, entries', [])
    | Returned entries' offset =>
        let parsed := bytesProcessed result in
        if (parsed =? reader_buffer opts)%Z then
          (Reader Waiting offset parsed position, entries', [])
        else _complete f offset parsed position entries'
    end.

(** [_read()]: the next read is started. *)
Definition _read (f : file) (r : reader) : reader * list (op doc) :=
  (Reader Reading (r_offset r) (r_parsed r) (r_position r), [Read f]).

Definition finished (r : reader) : option jsval :=
  match r_phase r with
  | Finished o => Some o
  | _ => None
  end.

(** [next(outcome)], when the reader has got there: [done] of [each],
    whose final callback ignores its argument and passes [database]. *)
Definition next (r : reader) (st : load_state doc) : load_state doc :=
  match finished r with
  | None => st
  | Some err =>
      let '(each', call) := each_done err (l_each st) in
      LoadState (l_database st) (l_ops st) (l_readers st) each'
        (l_callback st ++
           match call with Some _ => [Database (l_database st)] | None => [] end)
        (l_raised st)
  end.

(** [loadDatabase(name, callback)] up to its return: without the
    metadata file the callback gets [undefined]; otherwise each
    collection of the parsed metadata gets a stream and a first read. *)
Definition loadDatabase (d : disk doc) : load_state doc :=
  match meta d with
  | Absent => LoadState [] [Exists Meta] [] (Each 0 0 false) [NotFound] false
  | Unparsable =>
      LoadState [] [Exists Meta; ReadText Meta] [] (Each 0 0 false) [] true
  | Header database =>
      let '(each', call) := each_empty (Each (length database) 0 false) in
      LoadState database
        ([Exists Meta; ReadText Meta] ++
           flat_map (fun cidx => [Open (Coll cidx) MODE_READ; Read (Coll cidx)])
             (seq 0 (length database)))
        (replicate (length database) (Reader Reading [] 0 0))
        each'
        match call with Some _ => [Database database] | None => [] end
        false
  end.

(** The platform reports the read in flight of collection [cidx]. *)
Definition chunk_read (cidx : nat) (result : read_result)
    (st : load_state doc) : load_state doc :=
  match l_readers st !! cidx, l_database st !! cidx with
  | Some r, Some c =>
      match r_phase r with
      | Reading =>
          let '(r', entries, ops) :=
            _read_result (Coll cidx) r (data c) result in
          next r'
            (LoadState (<[cidx := set_data c entries]> (l_database st))
               (l_ops st ++ ops) (<[cidx := r']> (l_readers st)) (l_each st)
               (l_callback st) (l_raised st))
      | _ => st
      end
  | _, _ => st
  end.

(** The pending timer of collection [cidx] fires. *)
Definition timer_fired (cidx : nat) (st : load_state doc) : load_state doc :=
  match l_readers st !! cidx with
  | Some r =>
      match r_phase r with
      | Waiting =>
          let '(r', ops) := _read (Coll cidx) r in
          LoadState (l_database st) (l_ops st ++ ops)
            (<[cidx := r']> (l_readers st)) (l_each st) (l_callback st)
            (l_raised st)
      | _ => st
      end
  | None => st
  end.

Definition load_step (st : load_state doc) (ev : load_event) : load_state doc :=
  match ev with
  | ChunkRead cidx result => chunk_read cidx result st
  | Timeout cidx => timer_fired cidx st
  end.

Definition load_run (st : load_state doc) (events : list load_event)
    : load_state doc :=
  fold_left load_step events st.

(** ** A filesystem that works *)

(** A read on a stream whose unread bytes are [rest], into a buffer of
    [cap] bytes: it fills the buffer from the front with as many of
    these bytes as fit and reports that count; what follows in the
    buffer is left from [clear], single bytes and no line break among
    them; and the callback gets the string that [buffer.toString()]
    makes of the buffer.  At the end of the file a read reports
    failure, or success with a count that is not [cap] and a string
    without line break. *)
Definition honest_read (cap : nat) (rest : str) (result : read_result) : Prop :=
  match rest with
  | [] =>
      (r_success result = false) \/
      (bytesProcessed result <> Z.of_nat cap /\ NL ∉ r_text result)
  | _ =>
      let n := min cap (length rest) in
      r_success result = true /\
      bytesProcessed result = Z.of_nat n /\
      exists buffer,
        take n buffer = take n rest /\
        (NL ∉ drop n buffer) /\
        single_byte (drop n buffer) /\
        length buffer <= cap /\
        r_text result = toString buffer
  end.

(** The same read where every byte is a character, as it is in a file
    of single-byte characters: the string is the buffer, and [rest] is
    the text still unread. *)
Definition plain_read (cap : nat) (rest : str) (result : read_result) : Prop :=
  match rest with
  | [] =>
      (r_success result = false) \/
      (bytesProcessed result <> Z.of_nat cap /\ NL ∉ r_text result)
  | _ =>
      let n := min cap (length rest) in
      r_success result = true /\
      bytesProcessed result = Z.of_nat n /\
      take n (r_text result) = take n rest /\
      (NL ∉ drop n (r_text result)) /\
      length (r_text result) <= cap
  end.

(** An event the platform can report in state [st] over the files of
    [d]: the completion of a read in flight, with what the file holds
    at the position of the stream, counted in bytes, or the firing of
    a pending timer.  The bytes of a file are those of the text that
    was written to it. *)
Definition honest_event (d : disk doc) (st : load_state doc) (ev : load_event)
    : Prop :=
  match ev with
  | ChunkRead cidx result =>
      match l_readers st !! cidx, files d !! cidx with
      | Some r, Some text =>
          r_phase r = Reading /\
          honest_read (Z.to_nat (reader_buffer opts))
            (drop (r_position r) (utf8 text)) result
      | _, _ => False
      end
  | Timeout cidx =>
      match l_readers st !! cidx with
      | Some r => r_phase r = Waiting
      | None => False
      end
  end.

Fixpoint honest_run (d : disk doc) (st : load_state doc)
    (events : list load_event) : Prop :=
  match events with
  | [] => True
  | ev :: events' =>
      honest_event d st ev /\ honest_run d (load_step st ev) events'
  end.

(** No read is in flight and no timer pending. *)
Definition at_rest (r : reader) : bool :=
  match r_phase r with
  | Reading | Waiting => false
  | _ => true
  end.

(** ** What one collection sees of a load *)

(** The part of a load that belongs to collection [cidx]: its reader,
    its [collection.data] and the calls on its file. *)
Record reading : Type := ReadingOf {
  rd_reader : reader;
  rd_data : list doc;
  rd_ops : list (op doc)
}.

Definition reading_of (cidx : nat) (st : load_state doc) : option reading :=
  r ← l_readers st !! cidx;
  c ← l_database st !! cidx;
  Some (ReadingOf r (data c) (ops_on (Coll cidx) (l_ops st))).

(** A completed read, and a fired timer, as this part sees them. *)
Definition read_step (cidx : nat) (result : read_result) (v : reading)
    : reading :=
  match r_phase (rd_reader v) with
  | Reading =>
      let '(r', entries, ops) :=
        _read_result (Coll cidx) (rd_reader v) (rd_data v) result in
      ReadingOf r' entries (rd_ops v ++ ops)
  | _ => v
  end.

Definition timer_step (cidx : nat) (v : reading) : reading :=
  match r_phase (rd_reader v) with
  | Waiting =>
      let '(r', ops) := _read (Coll cidx) (rd_reader v) in
      ReadingOf r' (rd_data v) (rd_ops v ++ ops)
  | _ => v
  end.

(** The event is addressed to collection [cidx]. *)
Definition concerns (cidx : nat) (ev : load_event) : bool :=
  match ev with
  | ChunkRead i _ | Timeout i => bool_decide (i = cidx)
  end.

Definition reading_step (cidx : nat) (v : reading) (ev : load_event) : reading :=
  match ev with
  | ChunkRead i result =>
      if decide (i = cidx) then read_step cidx result v else v
  | Timeout i => if decide (i = cidx) then timer_step cidx v else v
  end.

(** Between two events a reader that goes on holds a pending string
    without line break, and a read is only started first, or after a
    read that filled the buffer. *)
Definition steady (r : reader) : Prop :=
  (NL ∉ r_offset r) /\
  match r_phase r with
  | Reading | Waiting =>
      r_parsed r = 0%Z \/ r_parsed r = reader_buffer opts
  | _ => True
  end.
End LoadDatabase.

(** The result a write reports. *)
Definition result_of (ev : export_event) : write_result :=
  match ev with
  | MetaWritten result | BatchWritten _ result => result
  end.

(* ===================================================================== *)
(** * An export followed by a load                                         *)
(* ===================================================================== *)

(** How many elements of a list pass a test. *)
Definition tally {A : Type} (P : A -> bool) (l : list A) : nat :=
  length (filter (fun x => P x = true) l).

Section RoundTripDefs.
Context {doc : Type} `{JSON doc} `{Encoding}.
Variable opts : options.

(** The writer called [cnext] without error. *)
Definition settled_ok (w : writer doc) : bool :=
  match w_phase w with
  | Settled o => negb (truthy o)
  | _ => false
  end.

Definition count_ok (ws : list (writer doc)) : nat := tally settled_ok ws.

(** The bookkeeping of [each] agrees with the writers: it has counted
    those that completed without error, and it has called back with
    [null] only after the last of them. *)
Definition tallied (st : export_state doc) : Prop :=
  completed (e_each st) = count_ok (e_writers st) /\
  length (e_writers st) <= size (e_each st) /\
  (Null ∈ e_callback st -> completed (e_each st) = size (e_each st)).

(** The writer called [cnext] with an error. *)
Definition settled_err (w : writer doc) : bool :=
  match w_phase w with
  | Settled o => truthy o
  | _ => false
  end.

(** As long as no writer ended on an error, [each] has called back,
    with [null], exactly when it had counted all the writers. *)
Definition quiet (st : export_state doc) : Prop :=
  Forall (fun w => settled_err w = false) (e_writers st) ->
  used (e_each st) = (completed (e_each st) =? size (e_each st)) /\
  e_callback st
  = if completed (e_each st) =? size (e_each st) then [Null] else [].

(** The writes a writer still has to see completed. *)
Definition writes_left (w : writer doc) : nat :=
  length (flushes_left opts w)
  + match inflight w with Some _ => 1 | None => 0 end.

(** A write that went through. *)
Definition success : write_result := WriteResult true Undefined.

(** A schedule for an export in which every write succeeds: the
    metadata write, then for each collection in turn as many
    completions as the longest collection has documents, and one more;
    those that find no write in flight are ignored. *)
Definition smooth_export (database : list (collection doc))
    : list export_event :=
  MetaWritten success ::
  flat_map
    (fun cidx =>
       replicate (S (max_list (map (fun c => length (data c)) database)))
         (BatchWritten cidx success))
    (seq 0 (length database)).

(** A reader is on course to deliver [docs] from a file that holds
    [content]: what is still unread, put through the codec from where
    the reader stands, completes the documents and leaves nothing
    pending, and [parsed] is 0 before the first read only; a reader
    that is through has delivered them, and it ended on an error only
    if the file was empty. *)
Definition on_course (content : str) (docs : list doc) (v : @reading doc)
    : Prop :=
  match r_phase (rd_reader v) with
  | Reading | Waiting =>
      _chunk (r_offset (rd_reader v))
        (drop (r_position (rd_reader v)) content) push (rd_data v)
      = Returned docs [] /\
      (r_parsed (rd_reader v) = 0%Z -> r_position (rd_reader v) = 0)
  | Finished o => rd_data v = docs /\ (truthy o = true -> content = [])
  | Crashed => False
  end.

(** The reader called [next] without error, with an error. *)
Definition finished_ok (r : reader) : bool :=
  match r_phase r with
  | Finished o => negb (truthy o)
  | _ => false
  end.

Definition finished_err (r : reader) : bool :=
  match r_phase r with
  | Finished o => truthy o
  | _ => false
  end.

(** The bookkeeping of [each] agrees with the readers: it has counted
    those that finished without error; the callback has been called
    once if a reader finished with an error or all have finished, and
    not at all otherwise; and when no reader finished with an error,
    it was the last reader that made [each] call back, with the
    database as it is now. *)
Definition answered (st : load_state doc) : Prop :=
  completed (l_each st) = tally finished_ok (l_readers st) /\
  size (l_each st) = length (l_readers st) /\
  length (l_callback st) <= 1 /\
  (used (l_each st) = true <-> l_callback st <> []) /\
  (List.Exists (fun r => finished_err r = true) (l_readers st) ->
     used (l_each st) = true) /\
  (completed (l_each st) = size (l_each st) -> used (l_each st) = true) /\
  (forall answer, answer ∈ l_callback st ->
     Forall (fun r => finished_err r = false) (l_readers st) ->
     completed (l_each st) = size (l_each st) /\
     answer = Database (l_database st)).

(** How far a reader is from its end, on a file of [size] bytes. *)
Definition weight (size : nat) (r : reader) : nat :=
  match r_phase r with
  | Reading => 2 * (size - r_position r) + 2
  | Waiting => 2 * (size - r_position r) + 3
  | _ => 0
  end.

(** What a platform that works reports next to a reader of a file of
    single-byte characters: the next chunk of its file, the end of the
    stream, or its timer. *)
Definition serve (cidx : nat) (content : str) (r : reader) : load_event :=
  match r_phase r with
  | Waiting => Timeout cidx
  | _ =>
      match drop (r_position r) content with
      | [] => ChunkRead cidx (ReadResult true Undefined (-1) [])
      | rest =>
          let n := min (Z.to_nat (reader_buffer opts)) (length rest) in
          ChunkRead cidx (ReadResult true Undefined (Z.of_nat n) (take n rest))
      end
  end.

(** Every reader is on course for the lines of its collection. *)
Definition all_on_course (database : list (collection doc))
    (st : load_state doc) : Prop :=
  forall cidx c, database !! cidx = Some c ->
    exists v, reading_of cidx st = Some v /\
              on_course (lines (data c)) (data c) v.

(** A complete round trip: an export during which every write
    succeeded and which called back with [null], then a load of what
    the export left on disk, served by a platform that reads what the
    files hold, up to the point where no read is in flight and no
    timer pending. *)
Definition round_trip (database : list (collection doc)) (d0 : disk doc)
    (written : list export_event) (read : list load_event) : Prop :=
  let e := export_run opts (exportDatabase database d0) written in
  Forall (fun ev => succeeded (result_of ev)) written /\
  e_callback e = [Null] /\
  honest_run opts (e_disk e) (loadDatabase (e_disk e)) read /\
  Forall (fun r => at_rest r = true)
    (l_readers (load_run opts (loadDatabase (e_disk e)) read)).
End RoundTripDefs.

(* ===================================================================== *)
(** * Invariants of an export                                              *)
(* ===================================================================== *)

Section ExportInvariants.
Context {doc : Type} `{JSON doc}.

(** The caller's callback was called once at most, and exactly if the
    final callback of [each] is used up; what it was called with is
    [null] or an error. *)
Definition called_once (st : export_state doc) : Prop :=
  length (e_callback st) <= 1 /\
  (used (e_each st) = true <-> e_callback st <> []) /\
  Forall (fun v => v = Null \/ truthy v = true) (e_callback st).

(** The calls of a writer on its file: the descriptor is opened, then
    written to, and closed last, when no write is in flight any more; a
    write in flight is the last one issued. *)
Definition bracketed (f : file) (w : writer doc) (ops : list (op doc)) : Prop :=
  exists buffers,
    ops = Open f MODE_WRITE :: map (Write f) buffers
          ++ match inflight w with Some _ => [] | None => [Close f] end /\
    forall buffer, inflight w = Some buffer -> last buffers = Some buffer.

(** The completion matters to collection [cidx]: it is that of the
    metadata write, which starts every writer, or that of a write of
    the collection. *)
Definition about (cidx : nat) (ev : export_event) : bool :=
  match ev with
  | MetaWritten _ => true
  | BatchWritten i _ => bool_decide (i = cidx)
  end.

(** A write that fails says so with an error. *)
Definition outspoken (result : write_result) : Prop :=
  w_success result = true \/ truthy (w_error result) = true.

(** The buffers a writer has handed to [descriptor.write] are the
    lines of consecutive runs of documents, from the first document
    on, and the writer has the others still to visit; a writer that
    ended without error has handed over the lines of all. *)
Definition in_batches (cidx : nat) (docs : list doc) (v : view) : Prop :=
  exists batches : list (list doc),
    writes_on (Coll cidx) (v_ops v) = map lines batches /\
    w_batch (v_writer v) = [] /\
    match w_phase (v_writer v) with
    | Iterating _ => concat batches ++ w_docs (v_writer v) = docs
    | Finishing err1 _ => err1 = Null /\ concat batches = docs
    | Settled o =>
        (exists rest, concat batches ++ rest = docs) /\
        (truthy o = false -> concat batches = docs)
    end.

(** The file of a collection holds the lines of its first documents,
    the write in flight those of the next ones, and the writer has the
    others still to visit; a writer that ended has written the first
    ones, and all of them if it ended without error. *)
Definition whole_lines (docs : list doc) (v : view) : Prop :=
  exists written_ flying,
    v_text v = Some (lines written_) /\
    default [] (inflight (v_writer v)) = lines flying /\
    w_batch (v_writer v) = [] /\
    match w_phase (v_writer v) with
    | Iterating _ => written_ ++ flying ++ w_docs (v_writer v) = docs
    | Finishing err1 _ => err1 = Null /\ written_ ++ flying = docs
    | Settled o =>
        flying = [] /\ (exists rest, written_ ++ rest = docs) /\
        (truthy o = false -> written_ = docs)
    end.
End ExportInvariants.

(* ===================================================================== *)
(** * Invariants of a load                                                 *)
(* ===================================================================== *)

Section LoadInvariants.
Context {doc : Type} `{JSON doc}.

(** A reader is on its way to the documents [docs] that one pass of
    the codec finds in [content], whatever follows the last line
    break: the pending string holds no line break and what is still
    unread, put through the codec from where the reader stands,
    completes [docs]; a reader that is through has delivered them. *)
Definition on_track (content : str) (docs : list doc) (v : @reading doc)
    : Prop :=
  (NL ∉ r_offset (rd_reader v)) /\
  match r_phase (rd_reader v) with
  | Reading | Waiting =>
      (exists tail,
          _chunk (r_offset (rd_reader v))
            (drop (r_position (rd_reader v)) content) push (rd_data v)
          = Returned docs tail) /\
      (r_parsed (rd_reader v) = 0%Z -> r_position (rd_reader v) = 0)
  | Finished o => rd_data v = docs /\ (truthy o = true -> content = [])
  | Crashed => False
  end.

(** The calls of a reader on its file: the stream is opened, read
    from, one read after the other, and closed last if at all, when
    the reader is through; the documents of the collection only grow
    at the end. *)
Definition streamed (cidx : nat) (before : list doc) (v : @reading doc)
    : Prop :=
  exists reads closing more,
    rd_ops v = Open (Coll cidx) MODE_READ
               :: replicate (S reads) (Read (Coll cidx)) ++ closing /\
    (closing = [] \/
     closing = [Close (Coll cidx)] /\ at_rest (rd_reader v) = true) /\
    rd_data v = before ++ more.
End LoadInvariants.

(* ===================================================================== *)
(** * The adapter before the batches: synchronous calls (part_000)         *)
(* ===================================================================== *)

(** What [stream.read(buffer)] answers when it is called synchronously:
    the number of bytes read, [-1] at the end of the stream; [bytes] is
    what [buffer.toString()] gives afterwards. *)
Record sync_read : Type := SyncRead {
  count : Z;
  bytes : str
}.

(** How a synchronous load ends: the callback gets [undefined] or the
    database, or an exception of [JSON.parse] leaves [loadDatabase]. *)
Inductive sync_answer (doc : Type) : Type :=
  | SyncNotFound
  | SyncDatabase (contents : list (collection doc))
  | SyncRaised.
Arguments SyncNotFound {doc}.
Arguments SyncDatabase {doc} contents.
Arguments SyncRaised {doc}.

Section Synchronous.
Context {doc : Type} `{JSON doc} `{Encoding}.

(** The buffer of the reader: [Ti.createBuffer({ length: 1024 })]. *)
Definition sync_buffer : nat := 1024.

(** The loop over the documents of a collection: the serialized
    document is written, then [NEWLINE]. *)
Definition sync_writes (f : file) (docs : list doc) : list (op doc) :=
  flat_map (fun document => [Write f (stringify document); Write f [NL]]) docs.

(** The loop over the collections from index [cidx] on: a collection
    that is not dirty is passed over; the file of a dirty one is
    opened for writing, which empties it, written to and closed, and
    holds what was written, in order. *)
Fixpoint sync_export_from (cidx : nat) (cs : list (collection doc))
    (d : disk doc) : disk doc * list (op doc) :=
  match cs with
  | [] => (d, [])
  | c :: cs' =>
      if negb (dirty c) then sync_export_from (S cidx) cs' d
      else
        let writes := sync_writes (Coll cidx) (data c) in
        let d' :=
          Disk (meta d)
            (<[cidx := concat (writes_on (Coll cidx) writes)]> (files d)) in
        let '(d'', ops) := sync_export_from (S cidx) cs' d' in
        (d'',
         Open (Coll cidx) MODE_WRITE :: writes ++ Close (Coll cidx) :: ops)
  end.

(** [exportDatabase(name, database, callback)] of part_000: the disk
    afterwards, the calls made, and what the callback was called with. *)
Definition sync_exportDatabase (database : list (collection doc)) (d : disk doc)
    : disk doc * list (op doc) * list jsval :=
  let '(d', ops) :=
    sync_export_from 0 database (Disk (Header (cloned database)) (files d)) in
  (d',
   [CreateDirectory; Open Meta MODE_WRITE; WriteHeader (cloned database);
    Close Meta] ++ ops,
   [Undefined]).

(** [while (stream.read(buffer) > -1) { ... }] over the answers of the
    platform, in order; [None] when the answers run out before one
    ends the loop. *)
Fixpoint sync_read_loop (offset : str) (entries : list doc)
    (tape : list sync_read) : option (chunked (list doc)) :=
  match tape with
  | [] => None
  | answer :: tape' =>
      if (count answer >? -1)%Z then
        match _chunk offset (bytes answer) push entries with
        | Returned entries' offset' => sync_read_loop offset' entries' tape'
        | Raised entries' => Some (Raised entries')
        end
      else Some (Returned entries offset)
  end.

(** One collection: the loop, then the leftover through the codec once
    more; the answer is the documents of the collection, if nothing
    was raised. *)
Definition sync_read_collection (entries : list doc) (tape : list sync_read)
    : option (option (list doc)) :=
  match sync_read_loop [] entries tape with
  | None => None
  | Some (Raised _) => Some None
  | Some (Returned entries' offset) =>
      match _chunk [] offset push entries' with
      | Returned entries'' _ => Some (Some entries'')
      | Raised _ => Some None
      end
  end.

(** The loop over the collections of the metadata, each with the
    answers to the reads of its stream. *)
Fixpoint sync_load_from (cs : list (collection doc))
    (tapes : list (list sync_read)) : option (option (list (collection doc))) :=
  match cs, tapes with
  | [], _ => Some (Some [])
  | c :: cs', tape :: tapes' =>
      match sync_read_collection (data c) tape with
      | None => None
      | Some None => Some None
      | Some (Some entries) =>
          match sync_load_from cs' tapes' with
          | Some (Some cs'') => Some (Some (set_data c entries :: cs''))
          | other => other
          end
      end
  | _ :: _, [] => None
  end.

(** [loadDatabase(name, callback)] of part_000. *)
Definition sync_loadDatabase (d : disk doc) (tapes : list (list sync_read))
    : option (sync_answer doc) :=
  match meta d with
  | Absent => Some SyncNotFound
  | Unparsable => Some SyncRaised
  | Header database =>
      match sync_load_from database tapes with
      | None => None
      | Some None => Some SyncRaised
      | Some (Some contents) => Some (SyncDatabase contents)
      end
  end.

(** The answers of a platform that works, for a stream whose unread
    bytes are [rest], into a buffer of [cap] bytes: every read fills
    the buffer from the front with as many of the bytes as fit and
    answers that count, what follows in the buffer is single bytes and
    no line break among them, [buffer.toString()] makes a string of
    the buffer, and at the end of the file the read answers [-1]. *)
Fixpoint sync_served (cap : nat) (rest : str) (tape : list sync_read) : Prop :=
  match tape with
  | [] => False
  | answer :: tape' =>
      match rest with
      | [] => (count answer <= -1)%Z
      | _ =>
          let n := min cap (length rest) in
          count answer = Z.of_nat n /\
          (exists buffer,
             take n buffer = take n rest /\
             (NL ∉ drop n buffer) /\
             single_byte (drop n buffer) /\
             length buffer <= cap /\
             bytes answer = toString buffer) /\
          sync_served cap (drop n rest) tape'
      end
  end.

(** The same answers where every byte is a character: the string is
    the buffer, and [rest] the text still unread. *)
Fixpoint sync_plain (cap : nat) (rest : str) (tape : list sync_read) : Prop :=
  match tape with
  | [] => False
  | answer :: tape' =>
      match rest with
      | [] => (count answer <= -1)%Z
      | _ =>
          let n := min cap (length rest) in
          count answer = Z.of_nat n /\
          take n (bytes answer) = take n rest /\
          (NL ∉ drop n (bytes answer)) /\
          length (bytes answer) <= cap /\
          sync_plain cap (drop n rest) tape'
      end
  end.
End Synchronous.

(* ===================================================================== *)
(** * [_each], the iterator before [async.each] (part_001)                 *)
(* ===================================================================== *)

(** The state of one call of [_each]: [length], [exited], what the
    callback was called with, and how many completions raised. *)
Record own_each : Type := OwnEach {
  oe_length : nat;
  oe_exited : bool;
  oe_called : list jsval;
  oe_raised : nat
}.

(** [_each(iter, next, callback)] up to the handlers: with nothing to
    iterate the callback is called at once, without argument. *)
Definition _each (length : nat) : own_each :=
  if length =? 0 then OwnEach 0 false [Undefined] 0
  else OwnEach length false [] 0.

(** The function a handler is given, called with [err].  After an
    exit it does nothing; an error sets [exited] and goes to the
    callback; otherwise [count += 1] is evaluated, and [count] is
    declared nowhere (the counter is [counts]), so that reading it
    raises a ReferenceError and the comparison with [length] is never
    reached. *)
Definition _each_done (st : own_each) (err : jsval) : own_each :=
  if oe_exited st then st
  else if truthy err then
    OwnEach (oe_length st) true (oe_called st ++ [err]) (oe_raised st)
  else OwnEach (oe_length st) false (oe_called st) (S (oe_raised st)).

(* ===================================================================== *)
(** * A document type to run the adapter on                                *)
(* ===================================================================== *)

(** The fragment of JSON made of the literals [true] and [false]. *)
Module Sample.
Definition text (x : String.string) : str := String.list_ascii_of_string x.

Local Open Scope string_scope.

Definition true_text : str := text "true".
Definition false_text : str := text "false".
Definition EIO : str := text "EIO".
Definition flags_name : str := text "flags".
Definition idle_name : str := text "idle".
Definition empty_name : str := text "empty".
Definition tr : str := text "tr".
Definition ue : str := text "ue".
Definition fa : str := text "fa".

Local Close Scope string_scope.

Definition stringify_bool (b : bool) : str :=
  if b then true_text else false_text.

Definition parse_bool (t : str) : option bool :=
  if decide (t = true_text) then Some true
  else if decide (t = false_text) then Some false
  else None.

#[global] Instance bool_json : JSON bool :=
  {| stringify := stringify_bool; parse := parse_bool |}.

#[global] Instance bool_laws : JSONLaws bool.
Proof.
  split.
  - by intros [].
  - intros [] Hin; vm_compute in Hin;
      repeat (apply elem_of_cons in Hin as [Hin|Hin]; [discriminate|]);
      by apply elem_of_nil in Hin.
  - by intros [].
Qed.

(** An encoding to run the adapter with: UTF-8, for the characters up
    to U+00FF.  A character below 128 is its own byte and any other
    takes two bytes; where a buffer holds one of the two without the
    other, [toString] cannot give the character, and a question mark
    stands for what it gives instead (U+FFFD, with a decoder that
    replaces what it cannot read). *)
Definition utf8_char (c : ascii) : str :=
  let n := nat_of_ascii c in
  if n <? 128 then [c]
  else [ascii_of_nat (192 + n / 64); ascii_of_nat (128 + n mod 64)].

Definition utf8_text (s : str) : str := concat (map utf8_char s).

Definition is_lead (b : ascii) : bool :=
  (194 <=? nat_of_ascii b) && (nat_of_ascii b <? 196).

Definition is_continuation (b : ascii) : bool :=
  (128 <=? nat_of_ascii b) && (nat_of_ascii b <? 192).

Definition unknown : ascii := "?"%char.

Fixpoint decode (buffer : str) : str :=
  match buffer with
  | [] => []
  | b :: rest =>
      if single b then b :: decode rest
      else
        match rest with
        | b' :: rest' =>
            if is_lead b && is_continuation b' then
              ascii_of_nat ((nat_of_ascii b - 192) * 64 + (nat_of_ascii b' - 128))
              :: decode rest'
            else unknown :: decode rest
        | [] => [unknown]
        end
  end.

#[global] Instance latin1 : Encoding :=
  {| utf8 := utf8_text; toString := decode |}.

#[global] Instance latin1_laws : EncodingLaws.
Proof.
  split.
  - intros s Hs. induction Hs as [|c s Hc _ IH]; [done|].
    unfold utf8, latin1, utf8_text in *. simpl. unfold utf8_char at 1.
    unfold single in Hc. rewrite Hc. simpl. by rewrite IH.
  - intros b Hb. induction Hb as [|c b Hc _ IH]; [done|].
    unfold toString, latin1 in *. simpl. by rewrite Hc, IH.
Qed.

(** A document whose text is not made of single-byte characters: the
    JSON string of the letter e with an acute accent, U+00E9. *)
Inductive accent : Type := E_acute.

Definition e_acute_text : str :=
  [ascii_of_nat 34; ascii_of_nat 233; ascii_of_nat 34].

#[global] Instance accent_json : JSON accent :=
  {| stringify := fun _ => e_acute_text;
     parse := fun t => if decide (t = e_acute_text) then Some E_acute else None |}.

#[global] Instance accent_laws : JSONLaws accent.
Proof.
  split.
  - by intros [].
  - intros [] Hin; vm_compute in Hin;
      repeat (apply elem_of_cons in Hin as [Hin|Hin]; [discriminate|]);
      by apply elem_of_nil in Hin.
  - by intros [].
Qed.

(** Results the platform reports. *)
Definition ok : write_result := WriteResult true Undefined.
Definition failed : write_result := WriteResult false (Str EIO).
Definition failed_silently : write_result := WriteResult false Undefined.
Definition chunk (n : Z) (t : str) : read_result :=
  ReadResult true Undefined n t.
Definition end_of_stream : read_result :=
  ReadResult true Undefined (-1) [].
Definition read_failed : read_result :=
  ReadResult false (Str EIO) (-1) [].

(** Options: a buffer of 5 bytes and batches of 2; and the defaults. *)
Definition small : options := constructor 5 2.
Definition defaults : options := constructor 0 0.

(** Collections and databases. *)
Definition flags : collection bool :=
  Collection flags_name true [true; false; true].
Definition idle : collection bool := Collection idle_name false [true].
Definition empty : collection bool := Collection empty_name true [].
Definition many : collection bool :=
  Collection flags_name true (replicate 101 true).

(** Disks: a name never saved, and one that holds a single line. *)
Definition nothing : disk bool := Disk Absent ∅.
Definition one_line : disk bool :=
  Disk (Header [Collection flags_name true []]) {[ 0 := true_text ++ [NL] ]}.

Local Open Scope string_scope.
Definition lse : str := text "lse".
Local Close Scope string_scope.

(** A disk whose collection file ends in the middle of a line. *)
Definition cut_short : disk bool :=
  Disk (Header [Collection flags_name true []])
    {[ 0 := true_text ++ [NL] ++ fa ]}.
End Sample.

(** A read that is served: it has filled the buffer with [buffer]. *)
Local Ltac chunk_served buffer :=
  split; [reflexivity|]; split; [reflexivity|]; split; [reflexivity|];
  exists buffer;
  split; [reflexivity|]; split; [apply not_elem_of_nil|];
  split; [constructor|]; split; [simpl; lia|reflexivity].

(* ===================================================================== *)
(** * Properties of the line codec                                         *)
(* ===================================================================== *)

Section CodecFacts.
Context {doc : Type} `{JSON doc}.

Lemma is_nl_true byte : is_nl byte = true <-> byte = NL.
Proof. apply Ascii.eqb_eq. Qed.

Lemma is_nl_false byte : is_nl byte = false <-> byte <> NL.
Proof. apply Ascii.eqb_neq. Qed.

Lemma blank_length (line : str) : (length line =? 0) = blank line.
Proof. by destruct line. Qed.

Lemma _chunk_app {S} (consumer : doc -> S -> S) a b : forall tmp st,
  _chunk tmp (a ++ b) consumer st =
  match _chunk tmp a consumer st with
  | Returned st' tmp' => _chunk tmp' b consumer st'
  | Raised st' => Raised st'
  end.
Proof.
  induction a as [|byte a IH]; intros tmp st; simpl; [done|].
  destruct (negb (is_nl byte)); [apply IH|].
  destruct (length tmp =? 0); [apply IH|].
  destruct (parse tmp); [apply IH|done].
Qed.

(** A text without line break only grows the pending string. *)
Lemma _chunk_no_nl {S} (consumer : doc -> S -> S) input : forall tmp st,
  NL ∉ input -> _chunk tmp input consumer st = Returned st (tmp ++ input).
Proof.
  induction input as [|byte input IH]; intros tmp st Hnl; simpl.
  - by rewrite app_nil_r.
  - apply not_elem_of_cons in Hnl as [Hne Hnl].
    assert (is_nl byte = false) as -> by (apply is_nl_false; congruence).
    simpl. rewrite IH by done. by rewrite <- app_assoc.
Qed.

(** [_chunk] against the reading of the specification. *)
Lemma _chunk_split_lines {S} (consumer : doc -> S -> S) input : forall tmp st,
  _chunk tmp input consumer st =
  emit_lines (split_lines tmp input).1 (split_lines tmp input).2 consumer st.
Proof.
  induction input as [|byte input IH]; intros tmp st; simpl; [done|].
  destruct (is_nl byte) eqn:Hb; simpl; [|apply IH].
  destruct (split_lines [] input) as [ls rest] eqn:Hs; simpl.
  destruct tmp as [|byte' tmp]; simpl; [by rewrite IH, Hs|].
  destruct (parse (byte' :: tmp)); [by rewrite IH, Hs|done].
Qed.

Lemma emit_lines_returned {S} (consumer : doc -> S -> S) lines rest :
  forall st st' tmp,
  emit_lines lines rest consumer st = Returned st' tmp -> tmp = rest.
Proof.
  induction lines as [|line lines IH]; intros st st' tmp Hr; simpl in Hr.
  - by inversion Hr.
  - destruct (blank line); [by eapply IH|].
    destruct (parse line); [by eapply IH|done].
Qed.

(** [split_lines] cuts at the line breaks, and only there. *)
Lemma split_lines_spec input : forall tmp,
  NL ∉ tmp ->
  tmp ++ input =
    concat (map (fun line => line ++ [NL]) (split_lines tmp input).1)
    ++ (split_lines tmp input).2 /\
  Forall (fun line => NL ∉ line) (split_lines tmp input).1 /\
  NL ∉ (split_lines tmp input).2.
Proof.
  induction input as [|byte input IH]; intros tmp Hnl; simpl.
  - by rewrite app_nil_r.
  - destruct (is_nl byte) eqn:Hb.
    + apply is_nl_true in Hb as ->.
      destruct (IH [] (not_elem_of_nil NL)) as (Heq & Hall & Hrest).
      destruct (split_lines [] input) as [ls rest]; simpl in *.
      rewrite <- app_assoc. simpl. rewrite <- Heq.
      split; [by rewrite <- app_assoc|]. split; [by constructor|done].
    + apply is_nl_false in Hb.
      destruct (IH (tmp ++ [byte])) as (Heq & Hall & Hrest).
      { rewrite elem_of_app, list_elem_of_singleton. intros [?|?]; congruence. }
      rewrite <- app_assoc in Heq. auto.
Qed.

(** ** C2 *)
(** C2 — chunk-boundary independence.  However a text is cut into
    consecutive chunks, feeding the chunks through [_chunk] one at a
    time, each call starting from the string the previous one returned
    and the first from the empty string, drives the consumer through
    exactly the documents, and ends exactly as, one call of [_chunk] on
    the whole text; in particular with the pushing consumer the two
    emit the same sequence of documents. *)
Theorem chunk_boundary_independence :
  (forall (S : Type) (consumer : doc -> S -> S) (st : S) (chunks : list str),
      feed [] chunks consumer st = _chunk [] (concat chunks) consumer st) /\
  (forall (chunks : list str) (emitted : list doc),
      feed [] chunks push emitted = _chunk [] (concat chunks) push emitted).
Proof.
  assert (Hgen : forall (S : Type) (consumer : doc -> S -> S) chunks pending st,
    feed pending chunks consumer st = _chunk pending (concat chunks) consumer st).
  { intros S consumer chunks.
    induction chunks as [|c chunks IH]; intros pending st; simpl; [done|].
    rewrite _chunk_app.
    destruct (_chunk pending c consumer st); [apply IH|done]. }
  split; intros; apply Hgen.
Qed.

(** ** C9 *)
(** C9 — the pending string never holds a complete line.  Let the
    pending string hold no line break.  Then [pending ++ input] is, in
    one way only, a run of complete lines, each closed by its line
    break, followed by a rest without line break; [_chunk] hands
    exactly the complete lines to the consumer within the call, in
    order, parsing each one that is not blank and passing over each
    blank one without emitting anything (up to a line that does not
    parse, where [JSON.parse] raises); and when it returns, what it
    returns is that rest, so the returned string holds no line break. *)
Theorem pending_never_holds_a_line (pending input : str) :
  NL ∉ pending ->
  let lines := (split_lines pending input).1 in
  let rest := (split_lines pending input).2 in
  pending ++ input = concat (map (fun line => line ++ [NL]) lines) ++ rest /\
  Forall (fun line => NL ∉ line) lines /\
  (NL ∉ rest) /\
  forall (S : Type) (consumer : doc -> S -> S) (st : S),
    _chunk pending input consumer st = emit_lines lines rest consumer st /\
    (forall lines' st',
        emit_lines ([] :: lines') rest consumer st'
        = emit_lines lines' rest consumer st') /\
    (forall st' tmp,
        _chunk pending input consumer st = Returned st' tmp ->
        tmp = rest /\ NL ∉ tmp).
Proof.
  intros Hnl lines rest.
  destruct (split_lines_spec input pending Hnl) as (Heq & Hall & Hrest).
  split; [done|]. split; [done|]. split; [done|].
  intros S consumer st. split; [apply _chunk_split_lines|]. split; [done|].
  intros st' tmp Hr. rewrite _chunk_split_lines in Hr.
  apply emit_lines_returned in Hr as ->. done.
Qed.
End CodecFacts.

(* ===================================================================== *)
(** * Properties of exportDatabase                                         *)
(* ===================================================================== *)

Lemma rem_is_zero_true a b :
  b <> 0%Z -> Z.rem a b = 0%Z -> rem_is_zero a b = true.
Proof.
  intros Hb Hrem. unfold rem_is_zero.
  apply Z.eqb_neq in Hb as ->. by apply Z.eqb_eq.
Qed.

Lemma rem_is_zero_false a b : Z.rem a b <> 0%Z -> rem_is_zero a b = false.
Proof.
  intros Hrem. unfold rem_is_zero.
  destruct (b =? 0)%Z; [done|]. by apply Z.eqb_neq.
Qed.

Section ExportFacts.
Context {doc : Type} `{JSON doc}.
Variable opts : options.

Local Abbreviation on f := (Forall (fun o : op doc => file_of o = Some f)).

(** ** The calls of a writer are calls on its own file *)

Lemma finish_on f err1 docs didx batch : on f (finish f err1 docs didx batch).2.
Proof.
  unfold finish. destruct (length batch =? 0); simpl; by repeat constructor.
Qed.

Lemma iterate_on f docs : forall didx batch, on f (iterate opts f docs didx batch).2.
Proof.
  induction docs as [|document docs IH]; intros didx batch; simpl.
  - apply finish_on.
  - destruct (rem_is_zero _ _); [|apply IH].
    destruct (length _ =? 0); [apply IH|]. simpl. by repeat constructor.
Qed.

Lemma written_on f w result : on f (written opts f w result).2.
Proof.
  unfold written. destruct (w_phase w); simpl.
  - destruct (truthy _); [apply finish_on|apply iterate_on].
  - by repeat constructor.
  - constructor.
Qed.

Lemma start_writer_on cidx c : on (Coll cidx) (start_writer opts cidx c).2.
Proof.
  unfold start_writer. destruct (negb (dirty c)); simpl; [constructor|].
  pose proof (iterate_on (Coll cidx) (data c) 0 []) as Hon.
  destruct (iterate _ _ _ _ _) as [w ops]. simpl in *. by constructor.
Qed.

Lemma ops_on_app f (a b : list (op doc)) : ops_on f (a ++ b) = ops_on f a ++ ops_on f b.
Proof. apply filter_app. Qed.

Lemma ops_on_same f (ops : list (op doc)) : on f ops -> ops_on f ops = ops.
Proof.
  induction 1 as [|o ops Ho _ IH]; [done|].
  unfold ops_on in *. rewrite filter_cons_True by done. by rewrite IH.
Qed.

Lemma ops_on_other f g (ops : list (op doc)) : f <> g -> on g ops -> ops_on f ops = [].
Proof.
  intros Hne. induction 1 as [|o ops Ho _ IH]; [done|].
  unfold ops_on in *. rewrite filter_cons_False; [done|]. congruence.
Qed.

(** ** The loop of [each] *)

Lemma cnext_fields (w : writer doc) st :
  e_database (cnext w st) = e_database st /\
  e_disk (cnext w st) = e_disk st /\
  e_ops (cnext w st) = e_ops st /\
  e_meta (cnext w st) = e_meta st /\
  e_writers (cnext w st) = e_writers st.
Proof.
  unfold cnext. destruct (outcome w); [|done].
  by destruct (each_done _ _).
Qed.

Lemma each_collection_fields cs : forall k st,
  let st' := each_collection opts k cs st in
  e_database st' = e_database st /\
  e_meta st' = e_meta st /\
  meta (e_disk st') = meta (e_disk st) /\
  e_writers st' = e_writers st ++ imap (fun i c => (start_writer opts (k + i) c).1) cs /\
  e_ops st' = e_ops st ++ concat (imap (fun i c => (start_writer opts (k + i) c).2) cs).
Proof.
  induction cs as [|c cs IH]; intros k st; simpl.
  - by rewrite !app_nil_r.
  - destruct (start_writer opts k c) as [w ops] eqn:Hw.
    destruct (IH (S k) (cnext w
      (ExportState (e_database st) (truncate c k (e_disk st)) (e_ops st ++ ops)
         (e_meta st) (e_writers st ++ [w]) (e_each st) (e_callback st))))
      as (Hd & Hm & Hmeta & Hws & Hops).
    match type of Hd with context [cnext w ?s] =>
      destruct (cnext_fields w s) as (Cd & Cdisk & Cops & Cm & Cws) end.
    simpl in *. rewrite Hd, Hm, Hmeta, Hws, Hops, Cd, Cdisk, Cops, Cm, Cws.
    rewrite <- !app_assoc. simpl.
    replace (k + 0) with k by lia. rewrite Hw. simpl.
    repeat split; try done.
    + unfold truncate. by destruct (dirty c).
    + do 2 f_equal. apply imap_ext. intros i x _. simpl. do 2 f_equal. lia.
    + do 3 f_equal. apply imap_ext. intros i x _. simpl. do 2 f_equal. lia.
Qed.

Lemma each_collection_files cs : forall k st j,
  files (e_disk (each_collection opts k cs st)) !! j =
  match (if decide (k <= j) then cs !! (j - k) else None) with
  | Some c => if dirty c then Some [] else files (e_disk st) !! j
  | None => files (e_disk st) !! j
  end.
Proof.
  induction cs as [|c cs IH]; intros k st j; simpl.
  - by destruct (decide _).
  - destruct (start_writer opts k c) as [w ops].
    rewrite IH.
    match goal with |- context [cnext w ?s] =>
      destruct (cnext_fields w s) as (_ & -> & _) end.
    simpl.
    destruct (decide (S k <= j)) as [Hle|Hgt].
    + rewrite decide_True by lia.
      replace (j - k) with (S (j - S k)) by lia. simpl.
      assert (files (truncate c k (e_disk st)) !! j = files (e_disk st) !! j) as ->; [|done].
      unfold truncate. destruct (dirty c); [|done]. simpl.
      apply lookup_insert_ne. lia.
    + destruct (decide (k <= j)) as [Hle|Hgt'].
      * assert (j = k) as -> by lia. rewrite Nat.sub_diag. simpl.
        unfold truncate. destruct (dirty c); [|done]. simpl.
        apply lookup_insert_eq.
      * unfold truncate. destruct (dirty c); [|done]. simpl.
        apply lookup_insert_ne. lia.
Qed.

Lemma ops_on_started j cs : forall k,
  ops_on (Coll j) (concat (imap (fun i c => (start_writer opts (k + i) c).2) cs)) =
  match (if decide (k <= j) then cs !! (j - k) else None) with
  | Some c => (start_writer opts j c).2
  | None => []
  end.
Proof.
  induction cs as [|c cs IH]; intros k; simpl.
  - by destruct (decide _).
  - rewrite ops_on_app. replace (k + 0) with k by lia.
    erewrite imap_ext; [rewrite (IH (S k))|intros i x _; simpl; do 2 f_equal; lia].
    destruct (decide (S k <= j)) as [Hle|Hgt].
    + rewrite decide_True by lia.
      replace (j - k) with (S (j - S k)) by lia. simpl.
      rewrite (ops_on_other (Coll j) (Coll k)); [done|intros [=]; lia|apply start_writer_on].
    + destruct (decide (k <= j)) as [Hle|Hgt'].
      * assert (j = k) as -> by lia. rewrite Nat.sub_diag. simpl.
        rewrite app_nil_r. apply ops_on_same, start_writer_on.
      * rewrite app_nil_r.
        rewrite (ops_on_other (Coll j) (Coll k)); [done|intros [=]; lia|apply start_writer_on].
Qed.

(** ** Every collection is written on its own *)

(** Once the metadata write has succeeded, the writer of every
    collection has been started. *)
Lemma meta_written_view database d0 result cidx c :
  w_success result = true -> database !! cidx = Some c ->
  view_of cidx (meta_written opts result (exportDatabase database d0))
  = Some (solo_start opts cidx c (files d0 !! cidx)).
Proof.
  intros Hok Hc. unfold meta_written, exportDatabase. simpl. rewrite Hok. simpl.
  match goal with |- context [each_collection opts 0 database ?s] =>
    pose proof (each_collection_fields database 0 s) as (Hd & Hm & Hmeta & Hws & Hops);
    pose proof (each_collection_files database 0 s cidx) as Hfiles;
    set (st2 := each_collection opts 0 database s) in * end.
  destruct (each_empty (e_each st2)) as [each' call].
  unfold view_of. simpl in *. rewrite Hws, Hops. simpl.
  rewrite list_lookup_imap, Hc. simpl.
  pose proof (ops_on_started cidx database 0) as Hs. simpl in Hs.
  rewrite Nat.sub_0_r, Hc in *.
  unfold ops_on in *. rewrite !filter_cons_False by (simpl; congruence).
  rewrite Hs, Hfiles. unfold solo_start.
  destruct (start_writer opts cidx c) as [w ops]. simpl. done.
Qed.

Lemma batch_written_view j result st cidx :
  view_of cidx (batch_written opts j result st) =
  if decide (j = cidx)
  then (fun v => solo_step opts cidx v result) <$> view_of cidx st
  else view_of cidx st.
Proof.
  unfold batch_written, view_of.
  destruct (e_writers st !! j) as [w|] eqn:Hw.
  2:{ destruct (decide (j = cidx)) as [->|]; [by rewrite Hw|done]. }
  destruct (inflight w) as [data|] eqn:Hfl.
  2:{ destruct (decide (j = cidx)) as [->|]; [|done].
      rewrite Hw. simpl. unfold solo_step. simpl. by rewrite Hfl. }
  pose proof (written_on (Coll j) w result) as Hon.
  destruct (written opts (Coll j) w result) as [w' ops] eqn:Hwr.
  match goal with |- context [cnext w' ?s] =>
    destruct (cnext_fields w' s) as (_ & -> & -> & _ & ->) end.
  simpl in *. rewrite ops_on_app.
  destruct (decide (j = cidx)) as [->|Hne].
  - rewrite list_lookup_insert_eq by (by eapply lookup_lt_Some).
    rewrite Hw. simpl. unfold solo_step. simpl. rewrite Hfl, Hwr.
    rewrite (ops_on_same _ ops) by done.
    unfold append. destruct (w_success result); simpl; [|done].
    by rewrite lookup_insert_eq.
  - rewrite list_lookup_insert_ne by done.
    rewrite (ops_on_other (Coll cidx) (Coll j) ops), app_nil_r; [|congruence|done].
    assert (files (append j data result (e_disk st)) !! cidx
            = files (e_disk st) !! cidx) as ->; [|done].
    unfold append. destruct (w_success result); simpl; [|done].
    by apply lookup_insert_ne.
Qed.

(** ** Schedules *)

Lemma batch_written_meta j result st :
  e_meta (batch_written opts j result st) = e_meta st.
Proof.
  unfold batch_written. destruct (e_writers st !! j) as [w|]; [|done].
  destruct (inflight w); [|done].
  destruct (written opts (Coll j) w result) as [w' ops].
  match goal with |- context [cnext w' ?s] =>
    by destruct (cnext_fields w' s) as (_ & _ & _ & -> & _) end.
Qed.

(** Before the metadata write is done, and after it failed, there is
    no writer: completions of batch writes find nothing to resume. *)
Lemma idle_run events : forall st,
  e_meta st = false -> e_writers st = [] -> export_run opts st events = st.
Proof.
  induction events as [|[result|j result] events IH]; intros st Hm Hw; simpl;
    [done| |].
  - unfold meta_written. rewrite Hm. simpl. by apply IH.
  - unfold batch_written. rewrite Hw. simpl. by apply IH.
Qed.

Lemma waiting_run events : forall st,
  e_writers st = [] -> Forall (fun ev => forall r, ev <> MetaWritten r) events ->
  export_run opts st events = st.
Proof.
  induction events as [|[result|j result] events IH]; intros st Hw Hev; simpl;
    [done| |].
  - apply Forall_cons in Hev as [Hev _]. by destruct (Hev result).
  - apply Forall_cons in Hev as [_ Hev].
    unfold batch_written. rewrite Hw. simpl. by apply IH.
Qed.

(** Once the writers run, each of them sees the results of its own
    writes and nothing else. *)
Lemma started_run events : forall st cidx,
  e_meta st = false ->
  e_meta (export_run opts st events) = false /\
  view_of cidx (export_run opts st events) =
  (fun v => fold_left (solo_step opts cidx) (results_for cidx events) v)
    <$> view_of cidx st.
Proof.
  induction events as [|[result|j result] events IH]; intros st cidx Hm; simpl.
  - split; [done|]. by destruct (view_of cidx st).
  - unfold meta_written. rewrite Hm. simpl. by apply IH.
  - destruct (IH (batch_written opts j result st) cidx) as [Hm' Hv].
    { by rewrite batch_written_meta. }
    split; [done|]. rewrite Hv, batch_written_view.
    unfold results_for. simpl.
    destruct (decide (j = cidx)) as [->|Hne]; simpl; [|done].
    by destruct (view_of cidx st).
Qed.

Lemma meta_written_started (database : list (collection doc)) d0 result :
  w_success result = true ->
  e_meta (meta_written opts result (exportDatabase database d0)) = false.
Proof.
  intros Hok. unfold meta_written. simpl. rewrite Hok. simpl.
  match goal with |- context [each_collection opts 0 database ?s] =>
    pose proof (each_collection_fields database 0 s) as (_ & Hm & _);
    set (st2 := each_collection opts 0 database s) in * end.
  by destruct (each_empty (e_each st2)).
Qed.

(** The three courses an export can have taken: the metadata write is
    still in flight; it failed; or it succeeded and the writers run. *)
Lemma export_run_cases database d0 events :
  let init := exportDatabase database d0 in
  let st := export_run opts init events in
  st = init \/
  (exists r0, w_success r0 = false /\ MetaWritten r0 ∈ events /\
              st = meta_written opts r0 init) \/
  (exists r0 pre post,
      w_success r0 = true /\ events = pre ++ MetaWritten r0 :: post /\
      e_meta st = false /\
      st = export_run opts (meta_written opts r0 init) post /\
      forall cidx c, database !! cidx = Some c ->
        view_of cidx st
        = Some (solo opts cidx c (files d0 !! cidx) (results_for cidx post))).
Proof.
  intros init st. subst st.
  induction events as [|[result|j result] events IH]; simpl.
  - by left.
  - right. destruct (w_success result) eqn:Hok.
    + right. exists result, [], events.
      pose proof (meta_written_started database d0 result Hok) as Hm.
      fold init in Hm.
      split; [done|]. split; [done|].
      split; [by apply (started_run events _ 0)|]. split; [done|].
      intros cidx c Hc.
      destruct (started_run events (meta_written opts result init) cidx Hm)
        as [_ ->].
      unfold init. by rewrite (meta_written_view database d0 result cidx c).
    + left. exists result. split; [done|]. split; [by left|].
      apply idle_run; unfold meta_written, init; simpl; by rewrite Hok.
  - assert (batch_written opts j result init = init) as ->.
    { unfold batch_written. by simpl. }
    destruct IH as [IH|[(r0 & Hr0 & Hin & IH)|(r0 & pre & post & Hr0 & -> & IH)]].
    + by left.
    + right. left. exists r0. split; [done|]. split; [by right|done].
    + right. right. by exists r0, (BatchWritten j result :: pre), post.
Qed.

(** ** A writer on its own *)

Lemma settled_steps cidx results : forall v,
  inflight (v_writer v) = None ->
  fold_left (solo_step opts cidx) results v = v.
Proof.
  induction results as [|r results IH]; intros v Hv; simpl; [done|].
  unfold solo_step at 2. rewrite Hv. by apply IH.
Qed.

Lemma solo_skipped cidx c text results :
  dirty c = false ->
  solo opts cidx c text results
  = View (Writer (Settled Undefined) (data c) 0 []) [] text.
Proof.
  intros Hd. unfold solo, solo_start, start_writer. rewrite Hd. simpl.
  by apply settled_steps.
Qed.

Lemma finish_in_order f err1 (docs : list doc) didx batch :
  (batch <> [] -> err1 = Null) -> in_order (finish f err1 docs didx batch).1.
Proof.
  intros He. unfold finish. destruct batch; simpl; [done|]. split; [|done].
  by apply He.
Qed.

Lemma iterate_in_order f docs : forall didx batch,
  in_order (iterate opts f docs didx batch).1.
Proof.
  induction docs as [|document docs IH]; intros didx batch; simpl.
  - by apply finish_in_order.
  - destruct (rem_is_zero _ _); [|apply IH].
    by destruct (length _ =? 0); [apply IH|].
Qed.

Lemma written_in_order f w result :
  in_order w -> in_order (written opts f w result).1.
Proof.
  unfold written, in_order at 1. destruct (w_phase w) eqn:Hp; intros Hw; simpl.
  - destruct (truthy _); [|apply iterate_in_order].
    apply finish_in_order. intros Hne. by rewrite Hw in Hne.
  - done.
  - unfold in_order. by rewrite Hp.
Qed.

Lemma solo_in_order cidx c text results :
  in_order (v_writer (solo opts cidx c text results)).
Proof.
  unfold solo.
  assert (Hstart : in_order (v_writer (solo_start opts cidx c text))).
  { unfold solo_start, start_writer. destruct (negb (dirty c)); simpl; [done|].
    pose proof (iterate_in_order (Coll cidx) (data c) 0 []).
    by destruct (iterate _ _ _ _ _). }
  revert Hstart. generalize (solo_start opts cidx c text).
  induction results as [|r results IH]; intros v Hv; simpl; [done|].
  apply IH. unfold solo_step. destruct (inflight (v_writer v)); [|done].
  pose proof (written_in_order (Coll cidx) (v_writer v) r Hv).
  by destruct (written _ _ _ _).
Qed.

Lemma writes_on_app f (a b : list (op doc)) :
  writes_on f (a ++ b) = writes_on f a ++ writes_on f b.
Proof. apply omap_app. Qed.

Lemma writes_on_ops_on f (ops : list (op doc)) :
  writes_on f (ops_on f ops) = writes_on f ops.
Proof.
  induction ops as [|o ops IH]; [done|].
  unfold ops_on in *. destruct (decide (file_of o = Some f)) as [Ho|Ho].
  - rewrite filter_cons_True by done. simpl. by rewrite IH.
  - rewrite filter_cons_False by done. rewrite IH.
    destruct o; simpl in *; try done.
    destruct (decide (f0 = f)) as [->|]; [done|done].
Qed.

Lemma solo_steps_ops cidx results : forall v,
  exists more, v_ops (fold_left (solo_step opts cidx) results v) = v_ops v ++ more.
Proof.
  induction results as [|r results IH]; intros v; simpl.
  - exists []. by rewrite app_nil_r.
  - destruct (IH (solo_step opts cidx v r)) as [more ->].
    unfold solo_step. destruct (inflight (v_writer v)); [|by exists more].
    destruct (written _ _ _ _) as [w' ops]. simpl.
    exists (ops ++ more). by rewrite app_assoc.
Qed.

(** ** C7 *)
(** C7 — a collection that is not dirty is skipped.  Whatever the
    platform reports and in whatever order, an export makes no call at
    all on the file of a collection whose dirty flag is false: it opens
    no descriptor for it and writes nothing to it, the file keeps the
    text it had (or stays missing), and once the loop over the
    collections has run, the iterator of that collection has completed
    with [cnext()], no error. *)
Theorem clean_collection_is_skipped database d0 events cidx c :
  database !! cidx = Some c ->
  dirty c = false ->
  let st := export_run opts (exportDatabase database d0) events in
  (forall o, o ∈ e_ops st -> file_of o <> Some (Coll cidx)) /\
  writes_on (Coll cidx) (e_ops st) = [] /\
  files (e_disk st) !! cidx = files d0 !! cidx /\
  (e_writers st = [] \/
   e_writers st !! cidx = Some (Writer (Settled Undefined) (data c) 0 [])).
Proof.
  intros Hc Hd st.
  assert (Hgoal : ops_on (Coll cidx) (e_ops st) = [] /\
                  files (e_disk st) !! cidx = files d0 !! cidx /\
                  (e_writers st = [] \/
                   e_writers st !! cidx
                   = Some (Writer (Settled Undefined) (data c) 0 []))).
  { destruct (export_run_cases database d0 events)
      as [Hst|[(r0 & Hr0 & _ & Hst)|(r0 & pre & post & _ & _ & _ & _ & Hv)]];
      fold st in Hst || fold st in Hv.
    - rewrite Hst. simpl. auto.
    - rewrite Hst. unfold meta_written. simpl. rewrite Hr0. simpl. auto.
    - specialize (Hv cidx c Hc). rewrite solo_skipped in Hv by done.
      unfold view_of in Hv.
      destruct (e_writers st !! cidx) as [w|]; [|done].
      simpl in Hv. injection Hv as -> -> ->. auto. }
  destruct Hgoal as (Hops & Hfiles & Hw).
  split; [|split; [|done]].
  - intros o Ho Hf. by apply (filter_nil_not_elem_of _ _ o Hops Hf).
  - by rewrite <- writes_on_ops_on, Hops.
Qed.

(** ** C10 *)
(** C10 — the first flush holds the first document.  For a dirty
    collection with at least one document and a batch size of at
    least 2: as soon as the metadata write has succeeded the writer of
    the collection has visited the document at index 0 and nothing
    more, and has handed [descriptor.write] a buffer that holds
    exactly the line of that document, because 0 modulo the batch size
    is 0; whatever happens afterwards, this stays the first write on
    the file; and no schedule makes another write the first. *)
Theorem first_flush_holds_the_first_document database d0 cidx c document docs :
  database !! cidx = Some c ->
  dirty c = true ->
  data c = document :: docs ->
  (2 <= writer_batch opts)%Z ->
  let run := export_run opts (exportDatabase database d0) in
  (forall r0, w_success r0 = true ->
     e_writers (run [MetaWritten r0]) !! cidx
     = Some (Writer (Iterating (stringify document ++ [NL])) docs 1 []) /\
     writes_on (Coll cidx) (e_ops (run [MetaWritten r0]))
     = [stringify document ++ [NL]]) /\
  (forall r0 events, w_success r0 = true ->
     head (writes_on (Coll cidx) (e_ops (run (MetaWritten r0 :: events))))
     = Some (stringify document ++ [NL])) /\
  (forall events first,
     head (writes_on (Coll cidx) (e_ops (run events))) = Some first ->
     first = stringify document ++ [NL]).
Proof.
  intros Hc Hd Hdata Hbatch run.
  assert (Hstart : forall text,
    solo_start opts cidx c text =
    View (Writer (Iterating (stringify document ++ [NL])) docs 1 [])
      [Open (Coll cidx) MODE_WRITE; Write (Coll cidx) (stringify document ++ [NL])]
      (Some [])).
  { intros text. unfold solo_start, start_writer. rewrite Hd, Hdata.
    cbn -[rem_is_zero Z.of_nat]. change (Z.of_nat 0) with 0%Z.
    rewrite rem_is_zero_true by (try apply Z.rem_0_l; lia). simpl.
    assert ((length (stringify document ++ [NL]) =? 0) = false) as ->; [|done].
    apply Nat.eqb_neq. rewrite length_app. simpl. lia. }
  assert (Hhead : forall r0 events, w_success r0 = true ->
    head (writes_on (Coll cidx) (e_ops (run (MetaWritten r0 :: events))))
    = Some (stringify document ++ [NL])).
  { intros r0 events Hr0. unfold run. simpl.
    destruct (started_run events
                (meta_written opts r0 (exportDatabase database d0)) cidx)
      as [_ Hv].
    { by apply meta_written_started. }
    rewrite (meta_written_view database d0 r0 cidx c), Hstart in Hv by done.
    simpl in Hv.
    match type of Hv with context [fold_left ?f ?rs ?v] =>
      destruct (solo_steps_ops cidx rs v) as [more Hmore] end.
    unfold view_of in Hv.
    match type of Hv with context [e_writers ?s !! cidx] =>
      destruct (e_writers s !! cidx) as [w|]; [|done] end.
    simpl in Hv. injection Hv as Hv. rewrite <- writes_on_ops_on.
    unfold export_run in Hmore. apply (f_equal v_ops) in Hv. simpl in Hv.
    rewrite Hv, Hmore. simpl. by rewrite decide_True. }
  split; [|split; [done|]].
  - intros r0 Hr0. unfold run. simpl.
    pose proof (meta_written_view database d0 r0 cidx c Hr0 Hc) as Hv.
    rewrite Hstart in Hv. unfold view_of in Hv.
    match type of Hv with context [e_writers ?s !! cidx] =>
      destruct (e_writers s !! cidx) as [w|]; [|done] end.
    simpl in Hv. injection Hv as -> Hops _.
    split; [done|]. rewrite <- writes_on_ops_on, Hops. simpl.
    by rewrite decide_True.
  - intros events first Hfirst.
    destruct (export_run_cases database d0 events)
      as [Hst|[(r0 & Hr0 & _ & Hst)|(r0 & pre & post & Hr0 & -> & _ & Hst & _)]].
    + unfold run in Hfirst. by rewrite Hst in Hfirst.
    + unfold run in Hfirst. rewrite Hst in Hfirst. unfold meta_written in Hfirst.
      simpl in Hfirst. rewrite Hr0 in Hfirst. by simpl in Hfirst.
    + unfold run in Hfirst. rewrite Hst in Hfirst.
      specialize (Hhead r0 post Hr0). unfold run in Hhead. simpl in Hhead.
      congruence.
Qed.

(** ** The flushes of a writer whose writes succeed *)

Lemma iterate_flushes f docs : forall didx batch,
  writes_on f (iterate opts f docs didx batch).2
  ++ flushes_left opts (iterate opts f docs didx batch).1
  = flushes opts docs didx batch.
Proof.
  induction docs as [|document docs IH]; intros didx batch; simpl.
  - unfold finish. destruct (length batch =? 0); simpl; [done|].
    by rewrite decide_True.
  - destruct (rem_is_zero _ _); [|apply IH].
    destruct (length _ =? 0); [apply IH|]. simpl. by rewrite decide_True.
Qed.

Lemma solo_flushes cidx c text results :
  dirty c = true ->
  Forall succeeded results ->
  let v := solo opts cidx c text results in
  writes_on (Coll cidx) (v_ops v) ++ flushes_left opts (v_writer v)
  = flushes opts (data c) 0 [].
Proof.
  intros Hd Hok. unfold solo.
  assert (Hstart :
    let v := solo_start opts cidx c text in
    writes_on (Coll cidx) (v_ops v) ++ flushes_left opts (v_writer v)
    = flushes opts (data c) 0 []).
  { unfold solo_start, start_writer. rewrite Hd. simpl.
    pose proof (iterate_flushes (Coll cidx) (data c) 0 []) as Hit.
    by destruct (iterate _ _ _ _ _). }
  revert Hstart. generalize (solo_start opts cidx c text).
  induction Hok as [|r results Hr _ IH]; intros v Hv; simpl; [done|].
  apply IH. simpl in *. rewrite <- Hv.
  unfold solo_step. destruct (inflight (v_writer v)) as [buffer|] eqn:Hfl; [|done].
  pose proof (iterate_flushes (Coll cidx) (w_docs (v_writer v))
                (w_didx (v_writer v)) (w_batch (v_writer v))) as Hit.
  unfold written, write_error. rewrite Hr. simpl.
  unfold flushes_left at 2.
  destruct (w_phase (v_writer v)) eqn:Hp; simpl.
  - destruct (iterate _ _ _ _ _). simpl in *.
    by rewrite writes_on_app, <- app_assoc, Hit.
  - rewrite writes_on_app. unfold flushes_left. simpl. by rewrite !app_nil_r.
  - unfold inflight in Hfl. by rewrite Hp in Hfl.
Qed.

Lemma results_for_succeeded cidx events :
  Forall (fun ev => succeeded (result_of ev)) events ->
  Forall succeeded (results_for cidx events).
Proof.
  induction 1 as [|[r|j r] events Hr _ IH]; simpl; [done|done|].
  unfold results_for. simpl. destruct (decide (j = cidx)); [|done].
  by constructor.
Qed.

Lemma lines_app (a b : list doc) : lines (a ++ b) = lines a ++ lines b.
Proof. unfold lines. by rewrite map_app, concat_app. Qed.

(** Documents whose index is no multiple of the batch size pile up in
    the batch. *)
Lemma flushes_pile k : forall (docs : list doc) didx batch,
  k <= length docs ->
  (forall i, i < k -> Z.rem (Z.of_nat (didx + i)) (writer_batch opts) <> 0%Z) ->
  flushes opts docs didx batch
  = flushes opts (drop k docs) (didx + k) (batch ++ lines (take k docs)).
Proof.
  induction k as [|k IH]; intros docs didx batch Hlen Hrem.
  - rewrite drop_0, take_0, Nat.add_0_r. unfold lines. simpl.
    by rewrite app_nil_r.
  - destruct docs as [|document docs]; [simpl in Hlen; lia|].
    cbn -[rem_is_zero Z.of_nat]. specialize (Hrem 0 ltac:(lia)) as Hrem0.
    rewrite Nat.add_0_r in Hrem0. apply rem_is_zero_false in Hrem0 as ->.
    rewrite (IH docs (S didx)).
    + replace (S didx + k) with (didx + S k) by lia.
      unfold lines, line. simpl. by rewrite <- !app_assoc.
    + simpl in Hlen. lia.
    + intros i Hi. replace (S didx + i) with (didx + S i) by lia.
      apply Hrem. lia.
Qed.

(** A batch is flushed with the document whose index is a multiple of
    the batch size. *)
Lemma flushes_batch k (docs : list doc) didx :
  writer_batch opts <> 0%Z ->
  k < length docs ->
  (forall i, i < k -> Z.rem (Z.of_nat (didx + i)) (writer_batch opts) <> 0%Z) ->
  Z.rem (Z.of_nat (didx + k)) (writer_batch opts) = 0%Z ->
  flushes opts docs didx []
  = lines (take (S k) docs) :: flushes opts (drop (S k) docs) (didx + S k) [].
Proof.
  intros Hnz Hlen Hrem Hflush.
  rewrite (flushes_pile k) by (lia || done). simpl.
  destruct (drop k docs) as [|document rest] eqn:Hdrop.
  { apply (f_equal length) in Hdrop. rewrite length_drop in Hdrop.
    simpl in Hdrop. lia. }
  cbn -[rem_is_zero Z.of_nat]. rewrite (rem_is_zero_true _ _ Hnz Hflush).
  assert ((length (lines (take k docs) ++ stringify document ++ [NL]) =? 0)
          = false) as ->.
  { apply Nat.eqb_neq. rewrite !length_app. simpl. lia. }
  replace (S (didx + k)) with (didx + S k) by lia.
  assert (Hk : docs !! k = Some document).
  { rewrite <- (Nat.add_0_r k), <- lookup_drop. by rewrite Hdrop. }
  rewrite (take_S_r _ _ _ Hk).
  rewrite (drop_S _ _ _ Hk) in Hdrop. injection Hdrop as ->.
  rewrite lines_app. unfold lines at 3, line. simpl. by rewrite app_nil_r.
Qed.

Lemma flushes_101_by_25 (docs : list doc) :
  writer_batch opts = 25%Z ->
  length docs = 101 ->
  flushes opts docs 0 [] =
  [lines (take 1 docs); lines (take 25 (drop 1 docs));
   lines (take 25 (drop 26 docs)); lines (take 25 (drop 51 docs));
   lines (take 25 (drop 76 docs))].
Proof.
  intros Hb Hlen.
  assert (Hrem : forall didx i, i < 24 -> (didx = 1 \/ didx = 26 \/ didx = 51 \/ didx = 76) ->
            Z.rem (Z.of_nat (didx + i)) (writer_batch opts) <> 0%Z).
  { intros didx i Hi Hd. rewrite Hb, Z.rem_mod_nonneg by lia.
    Z.to_euclidean_division_equations. lia. }
  assert (Hflush : forall didx,
            (didx = 0 \/ didx = 25 \/ didx = 50 \/ didx = 75 \/ didx = 100) ->
            Z.rem (Z.of_nat didx) (writer_batch opts) = 0%Z).
  { intros didx Hd. rewrite Hb.
    destruct Hd as [->|[->|[->|[->| ->]]]]; reflexivity. }
  assert (Hnz : writer_batch opts <> 0%Z) by (rewrite Hb; lia).
  rewrite (flushes_batch 0 _ _ Hnz);
    [|lia|intros; lia|apply Hflush; lia].
  rewrite (flushes_batch 24 _ _ Hnz);
    [|rewrite length_drop; lia|intros; apply Hrem; lia|apply Hflush; lia].
  rewrite drop_drop.
  rewrite (flushes_batch 24 _ _ Hnz);
    [|rewrite length_drop; lia|intros; apply Hrem; lia|apply Hflush; lia].
  rewrite drop_drop.
  rewrite (flushes_batch 24 _ _ Hnz);
    [|rewrite length_drop; lia|intros; apply Hrem; lia|apply Hflush; lia].
  rewrite drop_drop.
  rewrite (flushes_batch 24 _ _ Hnz);
    [|rewrite length_drop; lia|intros; apply Hrem; lia|apply Hflush; lia].
  rewrite drop_drop, (drop_ge docs (1 + 25 + 25 + 25 + 25)) by lia.
  reflexivity.
Qed.

(** ** C5 *)
(** C5, as the code has it — 101 documents in batches of 25.  Let a
    dirty collection hold 101 documents and the batch size be 25, and
    let no write fail.
    Whatever the order in which the platform reports the completions,
    once the writer of the collection has settled it has made exactly
    5 writes on its descriptor; they are, in this order, the line of
    the document at index 0 alone, then the lines of the documents
    1 to 25, 26 to 50, 51 to 75 and 76 to 100.  The write of the
    remaining items after the last document finds the batch empty and
    writes nothing: the flush of one document is the first one, not
    the last. *)
Theorem flushes_of_101_documents_by_25 database d0 events cidx c :
  writer_batch opts = 25%Z ->
  database !! cidx = Some c ->
  dirty c = true ->
  length (data c) = 101 ->
  Forall (fun ev => succeeded (result_of ev)) events ->
  let st := export_run opts (exportDatabase database d0) events in
  (exists w o, e_writers st !! cidx = Some w /\ w_phase w = Settled o) ->
  writes_on (Coll cidx) (e_ops st) =
    [lines (take 1 (data c));
     lines (take 25 (drop 1 (data c)));
     lines (take 25 (drop 26 (data c)));
     lines (take 25 (drop 51 (data c)));
     lines (take 25 (drop 76 (data c)))] /\
  length (writes_on (Coll cidx) (e_ops st)) = 5 /\
  head (writes_on (Coll cidx) (e_ops st)) = Some (lines (take 1 (data c))) /\
  last (writes_on (Coll cidx) (e_ops st))
  = Some (lines (take 25 (drop 76 (data c)))).
Proof.
  intros Hb Hc Hd Hlen Hok st (w & o & Hw & Hp).
  assert (Hwrites : writes_on (Coll cidx) (e_ops st)
                    = flushes opts (data c) 0 []).
  { destruct (export_run_cases database d0 events)
      as [Hst|[(r0 & Hr0 & _ & Hst)|(r0 & pre & post & _ & -> & _ & _ & Hv)]];
      fold st in Hst || fold st in Hv.
    - by rewrite Hst in Hw.
    - rewrite Hst in Hw. unfold meta_written in Hw. simpl in Hw.
      by rewrite Hr0 in Hw.
    - specialize (Hv cidx c Hc).
      apply Forall_app in Hok as [_ Hok]. apply Forall_cons in Hok as [_ Hok].
      pose proof (solo_flushes cidx c (files d0 !! cidx)
                    (results_for cidx post) Hd
                    (results_for_succeeded cidx post Hok)) as Hfl.
      simpl in Hfl. unfold view_of in Hv. rewrite Hw in Hv. simpl in Hv.
      injection Hv as Hv. rewrite <- Hv in Hfl. simpl in Hfl.
      unfold flushes_left in Hfl. rewrite Hp, app_nil_r in Hfl.
      by rewrite writes_on_ops_on in Hfl. }
  rewrite Hwrites, flushes_101_by_25 by done. done.
Qed.

(** ** A batch write that fails with an error *)

(** A failure with an error ends the writer: it closes the descriptor
    and reports the error. *)
Lemma failed_step cidx v result buffer :
  in_order (v_writer v) ->
  inflight (v_writer v) = Some buffer ->
  w_success result = false ->
  truthy (w_error result) = true ->
  solo_step opts cidx v result =
  View (Writer (Settled (w_error result)) (w_docs (v_writer v))
          (w_didx (v_writer v)) (w_batch (v_writer v)))
    (v_ops v ++ [Close (Coll cidx)]) (v_text v).
Proof.
  intros Hord Hfl Hr He. unfold solo_step. rewrite Hfl.
  unfold written, write_error, in_order, inflight in *. rewrite Hr. simpl.
  destruct (w_phase (v_writer v)); [| |done].
  - rewrite He, Hord. unfold finish, js_or. simpl.
    by repeat (rewrite He; simpl).
  - destruct Hord as [-> _]. unfold js_or. simpl.
    by repeat (rewrite He; simpl).
Qed.

(** X21 — a batch write that fails with an error ends its collection,
    and only it.  Let a batch write of collection [cidx] be in flight
    and the platform report it as failed, with an error.  Then, whatever is reported
    afterwards: the writer of the collection has settled with that
    error as its outcome; the only call it made on its file since is
    the [close] of the descriptor, so no further write; and every
    other collection is written exactly as it is when the same write
    is reported with any other result, a success for instance: its
    writer, the calls on its file and the text of its file are the
    same. *)
Theorem failed_batch_write_ends_its_collection_only
    database d0 events cidx c result events' :
  database !! cidx = Some c ->
  let st := export_run opts (exportDatabase database d0) events in
  (exists w buffer, e_writers st !! cidx = Some w /\ inflight w = Some buffer) ->
  w_success result = false ->
  truthy (w_error result) = true ->
  let st' :=
    export_run opts (export_step opts st (BatchWritten cidx result)) events' in
  (exists w', e_writers st' !! cidx = Some w' /\
              w_phase w' = Settled (w_error result)) /\
  ops_on (Coll cidx) (e_ops st')
  = ops_on (Coll cidx) (e_ops st) ++ [Close (Coll cidx)] /\
  writes_on (Coll cidx) (e_ops st') = writes_on (Coll cidx) (e_ops st) /\
  (forall j result', j <> cidx ->
     view_of j st'
     = view_of j (export_run opts
                    (export_step opts st (BatchWritten cidx result')) events')).
Proof.
  intros Hc st (w & buffer & Hw & Hfl) Hr He st'.
  assert (Hst : e_meta st = false /\ in_order w).
  { destruct (export_run_cases database d0 events)
      as [Hst|[(r0 & Hr0 & _ & Hst)|(r0 & pre & post & _ & _ & Hm & _ & Hv)]];
      fold st in Hst || (fold st in Hv; fold st in Hm).
    - by rewrite Hst in Hw.
    - rewrite Hst in Hw. unfold meta_written in Hw. simpl in Hw.
      by rewrite Hr0 in Hw.
    - split; [done|]. specialize (Hv cidx c Hc).
      unfold view_of in Hv. rewrite Hw in Hv. simpl in Hv. injection Hv as Hv.
      pose proof (solo_in_order cidx c (files d0 !! cidx)
                    (results_for cidx post)) as Hord.
      by rewrite <- Hv in Hord. }
  destruct Hst as [Hm Hord].
  assert (Hstep : forall r j,
    view_of j (export_run opts (export_step opts st (BatchWritten cidx r)) events')
    = (fun v => fold_left (solo_step opts j) (results_for j events') v)
        <$> (if decide (cidx = j)
             then (fun v => solo_step opts j v r) <$> view_of j st
             else view_of j st)).
  { intros r j.
    destruct (started_run events' (export_step opts st (BatchWritten cidx r)) j)
      as [_ ->]; [by rewrite <- Hm; apply batch_written_meta|].
    simpl. by rewrite batch_written_view. }
  assert (Hview : view_of cidx st'
    = Some (View (Writer (Settled (w_error result)) (w_docs w) (w_didx w)
                    (w_batch w))
              (ops_on (Coll cidx) (e_ops st) ++ [Close (Coll cidx)])
              (files (e_disk st) !! cidx))).
  { unfold st'. rewrite Hstep, decide_True by done.
    unfold view_of at 1. rewrite Hw. simpl.
    erewrite failed_step by done. simpl. by rewrite settled_steps. }
  unfold view_of in Hview.
  destruct (e_writers st' !! cidx) as [w'|]; [|done].
  simpl in Hview. injection Hview as -> Hops _.
  split; [by eexists|]. split; [done|]. split.
  - rewrite <- writes_on_ops_on, Hops, writes_on_app, writes_on_ops_on. simpl.
    by rewrite app_nil_r.
  - intros j result' Hne. unfold st'. rewrite !Hstep.
    by destruct (decide (cidx = j)); [congruence|].
Qed.
End ExportFacts.


(* ===================================================================== *)
(** * Properties of loadDatabase                                           *)
(* ===================================================================== *)

Section LoadFacts.
Context {doc : Type} `{JSON doc}.
Variable opts : options.

Local Abbreviation on f := (Forall (fun o : op doc => file_of o = Some f)).

(** ** Every collection is read on its own *)

Lemma next_fields (r : reader) (st : load_state doc) :
  l_database (next r st) = l_database st /\
  l_ops (next r st) = l_ops st /\
  l_readers (next r st) = l_readers st /\
  l_raised (next r st) = l_raised st.
Proof.
  unfold next. destruct (finished r); [|done]. by destruct (each_done _ _).
Qed.

Lemma _complete_on f offset parsed position (entries : list doc) :
  on f (_complete f offset parsed position entries).2.
Proof.
  unfold _complete. destruct (_chunk _ _ _ _); simpl; by repeat constructor.
Qed.

Lemma _read_result_on f r (entries : list doc) result :
  on f (_read_result opts f r entries result).2.
Proof.
  unfold _read_result. destruct (negb (r_success result)).
  - destruct (negb _); [apply _complete_on|by constructor].
  - destruct (_chunk _ _ _ _); [|by constructor].
    destruct (_ =? _)%Z; [by constructor|apply _complete_on].
Qed.

Lemma ops_on_app' f (a b : list (op doc)) :
  ops_on f (a ++ b) = ops_on f a ++ ops_on f b.
Proof. apply filter_app. Qed.

Lemma ops_on_same' f (ops : list (op doc)) : on f ops -> ops_on f ops = ops.
Proof.
  induction 1 as [|o ops Ho _ IH]; [done|].
  unfold ops_on in *. rewrite filter_cons_True by done. by rewrite IH.
Qed.

Lemma ops_on_other' f g (ops : list (op doc)) :
  f <> g -> on g ops -> ops_on f ops = [].
Proof.
  intros Hne. induction 1 as [|o ops Ho _ IH]; [done|].
  unfold ops_on in *. rewrite filter_cons_False; [done|]. congruence.
Qed.

Lemma load_step_reading cidx ev st :
  reading_of cidx (load_step opts st ev)
  = (fun v => reading_step opts cidx v ev) <$> reading_of cidx st.
Proof.
  assert (Hsame : reading_of cidx st = (fun v => v) <$> reading_of cidx st)
    by (by destruct (reading_of cidx st)).
  destruct ev as [j result|j]; simpl.
  - unfold chunk_read.
    destruct (decide (j = cidx)) as [->|Hne].
    + destruct (l_readers st !! cidx) as [r|] eqn:Hr;
        [|by unfold reading_of; rewrite Hr].
      destruct (l_database st !! cidx) as [c|] eqn:Hc;
        [|by unfold reading_of; rewrite Hr, Hc].
      unfold read_step.
      destruct (r_phase r) eqn:Hph;
        try (by unfold reading_of; rewrite Hr, Hc; simpl; rewrite Hph).
      pose proof (_read_result_on (Coll cidx) r (data c) result) as Hon.
      unfold reading_of at 2. rewrite Hr, Hc. simpl. rewrite Hph.
      destruct (_read_result opts (Coll cidx) r (data c) result)
        as [[r' entries] ops] eqn:Hrd.
      unfold reading_of.
      match goal with |- context [next r' ?s] =>
        destruct (next_fields r' s) as (-> & -> & -> & _) end.
      simpl in *.
      rewrite !list_lookup_insert_eq by (by eapply lookup_lt_Some). simpl.
      by rewrite ops_on_app', (ops_on_same' _ ops).
    + rewrite <- Hsame.
      destruct (l_readers st !! j) as [r|] eqn:Hr; [|done].
      destruct (l_database st !! j) as [c|] eqn:Hc; [|done].
      destruct (r_phase r) eqn:Hph; try done.
      pose proof (_read_result_on (Coll j) r (data c) result) as Hon.
      destruct (_read_result opts (Coll j) r (data c) result)
        as [[r' entries] ops] eqn:Hrd.
      unfold reading_of.
      match goal with |- context [next r' ?s] =>
        destruct (next_fields r' s) as (-> & -> & -> & _) end.
      simpl in *. rewrite !list_lookup_insert_ne by done.
      rewrite ops_on_app', (ops_on_other' (Coll cidx) (Coll j) ops), app_nil_r;
        [|congruence|done].
      by destruct (l_readers st !! cidx), (l_database st !! cidx).
  - unfold timer_fired.
    destruct (decide (j = cidx)) as [->|Hne].
    + destruct (l_readers st !! cidx) as [r|] eqn:Hr;
        [|by unfold reading_of; rewrite Hr].
      unfold timer_step.
      destruct (r_phase r) eqn:Hph;
        try (by unfold reading_of; rewrite Hr; simpl;
             destruct (l_database st !! cidx); simpl; rewrite ?Hph).
      unfold reading_of. simpl. rewrite Hr.
      rewrite list_lookup_insert_eq by (by eapply lookup_lt_Some). simpl.
      destruct (l_database st !! cidx); [|done]. simpl. rewrite Hph.
      rewrite ops_on_app'. unfold ops_on at 2.
      by rewrite filter_cons_True.
    + rewrite <- Hsame.
      destruct (l_readers st !! j) as [r|] eqn:Hr; [|done].
      destruct (r_phase r) eqn:Hph; try done.
      unfold reading_of. simpl. rewrite list_lookup_insert_ne by done.
      rewrite ops_on_app'. unfold ops_on at 2.
      rewrite filter_cons_False by (simpl; congruence). simpl.
      rewrite app_nil_r.
      by destruct (l_readers st !! cidx), (l_database st !! cidx).
Qed.

Lemma load_run_reading cidx events : forall st,
  reading_of cidx (load_run opts st events)
  = (fun v => fold_left (reading_step opts cidx) events v) <$> reading_of cidx st.
Proof.
  induction events as [|ev events IH]; intros st; simpl.
  - by destruct (reading_of cidx st).
  - rewrite IH, load_step_reading. by destruct (reading_of cidx st).
Qed.

Lemma ops_on_opened cidx n : forall k,
  ops_on (doc:=doc) (Coll cidx)
    (flat_map (fun i => [Open (Coll i) MODE_READ; Read (Coll i)]) (seq k n))
  = if decide (k <= cidx < k + n)
    then [Open (Coll cidx) MODE_READ; Read (Coll cidx)] else [].
Proof.
  induction n as [|n IH]; intros k.
  - simpl. rewrite decide_False by lia. done.
  - cbn [seq flat_map]. rewrite ops_on_app', (IH (S k)).
    destruct (decide (k = cidx)) as [->|Hne].
    + rewrite ops_on_same' by (by repeat constructor).
      rewrite decide_False, decide_True by lia. done.
    + rewrite (ops_on_other' (Coll cidx) (Coll k))
        by (congruence || by repeat constructor).
      destruct (decide (S k <= cidx < S k + n)).
      * by rewrite decide_True by lia.
      * by rewrite decide_False by lia.
Qed.

(** The start: a stream and a first read for every collection. *)
Lemma loadDatabase_reading (d : disk doc) database cidx c :
  meta d = Header database ->
  database !! cidx = Some c ->
  reading_of cidx (loadDatabase d)
  = Some (ReadingOf (Reader Reading [] 0 0) (data c)
            [Open (Coll cidx) MODE_READ; Read (Coll cidx)]).
Proof.
  intros Hm Hc. unfold loadDatabase. rewrite Hm.
  destruct (each_empty _) as [each' call]. unfold reading_of. simpl.
  rewrite lookup_replicate_2 by (by eapply lookup_lt_Some).
  rewrite Hc. simpl.
  pose proof (ops_on_opened cidx (length database) 0) as Hops.
  unfold ops_on in *. rewrite !filter_cons_False by (simpl; congruence).
  rewrite Hops, decide_True; [done|].
  apply lookup_lt_Some in Hc. lia.
Qed.

Lemma idle_load events : forall st : load_state doc,
  l_readers st = [] -> load_run opts st events = st.
Proof.
  induction events as [|[j result|j] events IH]; intros st Hr; simpl; [done| |].
  - unfold chunk_read. rewrite Hr. simpl. by apply IH.
  - unfold timer_fired. rewrite Hr. simpl. by apply IH.
Qed.

(** ** C8 *)
(** C8 — a database that was never saved.  When the metadata file of
    the name does not exist, [loadDatabase] calls the callback once,
    with [undefined]; the only call it makes on the filesystem is the
    test whether the metadata file exists, so it creates nothing,
    opens no stream and reads no collection; it does not raise; and
    nothing the platform reports afterwards changes any of this. *)
Theorem missing_metadata_is_not_found (d : disk doc) events :
  meta d = Absent ->
  let st := load_run opts (loadDatabase d) events in
  l_callback st = [NotFound] /\
  l_ops st = [Exists Meta] /\
  l_readers st = [] /\
  l_database st = [] /\
  l_raised st = false.
Proof.
  intros Hm st. unfold st, loadDatabase. rewrite Hm.
  by rewrite idle_load.
Qed.

(** ** Readers between events *)

Lemma _chunk_returned_no_nl {S} (consumer : doc -> S -> S) tmp input st st' tmp' :
  NL ∉ tmp ->
  _chunk tmp input consumer st = Returned st' tmp' ->
  NL ∉ tmp'.
Proof.
  intros Hnl Hr. rewrite _chunk_split_lines in Hr.
  apply emit_lines_returned in Hr as ->.
  by apply split_lines_spec.
Qed.

Lemma _complete_steady f offset parsed position (entries : list doc) :
  NL ∉ offset -> steady opts (_complete f offset parsed position entries).1.1.
Proof.
  intros Hnl. unfold _complete. by destruct (_chunk _ _ _ _).
Qed.

Lemma reading_step_steady cidx v ev :
  steady opts (rd_reader v) -> steady opts (rd_reader (reading_step opts cidx v ev)).
Proof.
  intros [Hnl Hp]. destruct ev as [j result|j]; simpl.
  - destruct (decide (j = cidx)); [|done].
    unfold read_step.
    destruct (r_phase (rd_reader v)) eqn:Hph; try (split; [done|by rewrite Hph]).
    unfold _read_result. destruct (negb (r_success result)).
    + destruct (negb (r_parsed (rd_reader v) =? 0)%Z).
      * pose proof (_complete_steady (Coll cidx) (r_offset (rd_reader v))
          (r_parsed (rd_reader v)) (r_position (rd_reader v)) (rd_data v) Hnl).
        by destruct (_complete _ _ _ _ _) as [[??]?].
      * done.
    + destruct (_chunk _ _ _ _) as [entries' offset|entries'] eqn:Hch; [|done].
      apply _chunk_returned_no_nl in Hch; [|done].
      destruct (_ =? _)%Z eqn:Heq.
      * split; [done|]. simpl. right. by apply Z.eqb_eq.
      * pose proof (_complete_steady (Coll cidx) offset (bytesProcessed result)
          (r_position (rd_reader v) + Z.to_nat (bytesProcessed result))
          entries' Hch).
        by destruct (_complete _ _ _ _ _) as [[??]?].
  - destruct (decide (j = cidx)); [|done].
    unfold timer_step.
    destruct (r_phase (rd_reader v)) eqn:Hph; try (split; [done|by rewrite Hph]).
    done.
Qed.

Lemma reachable_steady (d : disk doc) database events cidx v :
  meta d = Header database ->
  reading_of cidx (load_run opts (loadDatabase d) events) = Some v ->
  steady opts (rd_reader v).
Proof.
  intros Hm. rewrite load_run_reading.
  destruct (reading_of cidx (loadDatabase d)) as [v0|] eqn:Hv0; [|done].
  simpl. intros [= <-].
  assert (Hs : steady opts (rd_reader v0)).
  { unfold reading_of, loadDatabase in Hv0. rewrite Hm in Hv0.
    destruct (each_empty _) as [each' call]. simpl in Hv0.
    destruct (replicate _ _ !! cidx) as [r|] eqn:Hr; [|done].
    apply lookup_replicate in Hr as [-> _]. simpl in Hv0.
    destruct (database !! cidx); [|done]. injection Hv0 as <-.
    split; [apply not_elem_of_nil|by left]. }
  clear Hv0. revert v0 Hs.
  induction events as [|ev events IH]; intros v0 Hs; simpl; [done|].
  by apply IH, reading_step_steady.
Qed.

Lemma finished_steps cidx events : forall v,
  at_rest (rd_reader v) = true ->
  fold_left (reading_step opts cidx) events v = v.
Proof.
  induction events as [|ev events IH]; intros v Hv; simpl; [done|].
  assert (reading_step opts cidx v ev = v) as ->; [|by apply IH].
  unfold at_rest in Hv.
  destruct ev as [j result|j]; simpl; destruct (decide (j = cidx)); try done.
  - unfold read_step. by destruct (r_phase (rd_reader v)).
  - unfold timer_step. by destruct (r_phase (rd_reader v)).
Qed.

Lemma other_steps cidx events : forall v,
  Forall (fun ev => concerns cidx ev = false) events ->
  fold_left (reading_step opts cidx) events v = v.
Proof.
  induction events as [|ev events IH]; intros v Hev; simpl; [done|].
  apply Forall_cons in Hev as [Hev Hevs].
  assert (reading_step opts cidx v ev = v) as ->; [|by apply IH].
  destruct ev as [j result|j]; simpl in *;
    apply bool_decide_eq_false in Hev; by rewrite decide_False.
Qed.

(** ** C3 *)
(** C3 — two exits that leave a descriptor open.  When the metadata
    write of an export is reported as failed, the export has opened
    the metadata file and written to it and calls back with the error,
    but it never closes the descriptor: no call follows, whatever else
    is reported.  When the very first read of a collection is reported
    as failed during a load, the reader of the collection ends with
    the error as its outcome, and the calls on its file are the
    opening of the stream and that one read: the stream is never
    closed. *)
Theorem descriptor_left_open_on_early_failure :
  (forall (database : list (collection doc)) d0 result events,
      w_success result = false ->
      let st := export_run opts (exportDatabase database d0)
                  (MetaWritten result :: events) in
      e_ops st = [CreateDirectory; Open Meta MODE_WRITE;
                  WriteHeader (cloned database)] /\
      (Close Meta ∉ e_ops st) /\
      e_callback st = [w_error result]) /\
  (forall (d : disk doc) database cidx c result before events,
      meta d = Header database ->
      database !! cidx = Some c ->
      Forall (fun ev => concerns cidx ev = false) before ->
      r_success result = false ->
      let st := load_run opts (loadDatabase d)
                  (before ++ ChunkRead cidx result :: events) in
      exists r,
        l_readers st !! cidx = Some r /\
        r_phase r = Finished (r_error result) /\
        ops_on (Coll cidx) (l_ops st)
        = [Open (Coll cidx) MODE_READ; Read (Coll cidx)] /\
        Close (Coll cidx) ∉ l_ops st).
Proof.
  split.
  - intros database d0 result events Hr st.
    assert (Hst : st = meta_written opts result (exportDatabase database d0)).
    { unfold st. simpl. apply idle_run; unfold meta_written; simpl;
        by rewrite Hr. }
    rewrite Hst. unfold meta_written. simpl. rewrite Hr. simpl.
    split; [done|]. split; [|done].
    rewrite !not_elem_of_cons. repeat split; try done. apply not_elem_of_nil.
  - intros d database cidx c result before events Hm Hc Hbefore Hr st.
    pose proof (load_run_reading cidx (before ++ ChunkRead cidx result :: events)
                  (loadDatabase d)) as Hv.
    fold st in Hv.
    rewrite (loadDatabase_reading d database cidx c Hm Hc) in Hv. simpl in Hv.
    rewrite fold_left_app, (other_steps cidx before) in Hv by done.
    simpl in Hv.
    rewrite decide_True in Hv by done.
    unfold read_step, _read_result in Hv. simpl in Hv. rewrite Hr in Hv.
    simpl in Hv. rewrite finished_steps in Hv by done.
    unfold reading_of in Hv.
    destruct (l_readers st !! cidx) as [r|]; [|done]. simpl in Hv.
    destruct (l_database st !! cidx) as [c'|]; [|done]. simpl in Hv.
    injection Hv as -> _ Hops.
    exists (Reader (Finished (r_error result)) [] 0 0).
    split; [done|]. split; [done|].
    split; [done|].
    intros Hin. assert (Hin' : Close (Coll cidx) ∈ ops_on (Coll cidx) (l_ops st)).
    { unfold ops_on. by apply list_elem_of_filter. }
    rewrite Hops, !elem_of_cons, elem_of_nil in Hin'.
    by destruct Hin' as [?|[?|?]].
Qed.

End LoadFacts.

(* ===================================================================== *)
(** * Files of single-byte characters                                      *)
(* ===================================================================== *)

Section SingleBytes.
Context {doc : Type} `{JSON doc} `{EncodingLaws}.

Lemma single_byte_lines (docs : list doc) :
  (forall document : doc, single_byte (stringify document)) ->
  single_byte (lines docs).
Proof.
  intros Hs. induction docs as [|document docs IH]; [constructor|].
  unfold lines. simpl. apply Forall_app. split; [|exact IH].
  unfold line. apply Forall_app. split; [apply Hs|]. by repeat constructor.
Qed.

(** In a file of single-byte characters the callback of a read gets
    the bytes that were read. *)
Lemma honest_read_plain cap rest result :
  single_byte rest -> honest_read cap rest result -> plain_read cap rest result.
Proof.
  intros Hs. unfold honest_read, plain_read.
  destruct rest as [|byte rest']; [done|].
  set (rest := byte :: rest') in *. cbv zeta.
  intros (Hok & Hn & buffer & Htake & Hpad & Hsingle & Hlen & Htext).
  assert (Hb : toString buffer = buffer).
  { apply toString_single.
    rewrite <- (take_drop (min cap (length rest)) buffer).
    apply Forall_app. split; [rewrite Htake; by apply Forall_take|done]. }
  rewrite Htext, Hb. done.
Qed.

Lemma sync_served_plain cap tape : forall rest,
  single_byte rest -> sync_served cap rest tape -> sync_plain cap rest tape.
Proof.
  induction tape as [|answer tape IH]; intros rest Hs; [done|].
  simpl. destruct rest as [|byte rest']; [done|].
  set (rest := byte :: rest') in *.
  intros (Hcount & (buffer & Htake & Hpad & Hsingle & Hlen & Htext) & Hrest).
  assert (Hb : toString buffer = buffer).
  { apply toString_single.
    rewrite <- (take_drop (min cap (length rest)) buffer).
    apply Forall_app. split; [rewrite Htake; by apply Forall_take|done]. }
  rewrite Htext, Hb. repeat split; try done.
  apply IH; [by apply Forall_drop|done].
Qed.
End SingleBytes.

(* ===================================================================== *)
(** * Properties of an export followed by a load                           *)
(* ===================================================================== *)

Section Tally.
Context {A : Type} (P : A -> bool).

Lemma tally_app (l1 l2 : list A) : tally P (l1 ++ l2) = tally P l1 + tally P l2.
Proof. unfold tally. by rewrite filter_app, length_app. Qed.

Lemma tally_le (l : list A) : tally P l <= length l.
Proof. apply length_filter. Qed.

Lemma tally_one (x : A) : tally P [x] = if P x then 1 else 0.
Proof.
  unfold tally. destruct (P x) eqn:Hx.
  - by rewrite filter_cons_True.
  - rewrite filter_cons_False; [done|]. by rewrite Hx.
Qed.

Lemma tally_cons (x : A) l : tally P (x :: l) = (if P x then 1 else 0) + tally P l.
Proof. by rewrite <- tally_one, <- tally_app. Qed.

Lemma tally_insert (l : list A) j x x' :
  l !! j = Some x -> P x = false ->
  tally P (<[j := x']> l) = tally P l + (if P x' then 1 else 0).
Proof.
  intros Hj Hx.
  rewrite insert_take_drop by (by eapply lookup_lt_Some).
  rewrite <- (take_drop_middle l j x Hj) at 3.
  rewrite !tally_app, !tally_cons, Hx. lia.
Qed.

Lemma tally_insert_same (l : list A) j x x' :
  l !! j = Some x -> P x = P x' -> tally P (<[j := x']> l) = tally P l.
Proof.
  intros Hj Hx.
  rewrite insert_take_drop by (by eapply lookup_lt_Some).
  rewrite <- (take_drop_middle l j x Hj) at 3.
  rewrite !tally_app, !tally_cons, Hx. lia.
Qed.

Lemma tally_all (l : list A) :
  tally P l = length l -> Forall (fun x => P x = true) l.
Proof.
  intros Hc. apply Forall_forall. intros x Hx.
  destruct (P x) eqn:Hs; [done|].
  pose proof (length_filter_lt (fun x => P x = true) l x Hx) as Hlt.
  unfold tally in Hc. simpl in Hlt.
  assert (Hn : P x <> true) by (by rewrite Hs).
  specialize (Hlt Hn). lia.
Qed.

Lemma tally_Forall (l : list A) :
  Forall (fun x => P x = true) l -> tally P l = length l.
Proof.
  induction 1 as [|x l Hx _ IH]; [done|]. rewrite tally_cons, Hx, IH. done.
Qed.
End Tally.

Section RoundTrip.
Context {doc : Type} `{JSONLaws doc} `{EncodingLaws}.
Variable opts : options.

(** ** The export, when no write fails *)

Lemma each_done_spec err s :
  size (each_done err s).1 = size s /\
  completed (each_done err s).1
  = completed s + (if truthy err then 0 else 1) /\
  (forall v, (each_done err s).2 = Some v ->
     (v = Null /\ truthy err = false /\ S (completed s) = size s) \/
     (v = err /\ truthy v = true)).
Proof.
  unfold each_done.
  destruct (truthy err) eqn:He;
    [|destruct (S (completed s) =? size s) eqn:Hs]; simpl.
  - split; [done|]. split; [lia|]. intros v Hv. destruct (used s); [done|].
    injection Hv as <-. by right.
  - split; [done|]. split; [lia|]. intros v Hv. destruct (used s); [done|].
    injection Hv as <-. left. apply Nat.eqb_eq in Hs. done.
  - split; [done|]. split; [lia|done].
Qed.

Lemma count_ok_app (ws1 ws2 : list (writer doc)) :
  count_ok (ws1 ++ ws2) = count_ok ws1 + count_ok ws2.
Proof. apply tally_app. Qed.

Lemma count_ok_le (ws : list (writer doc)) : count_ok ws <= length ws.
Proof. apply tally_le. Qed.

Lemma count_ok_one (w : writer doc) :
  count_ok [w] = if settled_ok w then 1 else 0.
Proof. apply tally_one. Qed.

Lemma count_ok_insert (ws : list (writer doc)) j w w' :
  ws !! j = Some w -> settled_ok w = false ->
  count_ok (<[j := w']> ws) = count_ok ws + (if settled_ok w' then 1 else 0).
Proof. apply tally_insert. Qed.

Lemma count_ok_all (ws : list (writer doc)) :
  count_ok ws = length ws -> Forall (fun w => settled_ok w = true) ws.
Proof. apply tally_all. Qed.

Lemma cnext_tallied (w : writer doc) st :
  completed (e_each st) + (if settled_ok w then 1 else 0)
  = count_ok (e_writers st) ->
  length (e_writers st) <= size (e_each st) ->
  (Null ∈ e_callback st -> completed (e_each st) = size (e_each st)) ->
  tallied (cnext w st) /\ size (e_each (cnext w st)) = size (e_each st).
Proof.
  intros Hcount Hlen Hnull.
  pose proof (count_ok_le (e_writers st)) as Hle.
  unfold cnext, settled_ok, outcome in *.
  destruct (w_phase w) as [| |o]; try (rewrite Nat.add_0_r in Hcount; done).
  pose proof (each_done_spec o (e_each st)) as (Hsize & Hcompl & Hcall).
  destruct (each_done o (e_each st)) as [each' call]. simpl in *.
  unfold tallied. simpl. split; [|done].
  split; [destruct (truthy o); simpl in *; lia|].
  split; [lia|].
  intros Hin. apply elem_of_app in Hin as [Hin|Hin].
  - specialize (Hnull Hin). destruct (truthy o); simpl in *; lia.
  - destruct call as [v|]; [|by apply elem_of_nil in Hin].
    apply list_elem_of_singleton in Hin as <-.
    destruct (Hcall Null eq_refl) as [(_ & He & Hs)|[_ Ht]]; [|done].
    rewrite He in *. simpl in *. lia.
Qed.

Lemma each_collection_tallied cs : forall k st,
  tallied st -> length (e_writers st) = k ->
  k + length cs <= size (e_each st) ->
  tallied (each_collection opts k cs st) /\
  size (e_each (each_collection opts k cs st)) = size (e_each st).
Proof.
  induction cs as [|c cs IH]; intros k st Ht Hk Hsize; simpl; [done|].
  destruct (start_writer opts k c) as [w ops].
  destruct Ht as (Hcount & Hlen & Hnull).
  match goal with |- context [cnext w ?s] =>
    destruct (cnext_tallied w s) as [Ht' Hsize'];
    [simpl; rewrite count_ok_app, count_ok_one; lia
    |simpl in *; rewrite length_app; simpl in *; lia
    |done|];
    destruct (cnext_fields w s) as (_ & _ & _ & _ & Hws)
  end.
  simpl in *.
  match goal with |- context [each_collection opts (S k) cs ?s] =>
    destruct (IH (S k) s) as [Ht'' Hsize'']; [done| |lia|]
  end.
  { rewrite Hws, length_app. simpl. lia. }
  split; [done|]. lia.
Qed.

Lemma meta_written_tallied (database : list (collection doc)) d0 result :
  w_success result = true ->
  let st := meta_written opts result (exportDatabase database d0) in
  tallied st /\ size (e_each st) = length database /\
  length (e_writers st) = length database /\
  meta (e_disk st) = Header (cloned database).
Proof.
  intros Hok. unfold meta_written, exportDatabase. simpl. rewrite Hok. simpl.
  match goal with |- context [each_collection opts 0 database ?s] =>
    destruct (each_collection_tallied database 0 s) as [Ht Hsize];
      [by repeat split; simpl; try lia; intros ?%elem_of_nil|done|simpl; lia|];
    pose proof (each_collection_fields opts database 0 s)
      as (_ & _ & Hmeta & Hws & _);
    set (st2 := each_collection opts 0 database s) in *
  end.
  simpl in *. destruct Ht as (Hcount & Hlen & Hnull).
  assert (Hl : length (e_writers st2) = length database).
  { by rewrite Hws, length_imap. }
  unfold each_empty. destruct (size (e_each st2) =? 0) eqn:Hz; simpl.
  - apply Nat.eqb_eq in Hz. repeat split; try done; try lia.
    simpl. intros _. pose proof (count_ok_le (e_writers st2)). simpl. lia.
  - repeat split; try done. simpl. intros Hin. apply Hnull.
    by rewrite app_nil_r in Hin.
Qed.

Lemma batch_written_tallied j result (st : export_state doc) :
  tallied st ->
  tallied (batch_written opts j result st) /\
  size (e_each (batch_written opts j result st)) = size (e_each st) /\
  length (e_writers (batch_written opts j result st)) = length (e_writers st) /\
  meta (e_disk (batch_written opts j result st)) = meta (e_disk st).
Proof.
  intros Ht. unfold batch_written.
  destruct (e_writers st !! j) as [w|] eqn:Hw; [|done].
  destruct (inflight w) as [buffer|] eqn:Hfl; [|done].
  destruct (written opts (Coll j) w result) as [w' ops].
  destruct Ht as (Hcount & Hlen & Hnull).
  assert (Hnot : settled_ok w = false).
  { unfold settled_ok, inflight in *. by destruct (w_phase w). }
  pose proof (count_ok_le (e_writers st)) as Hle.
  pose proof (count_ok_all (e_writers st)) as Hall.
  match goal with |- context [cnext w' ?s] =>
    destruct (cnext_tallied w' s) as [Ht' Hsize'];
      [simpl; rewrite (count_ok_insert _ _ w) by done; lia
      |simpl; by rewrite length_insert
      |simpl; intros Hin; specialize (Hnull Hin)
      |];
    [|destruct (cnext_fields w' s) as (_ & Hd & _ & _ & Hws)]
  end.
  - assert (Hf : Forall (fun w => settled_ok w = true) (e_writers st))
      by (apply Hall; lia).
    rewrite Forall_lookup in Hf. specialize (Hf j w Hw). congruence.
  - split; [exact Ht'|]. split; [exact Hsize'|].
    split; [rewrite Hws; simpl; by rewrite length_insert|].
    rewrite Hd. simpl. unfold append. by destruct (w_success result).
Qed.

Lemma started_tallied events : forall st : export_state doc,
  e_meta st = false -> tallied st ->
  tallied (export_run opts st events) /\
  size (e_each (export_run opts st events)) = size (e_each st) /\
  length (e_writers (export_run opts st events)) = length (e_writers st) /\
  meta (e_disk (export_run opts st events)) = meta (e_disk st).
Proof.
  induction events as [|[result|j result] events IH]; intros st Hm Ht; simpl;
    [done| |].
  - unfold meta_written. rewrite Hm. simpl. by apply IH.
  - destruct (batch_written_tallied j result st Ht) as (Ht' & Hs & Hl & Hd).
    destruct (IH (batch_written opts j result st)) as (Ht2 & Hs2 & Hl2 & Hd2);
      [by rewrite batch_written_meta|done|].
    split; [done|]. split; [congruence|]. split; congruence.
Qed.

(** What is on the file, what is in flight and what is still to be
    flushed make up the lines of the collection. *)
Lemma concat_flushes (docs : list doc) : forall didx batch,
  concat (flushes opts docs didx batch) = batch ++ lines docs.
Proof.
  induction docs as [|document docs IH]; intros didx batch; simpl.
  - destruct batch; simpl; by rewrite ?app_nil_r.
  - destruct (rem_is_zero _ _).
    + destruct (length _ =? 0) eqn:Hl; simpl; rewrite IH.
      * unfold lines, line. simpl. by rewrite <- !app_assoc.
      * unfold lines, line. simpl. by rewrite <- !app_assoc.
    + rewrite IH. unfold lines, line. simpl. by rewrite <- !app_assoc.
Qed.

Lemma iterate_inflight f (docs : list doc) : forall didx batch,
  writes_on f (iterate opts f docs didx batch).2
  = match inflight (iterate opts f docs didx batch).1 with
    | Some buffer => [buffer]
    | None => []
    end.
Proof.
  induction docs as [|document docs IH]; intros didx batch; simpl.
  - unfold finish. destruct (length batch =? 0); simpl; [done|].
    by rewrite decide_True.
  - destruct (rem_is_zero _ _); [|apply IH].
    destruct (length _ =? 0); [apply IH|]. simpl. by rewrite decide_True.
Qed.

Lemma iterate_text f (docs : list doc) didx batch :
  default [] (inflight (iterate opts f docs didx batch).1)
  ++ concat (flushes_left opts (iterate opts f docs didx batch).1)
  = batch ++ lines docs.
Proof.
  rewrite <- (concat_flushes docs didx batch),
    <- (iterate_flushes opts f docs didx batch).
  rewrite iterate_inflight, concat_app.
  destruct (inflight _); simpl; by rewrite ?app_nil_r.
Qed.

Lemma solo_text cidx c text results :
  dirty c = true ->
  Forall succeeded results ->
  let v := solo opts cidx c text results in
  exists sofar,
    v_text v = Some sofar /\
    sofar ++ default [] (inflight (v_writer v))
    ++ concat (flushes_left opts (v_writer v)) = lines (data c).
Proof.
  intros Hd Hok. unfold solo.
  assert (Hstart :
    let v := solo_start opts cidx c text in
    in_order (v_writer v) /\
    exists sofar,
      v_text v = Some sofar /\
      sofar ++ default [] (inflight (v_writer v))
      ++ concat (flushes_left opts (v_writer v)) = lines (data c)).
  { unfold solo_start, start_writer. rewrite Hd. simpl.
    pose proof (iterate_text (Coll cidx) (data c) 0 []) as Hit.
    pose proof (iterate_in_order opts (Coll cidx) (data c) 0 []) as Hord.
    destruct (iterate _ _ _ _ _). simpl in *. split; [done|]. by exists []. }
  revert Hstart. generalize (solo_start opts cidx c text).
  induction Hok as [|r results Hr _ IH]; intros v Hv; simpl; [by apply Hv|].
  apply IH. simpl in *. destruct Hv as (Hord & sofar & Htext & Hsum).
  unfold solo_step.
  destruct (inflight (v_writer v)) as [buffer|] eqn:Hfl.
  2:{ split; [done|]. exists sofar. by rewrite Hfl. }
  pose proof (written_in_order opts (Coll cidx) (v_writer v) r Hord) as Hord'.
  pose proof (iterate_text (Coll cidx) (w_docs (v_writer v))
                (w_didx (v_writer v)) (w_batch (v_writer v))) as Hit.
  unfold written, write_error in *. rewrite Hr in *. simpl in *.
  unfold flushes_left in Hsum. unfold in_order, inflight in Hord, Hfl, Hsum.
  rewrite Htext. simpl.
  destruct (w_phase (v_writer v)) eqn:Hp; simpl in *; [| |done].
  - rewrite Hord in *. simpl in Hit.
    destruct (iterate _ _ _ _ _). simpl in *. split; [done|].
    eexists. split; [done|]. injection Hfl as ->.
    rewrite <- Hsum, <- app_assoc. f_equal.
    rewrite concat_flushes. simpl. congruence.
  - split; [done|]. eexists. split; [done|]. injection Hfl as ->.
    unfold flushes_left. simpl. rewrite <- Hsum. by rewrite !app_nil_r.
Qed.

(** An export that called back with [null] after writes that all
    succeeded has written the metadata and every dirty collection. *)
Lemma export_complete (database : list (collection doc)) d0 events :
  Forall (fun ev => succeeded (result_of ev)) events ->
  let st := export_run opts (exportDatabase database d0) events in
  Null ∈ e_callback st ->
  meta (e_disk st) = Header (cloned database) /\
  forall cidx c, database !! cidx = Some c -> dirty c = true ->
    files (e_disk st) !! cidx = Some (lines (data c)).
Proof.
  intros Hok st Hnull.
  pose proof (export_run_cases opts database d0 events) as Hcases.
  simpl in Hcases. fold st in Hcases. clearbody st.
  destruct Hcases
    as [Hst|[(r0 & Hr0 & Hin & Hst)|(r0 & pre & post & Hr0 & -> & Hm & Hst & Hv)]].
  - rewrite Hst in Hnull. by apply elem_of_nil in Hnull.
  - rewrite Forall_forall in Hok. specialize (Hok _ Hin).
    unfold succeeded in Hok. simpl in Hok. congruence.
  - destruct (meta_written_tallied database d0 r0 Hr0) as (Ht & Hsz & Hl & Hd).
    destruct (started_tallied post
                (meta_written opts r0 (exportDatabase database d0)))
      as (Ht' & Hsz' & Hl' & Hd'); [by apply meta_written_started|done|].
    rewrite <- Hst in *. split; [congruence|].
    intros cidx c Hc Hdirty.
    destruct Ht' as (Hcount & Hlen & Hn). specialize (Hn Hnull).
    assert (Hall : Forall (fun w => settled_ok w = true) (e_writers st)).
    { apply count_ok_all. pose proof (count_ok_le (e_writers st)). lia. }
    specialize (Hv cidx c Hc). unfold view_of in Hv.
    destruct (e_writers st !! cidx) as [w|] eqn:Hw; [|by simpl in Hv].
    simpl in Hv. injection Hv as Hv.
    rewrite Forall_lookup in Hall. specialize (Hall cidx w Hw).
    apply Forall_app in Hok as [_ Hok]. apply Forall_cons in Hok as [_ Hok].
    destruct (solo_text cidx c (files d0 !! cidx) (results_for cidx post)
                Hdirty (results_for_succeeded cidx post Hok))
      as (sofar & Htext & Hsum).
    rewrite <- Hv in Htext, Hsum. simpl in *.
    unfold settled_ok, inflight, flushes_left in *.
    destruct (w_phase w); try done. simpl in Hsum.
    rewrite !app_nil_r in Hsum. congruence.
Qed.

(** ** The load, on files that an export wrote *)

(** The codec reads the lines of a collection back. *)
Lemma _chunk_lines (docs : list doc) : forall entries,
  _chunk [] (lines docs) push entries = Returned (entries ++ docs) [].
Proof.
  induction docs as [|document docs IH]; intros entries; simpl.
  - by rewrite app_nil_r.
  - unfold lines in *. simpl. unfold line at 1.
    rewrite <- app_assoc, _chunk_app, _chunk_no_nl by apply stringify_no_nl.
    simpl.
    assert ((length (stringify document) =? 0) = false) as ->.
    { apply Nat.eqb_neq. pose proof (stringify_nonempty document).
      by destruct (stringify document). }
    rewrite parse_stringify, IH. unfold push. by rewrite <- app_assoc.
Qed.

Lemma read_step_on_course cidx content docs (v : @reading doc) result :
  (1 <= reader_buffer opts)%Z ->
  r_phase (rd_reader v) = Reading ->
  on_course content docs v ->
  plain_read (Z.to_nat (reader_buffer opts))
    (drop (r_position (rd_reader v)) content) result ->
  on_course content docs (read_step opts cidx result v).
Proof.
  intros Hcap Hph Hc Hh. unfold read_step. rewrite Hph.
  unfold on_course in Hc. rewrite Hph in Hc. destruct Hc as [Hc Hfirst].
  destruct v as [[ph offset parsed position] entries ops]. simpl in *.
  subst ph. unfold _read_result. simpl.
  set (cap := Z.to_nat (reader_buffer opts)) in *.
  assert (Hrb : reader_buffer opts = Z.of_nat cap) by (unfold cap; lia).
  destruct (drop position content) as [|byte rest'] eqn:Hrest.
  - (* the end of the file *)
    simpl in Hc. injection Hc as -> ->. simpl in Hh.
    destruct (r_success result) eqn:Hs; simpl.
    + destruct Hh as [Hf|[Hbp Hnl]]; [done|].
      rewrite _chunk_no_nl by done. simpl.
      assert ((bytesProcessed result =? reader_buffer opts)%Z = false) as ->.
      { apply Z.eqb_neq. congruence. }
      unfold _complete. rewrite _chunk_no_nl by done. done.
    + destruct (parsed =? 0)%Z eqn:Hp; simpl.
      * apply Z.eqb_eq in Hp. unfold on_course. simpl. split; [done|].
        intros _. rewrite (Hfirst Hp), drop_0 in Hrest. done.
      * unfold _complete. simpl. done.
  - (* more to read *)
    set (rest := byte :: rest') in *.
    assert (Hne : 0 < length rest) by (simpl; lia).
    unfold plain_read in Hh. fold rest in Hh.
    set (n := min cap (length rest)) in *.
    destruct Hh as (Hs & Hbp & Htake & Hpad & Hlen).
    rewrite Hs. simpl.
    rewrite <- (take_drop n rest), _chunk_app in Hc.
    rewrite <- (take_drop n (r_text result)), Htake, _chunk_app.
    destruct (_chunk offset (take n rest) push entries) as [e1 o1|e1]; [|done].
    rewrite _chunk_no_nl by done.
    rewrite Hbp, Hrb.
    destruct (Z.of_nat n =? Z.of_nat cap)%Z eqn:Heq.
    + apply Z.eqb_eq in Heq. assert (Hn : n = cap) by lia.
      assert (Hfull : drop n (r_text result) = []).
      { apply drop_ge. apply (f_equal length) in Htake.
        rewrite !length_take in Htake. lia. }
      rewrite Hfull, app_nil_r. unfold on_course. simpl.
      rewrite Nat2Z.id.
      rewrite <- (drop_drop content n position), Hrest. split; [done|]. lia.
    + apply Z.eqb_neq in Heq. assert (Hn : n = length rest) by lia.
      rewrite (drop_ge rest n) in Hc by lia. simpl in Hc.
      injection Hc as -> ->. simpl.
      unfold _complete. rewrite _chunk_no_nl by done. done.
Qed.

Lemma next_answered (r' : reader) (st : load_state doc) j :
  l_readers st !! j = Some r' ->
  completed (l_each st) + (if finished_ok r' then 1 else 0)
    = tally finished_ok (l_readers st) ->
  size (l_each st) = length (l_readers st) ->
  length (l_callback st) <= 1 ->
  (used (l_each st) = true <-> l_callback st <> []) ->
  (List.Exists (fun r => finished_err r = true) (l_readers st) ->
     used (l_each st) = true \/ finished_err r' = true) ->
  (completed (l_each st) = size (l_each st) -> used (l_each st) = true) ->
  (forall answer, answer ∈ l_callback st ->
     Forall (fun r => finished_err r = false) (l_readers st) -> False) ->
  answered (next r' st).
Proof.
  intros Hj Hcount Hsize Hlen Hused Hex Hfull Hold.
  pose proof (tally_le finished_ok (l_readers st)) as Hle.
  assert (Hnil : used (l_each st) = false -> l_callback st = []).
  { intros Hu. destruct (l_callback st); [done|].
    destruct Hused as [_ Hu']. rewrite Hu' in Hu; done. }
  assert (Hother : (forall o, r_phase r' <> Finished o) ->
            answered st /\ next r' st = st).
  { intros Hph.
    assert (finished_ok r' = false /\ finished_err r' = false /\
            finished r' = None) as (Hok' & Herr' & Hfin).
    { unfold finished_ok, finished_err, finished.
      destruct (r_phase r') as [| |o|]; try done. by destruct (Hph o). }
    rewrite Hok', Nat.add_0_r in Hcount. rewrite Herr' in Hex.
    split; [|unfold next; by rewrite Hfin].
    split; [done|]. split; [done|]. split; [done|]. split; [done|].
    split; [intros Hx; by destruct (Hex Hx)|]. split; [done|].
    intros a Ha Hf. by destruct (Hold a Ha Hf). }
  destruct (r_phase r') as [| |o|] eqn:Hph;
    try (by destruct Hother as [Ha ->]).
  clear Hother.
  -
    assert (finished_ok r' = negb (truthy o) /\ finished_err r' = truthy o)
      as [Hok' Herr'] by (unfold finished_ok, finished_err; by rewrite Hph).
    rewrite Hok' in Hcount. rewrite Herr' in Hex.
    unfold next, finished. rewrite Hph. unfold each_done.
    destruct (truthy o) eqn:Ho; simpl in Hcount.
    + rewrite Nat.add_0_r in Hcount. unfold answered. simpl.
      split; [done|]. split; [done|].
      destruct (used (l_each st)) eqn:Hu.
      * rewrite app_nil_r. split; [done|]. split; [done|]. split; [done|].
        split; [done|]. intros a Ha Hf. by destruct (Hold a Ha Hf).
      * rewrite (Hnil eq_refl). simpl. split; [done|]. split; [done|].
        split; [done|]. split; [done|].
        intros a Ha Hf. rewrite Forall_lookup in Hf. specialize (Hf j r' Hj).
        simpl in Hf. congruence.
    + destruct (S (completed (l_each st)) =? size (l_each st)) eqn:Hs.
      * apply Nat.eqb_eq in Hs. unfold answered. simpl.
        split; [lia|]. split; [done|].
        destruct (used (l_each st)) eqn:Hu.
        -- rewrite app_nil_r. split; [done|]. split; [done|]. split; [done|].
           split; [done|]. intros a Ha Hf. by destruct (Hold a Ha Hf).
        -- rewrite (Hnil eq_refl). simpl. split; [done|]. split; [done|].
           split; [done|]. split; [done|].
           intros a Ha Hf. by apply list_elem_of_singleton in Ha.
      * apply Nat.eqb_neq in Hs. unfold answered. simpl. rewrite app_nil_r.
        split; [lia|]. split; [done|]. split; [done|]. split; [done|].
        split; [intros Hx; destruct (Hex Hx) as [?|?]; [done|congruence]|].
        split; [lia|]. intros a Ha Hf. by destruct (Hold a Ha Hf).
Qed.

Lemma Exists_insert {A} (P : A -> Prop) (l : list A) j x :
  List.Exists P (<[j := x]> l) -> P x \/ List.Exists P l.
Proof.
  rewrite !Exists_exists. intros (y & Hy & HP).
  apply list_elem_of_lookup in Hy as [i Hi].
  destruct (decide (i = j)) as [->|Hne].
  - destruct (decide (j < length l)) as [Hlt|Hge].
    + rewrite list_lookup_insert_eq in Hi by done. injection Hi as ->. by left.
    + rewrite list_insert_ge in Hi by lia. right. exists y.
      split; [|done]. by eapply list_elem_of_lookup_2.
  - rewrite list_lookup_insert_ne in Hi by done. right. exists y.
    split; [|done]. by eapply list_elem_of_lookup_2.
Qed.

Lemma Forall_insert_inv {A} (P : A -> Prop) (l : list A) j x y :
  l !! j = Some y -> P y -> Forall P (<[j := x]> l) -> Forall P l.
Proof.
  intros Hj Hy. rewrite !Forall_lookup. intros Hf i z Hi.
  destruct (decide (i = j)) as [->|Hne]; [congruence|].
  apply (Hf i). by rewrite list_lookup_insert_ne.
Qed.

Lemma load_step_answered (st : load_state doc) ev :
  answered st -> answered (load_step opts st ev).
Proof.
  intros (Hcount & Hsize & Hlen & Hused & Hex & Hfull & Hans).
  assert (Hkeep : answered st) by done.
  destruct ev as [j result|j]; simpl.
  - unfold chunk_read.
    destruct (l_readers st !! j) as [r|] eqn:Hr; [|done].
    destruct (l_database st !! j) as [c|] eqn:Hc; [|done].
    destruct (r_phase r) eqn:Hph; try done.
    destruct (_read_result opts (Coll j) r (data c) result)
      as [[r' entries] ops].
    assert (Hok : finished_ok r = false) by (unfold finished_ok; by rewrite Hph).
    assert (Herr : finished_err r = false)
      by (unfold finished_err; by rewrite Hph).
    apply (next_answered r' _ j); simpl.
    + apply list_lookup_insert_eq. by eapply lookup_lt_Some.
    + rewrite (tally_insert _ _ _ r) by done. lia.
    + by rewrite length_insert.
    + done.
    + done.
    + intros Hx. apply Exists_insert in Hx as [Hx|Hx]; [by right|left; auto].
    + done.
    + intros answer Ha Hf.
      apply (Forall_insert_inv _ _ _ _ r Hr Herr) in Hf.
      destruct (Hans answer Ha Hf) as [Hc' _].
      assert (Hall : Forall (fun r => finished_ok r = true) (l_readers st))
        by (apply tally_all; lia).
      rewrite Forall_lookup in Hall. specialize (Hall j r Hr). congruence.
  - unfold timer_fired.
    destruct (l_readers st !! j) as [r|] eqn:Hr; [|done].
    destruct (r_phase r) eqn:Hph; try done.
    assert (Herr : finished_err r = false)
      by (unfold finished_err; by rewrite Hph).
    unfold answered. simpl.
    split; [by rewrite (tally_insert_same _ _ _ r);
              [|done|unfold finished_ok; by rewrite Hph]|].
    split; [by rewrite length_insert|]. split; [done|]. split; [done|].
    split; [intros Hx; apply Exists_insert in Hx as [Hx|Hx]; [done|auto]|].
    split; [done|].
    intros answer Ha Hf.
    apply (Forall_insert_inv _ _ _ _ r Hr Herr) in Hf. by apply Hans.
Qed.

Lemma tally_replicate {A} (P : A -> bool) n x :
  P x = false -> tally P (replicate n x) = 0.
Proof.
  intros Hx. induction n as [|n IH]; [done|]. simpl.
  by rewrite tally_cons, Hx, IH.
Qed.

Lemma loadDatabase_answered (d : disk doc) database :
  meta d = Header database -> answered (loadDatabase d).
Proof.
  intros Hm. unfold loadDatabase. rewrite Hm. unfold each_empty. simpl.
  assert (Hno : forall (P : reader -> Prop) n,
            (P (Reader Reading [] 0 0) -> False) ->
            List.Exists P (replicate n (Reader Reading [] 0 0)) -> False).
  { intros P n HP Hx. apply Exists_exists in Hx as (x & Hx & HPx).
    apply elem_of_replicate in Hx as [-> _]. auto. }
  destruct (length database =? 0) eqn:Hz; unfold answered; simpl.
  - apply Nat.eqb_eq in Hz. rewrite Hz. simpl.
    split; [done|]. split; [done|]. split; [lia|]. split; [done|].
    split; [done|]. split; [done|].
    intros answer Ha _. by apply list_elem_of_singleton in Ha.
  - apply Nat.eqb_neq in Hz.
    rewrite tally_replicate by done. rewrite length_replicate.
    split; [done|]. split; [done|]. split; [lia|]. split; [done|].
    split; [intros Hx; by apply Hno in Hx|]. split; [lia|].
    intros answer Ha. by apply elem_of_nil in Ha.
Qed.

Lemma honest_step_on_course (d : disk doc) database st ev :
  (forall document : doc, single_byte (stringify document)) ->
  (1 <= reader_buffer opts)%Z ->
  (forall cidx c, database !! cidx = Some c ->
     files d !! cidx = Some (lines (data c))) ->
  all_on_course database st ->
  honest_event opts d st ev ->
  all_on_course database (load_step opts st ev).
Proof.
  intros Hsingle Hcap Hfiles Hinv Hh cidx c Hc.
  destruct (Hinv cidx c Hc) as (v & Hv & Hon).
  rewrite load_step_reading, Hv. simpl. eexists. split; [done|].
  assert (Hr : l_readers st !! cidx = Some (rd_reader v)).
  { unfold reading_of in Hv. destruct (l_readers st !! cidx); [|done].
    simpl in Hv. destruct (l_database st !! cidx); [|done].
    simpl in Hv. by injection Hv as <-. }
  destruct ev as [j result|j]; simpl in *;
    (destruct (decide (j = cidx)) as [->|Hne]; [|done]).
  - rewrite Hr, (Hfiles cidx c Hc) in Hh. destruct Hh as [Hph Hh].
    rewrite utf8_single in Hh by (by apply single_byte_lines).
    apply read_step_on_course; [done|done|done|].
    apply honest_read_plain; [|done].
    apply Forall_drop. by apply single_byte_lines.
  - rewrite Hr in Hh. unfold timer_step. rewrite Hh. simpl.
    unfold on_course in *. by rewrite Hh in Hon.
Qed.

Lemma honest_run_invariants (d : disk doc) database events : forall st,
  (forall document : doc, single_byte (stringify document)) ->
  (1 <= reader_buffer opts)%Z ->
  (forall cidx c, database !! cidx = Some c ->
     files d !! cidx = Some (lines (data c))) ->
  all_on_course database st -> answered st ->
  honest_run opts d st events ->
  all_on_course database (load_run opts st events) /\
  answered (load_run opts st events).
Proof.
  induction events as [|ev events IH];
    intros st Hsingle Hcap Hfiles Hon Hans Hh; simpl; [done|].
  destruct Hh as [Hev Hh].
  apply IH; try done.
  - by eapply honest_step_on_course.
  - by apply load_step_answered.
Qed.

Lemma load_step_shape (st : load_state doc) ev :
  let st' := load_step opts st ev in
  length (l_readers st') = length (l_readers st) /\
  length (l_database st') = length (l_database st) /\
  l_raised st' = l_raised st /\
  ((forall a, a ∈ l_callback st -> exists c, a = Database c) ->
   forall a, a ∈ l_callback st' -> exists c, a = Database c).
Proof.
  destruct ev as [j result|j]; simpl.
  - unfold chunk_read.
    destruct (l_readers st !! j) as [r|]; [|done].
    destruct (l_database st !! j) as [c|]; [|done].
    destruct (r_phase r); try done.
    destruct (_read_result opts (Coll j) r (data c) result)
      as [[r' entries] ops].
    match goal with |- context [next r' ?s] =>
      destruct (next_fields r' s) as (-> & _ & -> & ->);
      set (mid := s) end.
    simpl. rewrite !length_insert. repeat split; try done.
    intros Hdb a Ha. unfold next in Ha. destruct (finished r'); [|by apply Hdb].
    destruct (each_done _ _) as [each' call]. simpl in Ha.
    apply elem_of_app in Ha as [Ha|Ha]; [by apply Hdb|].
    destruct call; [|by apply elem_of_nil in Ha].
    apply list_elem_of_singleton in Ha. by eexists.
  - unfold timer_fired.
    destruct (l_readers st !! j) as [r|]; [|done].
    destruct (r_phase r); try done. simpl.
    by rewrite length_insert.
Qed.

Lemma load_run_shape events : forall st : load_state doc,
  let st' := load_run opts st events in
  length (l_readers st') = length (l_readers st) /\
  length (l_database st') = length (l_database st) /\
  l_raised st' = l_raised st /\
  ((forall a, a ∈ l_callback st -> exists c, a = Database c) ->
   forall a, a ∈ l_callback st' -> exists c, a = Database c).
Proof.
  induction events as [|ev events IH]; intros st; simpl; [done|].
  destruct (load_step_shape st ev) as (Hr & Hd & Hx & Hc).
  destruct (IH (load_step opts st ev)) as (Hr' & Hd' & Hx' & Hc').
  simpl in *. repeat split; try congruence. auto.
Qed.

Lemma lines_nil (docs : list doc) : lines docs = [] -> docs = [].
Proof.
  destruct docs as [|document docs]; [done|].
  unfold lines, line. simpl. intros Hl.
  apply (f_equal length) in Hl. rewrite !length_app in Hl. simpl in Hl. lia.
Qed.

(** Every complete round trip gives the documents back. *)
Lemma round_trip_documents (database : list (collection doc)) d0 written read :
  (forall document : doc, single_byte (stringify document)) ->
  Forall (fun c => dirty c = true) database ->
  (1 <= reader_buffer opts)%Z ->
  round_trip opts database d0 written read ->
  let e := export_run opts (exportDatabase database d0) written in
  let l := load_run opts (loadDatabase (e_disk e)) read in
  l_raised l = false /\
  map data (l_database l) = map data database /\
  exists contents,
    l_callback l = [Database contents] /\
    (Forall (fun r => finished_err r = false) (l_readers l) \/
     Forall (fun c => data c <> []) database ->
     contents = l_database l).
Proof.
  intros Hsingle Hdirty Hcap (Hok & Hcb & Hh & Hrest) e l.
  fold e in Hcb, Hh, Hrest.
  fold l in Hrest.
  destruct (export_complete database d0 written Hok) as [Hmeta Hfiles].
  { fold e. rewrite Hcb. by apply list_elem_of_singleton. }
  fold e in Hmeta, Hfiles.
  assert (Hfiles' : forall cidx c, database !! cidx = Some c ->
            files (e_disk e) !! cidx = Some (lines (data c))).
  { intros cidx c Hc. apply Hfiles; [done|].
    rewrite Forall_lookup in Hdirty. by apply (Hdirty cidx). }
  assert (Hstart : all_on_course database (loadDatabase (e_disk e))).
  { intros cidx c Hc.
    assert (Hc' : cloned database !! cidx = Some (set_data c [])).
    { unfold cloned. by rewrite list_lookup_fmap, Hc. }
    rewrite (loadDatabase_reading (e_disk e) _ cidx _ Hmeta Hc').
    eexists. split; [done|]. unfold on_course. simpl.
    rewrite drop_0, _chunk_lines. done. }
  destruct (honest_run_invariants (e_disk e) database read
              (loadDatabase (e_disk e)) Hsingle Hcap Hfiles' Hstart
              (loadDatabase_answered _ _ Hmeta) Hh) as [Hon Hans].
  fold l in Hon, Hans.
  destruct (load_run_shape read (loadDatabase (e_disk e)))
    as (Hlr & Hld & Hraised & Hdbs).
  fold l in Hlr, Hld, Hraised, Hdbs.
  assert (Hinit : l_readers (loadDatabase (e_disk e))
                  = replicate (length database) (Reader Reading [] 0 0) /\
                  l_database (loadDatabase (e_disk e)) = cloned database /\
                  l_raised (loadDatabase (e_disk e)) = false /\
                  forall a, a ∈ l_callback (loadDatabase (e_disk e)) ->
                    exists c, a = Database c).
  { unfold loadDatabase. rewrite Hmeta. unfold cloned.
    destruct (each_empty _) as [each' call]. simpl.
    rewrite length_map. repeat split; try done.
    intros a Ha. destruct call; [|by apply elem_of_nil in Ha].
    apply list_elem_of_singleton in Ha. by eexists. }
  destruct Hinit as (Hir & Hid & Hix & Hic).
  rewrite Hir, length_replicate in Hlr.
  rewrite Hid in Hld. unfold cloned in Hld. rewrite length_map in Hld.
  (* every reader has finished and delivered *)
  assert (Hfin : forall cidx c, database !! cidx = Some c ->
            exists r c' o,
              l_readers l !! cidx = Some r /\ l_database l !! cidx = Some c' /\
              r_phase r = Finished o /\ data c' = data c /\
              (truthy o = true -> data c = [])).
  { intros cidx c Hc. destruct (Hon cidx c Hc) as (v & Hv & Hcourse).
    unfold reading_of in Hv.
    destruct (l_readers l !! cidx) as [r|] eqn:Hr; [|done]. simpl in Hv.
    destruct (l_database l !! cidx) as [c'|] eqn:Hc'; [|done]. simpl in Hv.
    injection Hv as <-.
    rewrite Forall_lookup in Hrest. specialize (Hrest cidx r Hr).
    unfold on_course, at_rest in *. simpl in *.
    destruct (r_phase r) as [| |o|] eqn:Hph; try done.
    destruct Hcourse as [Hd He].
    exists r, c', o. split; [done|]. split; [done|]. split; [done|].
    split; [done|]. intros Ho. by apply lines_nil, He. }
  split; [congruence|]. split.
  { apply list_eq. intros i. rewrite !list_lookup_fmap.
    destruct (database !! i) as [c|] eqn:Hc.
    - destruct (Hfin i c Hc) as (r & c' & o & _ & -> & _ & Hd & _). simpl.
      by rewrite Hd.
    - apply lookup_ge_None in Hc.
      rewrite (lookup_ge_None_2 (l_database l)) by lia. done. }
  destruct Hans as (Hcount & Hsize & Hlen & Hused & Hex & Hfull & Hlast).
  assert (Hall : Forall (fun r => finished_ok r = true \/ finished_err r = true)
                   (l_readers l)).
  { apply Forall_lookup. intros i r Hr.
    assert (Hi : i < length database) by (apply lookup_lt_Some in Hr; lia).
    apply lookup_lt_is_Some in Hi as [c Hc].
    destruct (Hfin i c Hc) as (r' & c' & o & Hr' & _ & Hph & _).
    rewrite Hr in Hr'. injection Hr' as <-.
    unfold finished_ok, finished_err. rewrite Hph. by destruct (truthy o); auto. }
  assert (Hne : l_callback l <> []).
  { apply Hused.
    destruct (decide (List.Exists (fun r => finished_err r = true)
                        (l_readers l))) as [Hx|Hx]; [by apply Hex|].
    apply Hfull. rewrite Hcount, Hsize. apply tally_Forall.
    apply Forall_lookup. intros i r Hr.
    rewrite Forall_lookup in Hall. destruct (Hall i r Hr) as [?|He]; [done|].
    destruct Hx. apply Exists_exists. exists r. split; [|done].
    by eapply list_elem_of_lookup_2. }
  destruct (l_callback l) as [|answer [|??]] eqn:Hcall;
    [done| |simpl in Hlen; lia].
  destruct (Hdbs Hic answer) as [contents ->]; [by left|].
  exists contents. split; [done|].
  intros Hcase.
  assert (Hnoerr : Forall (fun r => finished_err r = false) (l_readers l)).
  { destruct Hcase as [?|Hdocs]; [done|].
    apply Forall_lookup. intros i r Hr.
    assert (Hi : i < length database) by (apply lookup_lt_Some in Hr; lia).
    apply lookup_lt_is_Some in Hi as [c Hc].
    destruct (Hfin i c Hc) as (r' & c' & o & Hr' & _ & Hph & _ & He).
    rewrite Hr in Hr'. injection Hr' as <-.
    unfold finished_err. rewrite Hph.
    destruct (truthy o); [|done].
    rewrite Forall_lookup in Hdocs. by destruct (Hdocs i c Hc), He. }
  destruct (Hlast (Database contents)) as [_ Heq]; [by left|done|].
  by injection Heq.
Qed.

(** ** An export in which no write fails comes to its end *)

Lemma cnext_quiet (w : writer doc) (st : export_state doc) j :
  e_writers st !! j = Some w ->
  completed (e_each st) + (if settled_ok w then 1 else 0)
    = count_ok (e_writers st) ->
  length (e_writers st) <= size (e_each st) ->
  (Forall (fun w => settled_err w = false) (e_writers st) ->
   completed (e_each st) < size (e_each st) /\
   used (e_each st) = false /\ e_callback st = []) ->
  quiet (cnext w st).
Proof.
  intros Hj Hcount Hlen Hq Hno.
  pose proof (count_ok_le (e_writers st)) as Hle.
  destruct (cnext_fields w st) as (_ & _ & _ & _ & Hws).
  rewrite Hws in Hno. destruct (Hq Hno) as (Hlt & Hu & Hcb).
  unfold cnext, outcome, settled_ok in *.
  rewrite Forall_lookup in Hno. specialize (Hno j w Hj).
  unfold settled_err in Hno.
  destruct (w_phase w) as [| |o]; simpl.
  - assert ((completed (e_each st) =? size (e_each st)) = false) as ->
      by (apply Nat.eqb_neq; lia). done.
  - assert ((completed (e_each st) =? size (e_each st)) = false) as ->
      by (apply Nat.eqb_neq; lia). done.
  - unfold each_done. rewrite Hno in *.
    destruct (S (completed (e_each st)) =? size (e_each st)) eqn:Hs;
      cbn -[Nat.eqb]; rewrite Hs, ?Hu, Hcb; done.
Qed.

Lemma settled_ok_not_err (w : writer doc) :
  settled_ok w = true -> settled_err w = false.
Proof.
  unfold settled_ok, settled_err. destruct (w_phase w); try done.
  by destruct (truthy outcome0).
Qed.

(** A writer whose writes succeed never ends on an error. *)
Lemma solo_no_error cidx c text results :
  Forall succeeded results ->
  settled_err (v_writer (solo opts cidx c text results)) = false.
Proof.
  intros Hok. unfold solo.
  assert (Hstart :
    let v := solo_start opts cidx c text in
    in_order (v_writer v) /\ settled_err (v_writer v) = false).
  { unfold solo_start, start_writer. destruct (negb (dirty c)); simpl; [done|].
    pose proof (iterate_in_order opts (Coll cidx) (data c) 0 []) as Hord.
    assert (Hit : forall docs didx batch,
              settled_err (iterate opts (Coll cidx) docs didx batch).1 = false).
    { induction docs as [|document docs IH]; intros didx batch; simpl.
      - unfold finish. by destruct (length batch =? 0).
      - destruct (rem_is_zero _ _); [|apply IH].
        by destruct (length _ =? 0); [apply IH|]. }
    specialize (Hit (data c) 0 []).
    by destruct (iterate _ _ _ _ _). }
  revert Hstart. generalize (solo_start opts cidx c text).
  induction Hok as [|r results Hr _ IH]; intros v Hv; simpl; [by apply Hv|].
  apply IH. simpl in *. destruct Hv as [Hord Hno].
  unfold solo_step.
  destruct (inflight (v_writer v)) as [buffer|] eqn:Hfl; [|done].
  pose proof (written_in_order opts (Coll cidx) (v_writer v) r Hord) as Hord'.
  destruct (written opts (Coll cidx) (v_writer v) r) as [w' ops] eqn:Hw.
  simpl in *. split; [done|].
  unfold written, write_error, in_order in *. rewrite Hr in Hw. simpl in Hw.
  destruct (w_phase (v_writer v)) eqn:Hp.
  - assert (Hit : forall docs didx batch,
              settled_err (iterate opts (Coll cidx) docs didx batch).1 = false).
    { induction docs as [|document docs IHd]; intros didx batch; simpl.
      - unfold finish. by destruct (length batch =? 0).
      - destruct (rem_is_zero _ _); [|apply IHd].
        by destruct (length _ =? 0); [apply IHd|]. }
    specialize (Hit (w_docs (v_writer v)) (w_didx (v_writer v))
                  (w_batch (v_writer v))).
    by rewrite Hw in Hit.
  - destruct Hord as [-> _]. by injection Hw as <- _.
  - unfold inflight in Hfl. by rewrite Hp in Hfl.
Qed.

Lemma each_collection_quiet cs : forall k (st : export_state doc),
  tallied st -> quiet st -> length (e_writers st) = k ->
  k + length cs <= size (e_each st) ->
  quiet (each_collection opts k cs st).
Proof.
  induction cs as [|c cs IH]; intros k st Ht Hq Hk Hsize; simpl; [done|].
  destruct (start_writer opts k c) as [w ops].
  destruct Ht as (Hcount & Hlen & Hnull).
  pose proof (count_ok_le (e_writers st)) as Hle.
  match goal with |- context [cnext w ?s] =>
    destruct (cnext_tallied w s) as [Ht' Hsize'];
      [simpl; rewrite count_ok_app, count_ok_one; lia
      |simpl in *; rewrite length_app; simpl in *; lia
      |done|];
    assert (Hq' : quiet (cnext w s));
      [|destruct (cnext_fields w s) as (_ & _ & _ & _ & Hws)]
  end.
  { apply (cnext_quiet _ _ k); simpl.
    - rewrite lookup_app_r by lia. by rewrite Hk, Nat.sub_diag.
    - rewrite count_ok_app, count_ok_one. lia.
    - rewrite length_app. simpl in *. lia.
    - intros Hno. apply Forall_app in Hno as [Hno _].
      destruct (Hq Hno) as [Hu Hcb].
      assert ((completed (e_each st) =? size (e_each st)) = false) as Hne
        by (apply Nat.eqb_neq; simpl in *; lia).
      rewrite Hne in *. split; [simpl in *; lia|done]. }
  simpl in *. apply IH; try done; try lia.
  rewrite Hws, length_app. simpl. lia.
Qed.

Lemma meta_written_quiet (database : list (collection doc)) d0 result :
  w_success result = true ->
  quiet (meta_written opts result (exportDatabase database d0)).
Proof.
  intros Hok. unfold meta_written, exportDatabase. simpl. rewrite Hok. simpl.
  destruct database as [|c database].
  - simpl. by intros _.
  - match goal with |- context [each_collection opts 0 ?cs ?s] =>
      set (s1 := s); set (db := cs) in *
    end.
    assert (Ht1 : tallied s1)
      by (by repeat split; simpl; try lia; intros ?%elem_of_nil).
    assert (Hq1 : quiet s1) by (by intros _).
    assert (Hsz : 0 + length db <= size (e_each s1)) by (simpl; lia).
    pose proof (each_collection_quiet db 0 s1 Ht1 Hq1 eq_refl Hsz) as Hq.
    destruct (each_collection_tallied db 0 s1 Ht1 eq_refl Hsz) as [_ Hsize].
    set (st2 := each_collection opts 0 db s1) in *.
    unfold each_empty. rewrite Hsize. simpl. rewrite app_nil_r.
    intros Hno. by apply Hq.
Qed.

Lemma batch_written_quiet j result (st : export_state doc) :
  tallied st -> quiet st -> quiet (batch_written opts j result st).
Proof.
  intros (Hcount & Hlen & Hnull) Hq. unfold batch_written.
  destruct (e_writers st !! j) as [w|] eqn:Hw; [|done].
  destruct (inflight w) as [buffer|] eqn:Hfl; [|done].
  destruct (written opts (Coll j) w result) as [w' ops].
  assert (Hnot : settled_ok w = false /\ settled_err w = false).
  { unfold settled_ok, settled_err, inflight in *. by destruct (w_phase w). }
  destruct Hnot as [Hnot Hnoerr].
  assert (Hlt : count_ok (e_writers st) < length (e_writers st)).
  { pose proof (count_ok_le (<[j := Writer (Settled Undefined) [] 0 []]>
                               (e_writers st))) as Hle.
    rewrite (count_ok_insert _ _ w) in Hle by done.
    rewrite length_insert in Hle. simpl in Hle. lia. }
  apply (cnext_quiet _ _ j); simpl.
  - apply list_lookup_insert_eq. by eapply lookup_lt_Some.
  - rewrite (count_ok_insert _ _ w) by done. lia.
  - by rewrite length_insert.
  - intros Hno. apply (Forall_insert_inv _ _ _ _ w Hw Hnoerr) in Hno.
    destruct (Hq Hno) as [Hu Hcb].
    assert ((completed (e_each st) =? size (e_each st)) = false) as Hne
      by (apply Nat.eqb_neq; lia).
    rewrite Hne in *. split; [lia|done].
Qed.

Lemma started_quiet events : forall st : export_state doc,
  e_meta st = false -> tallied st -> quiet st ->
  quiet (export_run opts st events).
Proof.
  induction events as [|[result|j result] events IH]; intros st Hm Ht Hq; simpl;
    [done| |].
  - unfold meta_written. rewrite Hm. simpl. by apply IH.
  - destruct (batch_written_tallied j result st Ht) as (Ht' & _).
    apply IH; [by rewrite batch_written_meta|done|by apply batch_written_quiet].
Qed.

Lemma flushes_length (docs : list doc) : forall didx batch,
  length (flushes opts docs didx batch) <= S (length docs).
Proof.
  induction docs as [|document docs IH]; intros didx batch; simpl.
  - destruct (length batch =? 0); simpl; lia.
  - destruct (rem_is_zero _ _).
    + destruct (length _ =? 0); simpl.
      * specialize (IH (S didx) (batch ++ stringify document ++ [NL])). lia.
      * specialize (IH (S didx) []). lia.
    + specialize (IH (S didx) (batch ++ stringify document ++ [NL])). lia.
Qed.

Lemma iterate_writes_left f (docs : list doc) didx batch :
  writes_left opts (iterate opts f docs didx batch).1
  = length (flushes opts docs didx batch).
Proof.
  rewrite <- (iterate_flushes opts f docs didx batch), length_app.
  rewrite iterate_inflight. unfold writes_left.
  destruct (inflight _); simpl; lia.
Qed.

Lemma solo_step_writes_left cidx v result buffer :
  in_order (v_writer v) ->
  inflight (v_writer v) = Some buffer ->
  succeeded result ->
  S (writes_left opts (v_writer (solo_step opts cidx v result)))
  = writes_left opts (v_writer v).
Proof.
  intros Hord Hfl Hr. unfold solo_step. rewrite Hfl.
  pose proof (iterate_writes_left (Coll cidx) (w_docs (v_writer v))
                (w_didx (v_writer v)) (w_batch (v_writer v))) as Hit.
  unfold written, write_error. rewrite Hr. simpl.
  unfold writes_left at 2. unfold flushes_left, inflight in *.
  destruct (w_phase (v_writer v)) eqn:Hp; simpl; [| |done].
  - destruct (iterate _ _ _ _ _). simpl in *. lia.
  - unfold writes_left, flushes_left. simpl. done.
Qed.

Lemma solo_settles cidx c text n :
  S (length (data c)) <= n ->
  settled_ok (v_writer (solo opts cidx c text (replicate n (success)))) = true.
Proof.
  intros Hn.
  assert (Hok : Forall succeeded (replicate n success))
    by (by apply Forall_replicate).
  pose proof (solo_no_error cidx c text _ Hok) as Hno.
  pose proof (solo_in_order opts cidx c text (replicate n success)) as Hord.
  assert (Hleft : inflight (v_writer (solo opts cidx c text
                                        (replicate n success))) = None).
  { clear Hno Hord Hok. unfold solo.
    assert (Hstart :
      let v := solo_start opts cidx c text in
      in_order (v_writer v) /\ writes_left opts (v_writer v) <= n).
    { unfold solo_start, start_writer. destruct (negb (dirty c)); simpl.
      - split; [done|]. unfold writes_left. simpl. lia.
      - pose proof (iterate_in_order opts (Coll cidx) (data c) 0 []) as Hord.
        pose proof (iterate_writes_left (Coll cidx) (data c) 0 []) as Hit.
        pose proof (flushes_length (data c) 0 []) as Hlen.
        destruct (iterate _ _ _ _ _). simpl in *. split; [done|lia]. }
    revert Hstart. generalize (solo_start opts cidx c text). clear Hn.
    induction n as [|n IH]; intros v [Hord Hleft]; simpl.
    - unfold writes_left in Hleft.
      destruct (inflight (v_writer v)); [lia|done].
    - destruct (inflight (v_writer v)) as [buffer|] eqn:Hfl.
      + apply IH. split.
        * unfold solo_step. rewrite Hfl.
          pose proof (written_in_order opts (Coll cidx) (v_writer v)
                        success Hord).
          by destruct (written _ _ _ _).
        * pose proof (solo_step_writes_left cidx v success buffer Hord Hfl
                        eq_refl). lia.
      + rewrite (settled_steps opts) by (unfold solo_step; by rewrite Hfl).
        unfold solo_step. by rewrite Hfl. }
  unfold settled_ok, settled_err, inflight in *.
  destruct (w_phase _); try done. by rewrite Hno.
Qed.

Lemma results_for_smooth cidx n bound : forall k,
  results_for cidx
    (flat_map (fun i => replicate bound (BatchWritten i success)) (seq k n))
  = if decide (k <= cidx < k + n) then replicate bound success else [].
Proof.
  assert (Hone : forall i,
    results_for cidx (replicate bound (BatchWritten i success))
    = if decide (i = cidx) then replicate bound success else []).
  { intros i. unfold results_for.
    induction bound as [|b IH]; [by destruct (decide _)|].
    cbn [replicate].
    change (BatchWritten i success :: replicate b (BatchWritten i success))
      with ([BatchWritten i success] ++ replicate b (BatchWritten i success)).
    rewrite omap_app, IH. simpl. by destruct (decide (i = cidx)). }
  induction n as [|n IH]; intros k.
  - simpl. by rewrite decide_False by lia.
  - cbn [seq flat_map]. unfold results_for in *. rewrite omap_app, Hone, (IH (S k)).
    destruct (decide (k = cidx)) as [->|Hne].
    + rewrite decide_False, decide_True by lia. by rewrite app_nil_r.
    + destruct (decide (S k <= cidx < S k + n)).
      * by rewrite decide_True by lia.
      * by rewrite decide_False by lia.
Qed.

(** An export in which every write succeeds calls back with [null]. *)
Lemma export_settles (database : list (collection doc)) d0 :
  Forall (fun ev => succeeded (result_of ev)) (smooth_export database) /\
  e_callback (export_run opts (exportDatabase database d0)
                (smooth_export database)) = [Null].
Proof.
  remember (S (max_list (map (fun c => length (data c)) database)))
    as bound eqn:Hbound.
  set (post := flat_map (fun cidx => replicate bound (BatchWritten cidx success))
                 (seq 0 (length database))).
  assert (Hsm : smooth_export database = MetaWritten success :: post)
    by (unfold smooth_export, post; by rewrite Hbound).
  assert (Hok : Forall (fun ev => succeeded (result_of ev)) (smooth_export database)).
  { rewrite Hsm. constructor; [done|]. unfold post.
    apply Forall_flat_map, Forall_forall. intros i _.
    by apply Forall_replicate. }
  split; [done|]. rewrite Hsm. simpl.
  set (st1 := meta_written opts success (exportDatabase database d0)).
  destruct (meta_written_tallied database d0 success eq_refl)
    as (Ht & Hsz & Hl & _). fold st1 in Ht, Hsz, Hl.
  pose proof (meta_written_started opts database d0 success eq_refl) as Hm.
  fold st1 in Hm.
  destruct (started_tallied post st1 Hm Ht) as (Ht' & Hsz' & Hl' & _).
  pose proof (started_quiet post st1 Hm Ht
                (meta_written_quiet database d0 success eq_refl)) as Hq.
  fold (export_run opts st1 post) in *.
  set (st := export_run opts st1 post) in *.
  assert (Hall : Forall (fun w => settled_ok w = true) (e_writers st)).
  { apply Forall_lookup. intros cidx w Hw.
    assert (Hi : cidx < length database) by (apply lookup_lt_Some in Hw; lia).
    apply lookup_lt_is_Some in Hi as [c Hc].
    destruct (started_run opts post st1 cidx Hm) as [_ Hv]. fold st in Hv.
    assert (Hv' : view_of cidx st
                  = Some (solo opts cidx c (files d0 !! cidx)
                            (replicate bound success))).
    { rewrite Hv. unfold st1.
      rewrite (meta_written_view opts database d0 success cidx c eq_refl Hc).
      unfold post. rewrite results_for_smooth.
      rewrite decide_True by (apply lookup_lt_Some in Hc; lia). done. }
    unfold view_of in Hv'. rewrite Hw in Hv'. simpl in Hv'.
    injection Hv' as Hv'.
    pose proof (solo_settles cidx c (files d0 !! cidx) bound) as Hs.
    rewrite <- Hv' in Hs. simpl in Hs. apply Hs.
    rewrite Hbound. apply le_n_S. apply max_list_elem_of_le.
    apply list_elem_of_fmap. exists c. split; [done|].
    by eapply list_elem_of_lookup_2. }
  destruct Hq as [_ Hcb].
  { eapply Forall_impl; [exact Hall|]. intros w. apply settled_ok_not_err. }
  destruct Ht' as (Hcount & _).
  unfold count_ok in Hcount. rewrite (tally_Forall _ _ Hall) in Hcount.
  assert ((completed (e_each st) =? size (e_each st)) = true) as Heq
    by (apply Nat.eqb_eq; lia).
  by rewrite Heq in Hcb.
Qed.

(** ** A load served by a platform that works comes to its end *)

Lemma honest_run_app (d : disk doc) events1 : forall st events2,
  honest_run opts d st (events1 ++ events2) <->
  honest_run opts d st events1 /\
  honest_run opts d (load_run opts st events1) events2.
Proof.
  induction events1 as [|ev events1 IH]; intros st events2; simpl; [tauto|].
  rewrite IH. tauto.
Qed.

Lemma serve_honest (d : disk doc) st cidx content v :
  single_byte content ->
  (1 <= reader_buffer opts)%Z ->
  reading_of cidx st = Some v ->
  files d !! cidx = Some content ->
  at_rest (rd_reader v) = false ->
  honest_event opts d st (serve opts cidx content (rd_reader v)).
Proof.
  intros Hsingle Hcap Hv Hfile Hrest.
  assert (Hr : l_readers st !! cidx = Some (rd_reader v)).
  { unfold reading_of in Hv. destruct (l_readers st !! cidx); [|done].
    simpl in Hv. destruct (l_database st !! cidx); [|done].
    simpl in Hv. by injection Hv as <-. }
  unfold serve, at_rest in *.
  destruct (r_phase (rd_reader v)) eqn:Hph; try done.
  - destruct (drop (r_position (rd_reader v)) content) as [|byte rest] eqn:Hd;
      simpl; rewrite Hr, Hfile, (utf8_single content Hsingle), Hd.
    + split; [done|]. right. simpl. split; [lia|apply not_elem_of_nil].
    + split; [done|]. simpl.
      set (n := min _ _).
      split; [done|]. split; [done|].
      assert (Hpart : single_byte (take n (byte :: rest))).
      { apply Forall_take. rewrite <- Hd. by apply Forall_drop. }
      exists (take n (byte :: rest)).
      split; [by rewrite take_take, Nat.min_id|].
      rewrite drop_ge by (rewrite length_take; lia).
      split; [apply not_elem_of_nil|]. split; [constructor|].
      split; [rewrite length_take; lia|].
      symmetry. by apply toString_single.
  - simpl. by rewrite Hr.
Qed.

Lemma serve_weight cidx content (v : @reading doc) :
  (1 <= reader_buffer opts)%Z ->
  at_rest (rd_reader v) = false ->
  weight (length content)
    (rd_reader (reading_step opts cidx v (serve opts cidx content (rd_reader v))))
  < weight (length content) (rd_reader v).
Proof.
  intros Hcap Hrest. unfold serve, at_rest in *.
  destruct v as [[ph offset parsed position] entries ops]. simpl in *.
  destruct ph; try done.
  - destruct (drop position content) as [|byte rest] eqn:Hd;
      cbn -[Z.eqb Z.of_nat Z.to_nat min take];
      rewrite decide_True by done; unfold read_step, _read_result;
      cbn -[Z.eqb Z.of_nat Z.to_nat min take].
    + assert ((-1 =? reader_buffer opts)%Z = false) as ->
        by (apply Z.eqb_neq; lia).
      unfold _complete. destruct (_chunk _ _ _ _); unfold weight; simpl; lia.
    + set (n := min _ _).
      assert (Hlen : length (byte :: rest) = length content - position).
      { rewrite <- Hd. apply length_drop. }
      assert (Hn : 1 <= n <= length content - position).
      { unfold n. rewrite <- Hlen. simpl. lia. }
      destruct (_chunk offset _ push entries); [|unfold weight; simpl; lia].
      destruct (_ =? _)%Z.
      * unfold weight. cbn -[Z.of_nat Z.to_nat]. rewrite Nat2Z.id. lia.
      * unfold _complete. destruct (_chunk _ _ _ _); unfold weight; simpl; lia.
  - simpl. rewrite decide_True by done. unfold timer_step, weight. simpl. lia.
Qed.

Lemma serve_concerns cidx content r :
  concerns cidx (serve opts cidx content r) = true.
Proof.
  unfold serve. destruct (r_phase r); simpl;
    try (destruct (drop _ _); simpl); by apply bool_decide_eq_true.
Qed.

(** One reader is served to its end, the others left as they are. *)
Lemma reader_completion (d : disk doc) database cidx c m : forall st v,
  (forall document : doc, single_byte (stringify document)) ->
  (1 <= reader_buffer opts)%Z ->
  (forall i c, database !! i = Some c ->
     files d !! i = Some (lines (data c))) ->
  database !! cidx = Some c ->
  all_on_course database st ->
  reading_of cidx st = Some v ->
  weight (length (lines (data c))) (rd_reader v) <= m ->
  exists events,
    Forall (fun ev => concerns cidx ev = true) events /\
    honest_run opts d st events /\
    all_on_course database (load_run opts st events) /\
    exists v', reading_of cidx (load_run opts st events) = Some v' /\
               at_rest (rd_reader v') = true.
Proof.
  induction m as [|m IH]; intros st v Hsingle Hcap Hfiles Hc Hon Hv Hw.
  - exists []. repeat split; try done. exists v. split; [done|].
    unfold weight, at_rest in *. destruct (r_phase (rd_reader v)); try done; lia.
  - destruct (at_rest (rd_reader v)) eqn:Hrest.
    { exists []. repeat split; try done. by exists v. }
    set (ev := serve opts cidx (lines (data c)) (rd_reader v)).
    pose proof (serve_honest d st cidx _ v (single_byte_lines (data c) Hsingle)
                  Hcap Hv (Hfiles cidx c Hc) Hrest)
      as Hev. fold ev in Hev.
    pose proof (serve_weight cidx (lines (data c)) v Hcap Hrest) as Hlt.
    fold ev in Hlt.
    pose proof (honest_step_on_course d database st ev Hsingle Hcap Hfiles Hon
                  Hev)
      as Hon'.
    destruct (IH (load_step opts st ev) (reading_step opts cidx v ev))
      as (events & Hcon & Hh & Hon'' & v' & Hv' & Hrest'); try done.
    { by rewrite load_step_reading, Hv. }
    { lia. }
    exists (ev :: events). split; [|split; [|split]].
    + constructor; [apply serve_concerns|done].
    + by split.
    + done.
    + by exists v'.
Qed.

Lemma load_settles (d : disk doc) database :
  (forall document : doc, single_byte (stringify document)) ->
  (1 <= reader_buffer opts)%Z ->
  meta d = Header (cloned database) ->
  (forall i c, database !! i = Some c ->
     files d !! i = Some (lines (data c))) ->
  exists read,
    honest_run opts d (loadDatabase d) read /\
    Forall (fun r => at_rest r = true)
      (l_readers (load_run opts (loadDatabase d) read)).
Proof.
  intros Hsingle Hcap Hmeta Hfiles.
  assert (Hstart : all_on_course database (loadDatabase d)).
  { intros cidx c Hc.
    assert (Hc' : cloned database !! cidx = Some (set_data c [])).
    { unfold cloned. by rewrite list_lookup_fmap, Hc. }
    rewrite (loadDatabase_reading d _ cidx _ Hmeta Hc').
    eexists. split; [done|]. unfold on_course. simpl.
    rewrite drop_0, _chunk_lines. done. }
  assert (Hlen : length (l_readers (loadDatabase d)) = length database).
  { unfold loadDatabase. rewrite Hmeta. destruct (each_empty _). simpl.
    unfold cloned. by rewrite length_replicate, length_map. }
  assert (Hk : forall k, k <= length database ->
    exists read,
      honest_run opts d (loadDatabase d) read /\
      all_on_course database (load_run opts (loadDatabase d) read) /\
      forall i, i < k ->
        exists v, reading_of i (load_run opts (loadDatabase d) read) = Some v /\
                  at_rest (rd_reader v) = true).
  { induction k as [|k IH]; intros Hle.
    - exists []. repeat split; try done. intros i Hi. lia.
    - destruct IH as (read & Hh & Hon & Hdone); [lia|].
      assert (Hi : k < length database) by lia.
      apply lookup_lt_is_Some in Hi as [c Hc].
      destruct (Hon k c Hc) as (v & Hv & _).
      destruct (reader_completion d database k c _ _ v Hsingle Hcap Hfiles Hc
                  Hon Hv (le_n _))
        as (events & Hcon & Hh' & Hon' & v' & Hv' & Hrest').
      exists (read ++ events). split; [by apply honest_run_app|].
      unfold load_run in *. rewrite fold_left_app.
      split; [done|].
      intros i Hi. destruct (decide (i = k)) as [->|Hne]; [by exists v'|].
      destruct (Hdone i) as (vi & Hvi & Hri); [lia|].
      exists vi. split; [|done].
      pose proof (load_run_reading opts i events
                    (fold_left (load_step opts) read (loadDatabase d))) as Hst.
      unfold load_run in Hst. rewrite Hst, Hvi. simpl. f_equal.
      apply other_steps. eapply Forall_impl; [exact Hcon|].
      intros ev Hev. destruct ev as [j ?|j]; simpl in *;
        apply bool_decide_eq_true in Hev; subst;
        by apply bool_decide_eq_false. }
  destruct (Hk (length database) (le_n _)) as (read & Hh & _ & Hdone).
  exists read. split; [done|].
  destruct (load_run_shape read (loadDatabase d)) as (Hlr & _).
  apply Forall_lookup. intros i r Hr.
  destruct (Hdone i) as (v & Hv & Hrest).
  { apply lookup_lt_Some in Hr. lia. }
  unfold reading_of in Hv. rewrite Hr in Hv. simpl in Hv.
  destruct (l_database _ !! i); [|done]. simpl in Hv.
  by injection Hv as <-.
Qed.
End RoundTrip.

(* ===================================================================== *)
(** * The adapter at work on sample databases                              *)
(* ===================================================================== *)

(** C9 at work: pending [tr], then [ue], two line breaks and [fa]. *)
Lemma pending_never_holds_a_line_witness :
  (NL ∉ Sample.tr) /\
  _chunk Sample.tr (Sample.ue ++ [NL; NL] ++ Sample.fa) push []
  = Returned [true] Sample.fa /\
  (NL ∉ Sample.fa).
Proof.
  assert (Hno : NL ∉ Sample.tr).
  { intros Hin. vm_compute in Hin.
    repeat (apply elem_of_cons in Hin as [Hin|Hin]; [discriminate|]).
    by apply elem_of_nil in Hin. }
  split; [exact Hno|].
  split; [reflexivity|].
  pose proof (pending_never_holds_a_line (doc := bool) Sample.tr
                (Sample.ue ++ [NL; NL] ++ Sample.fa) Hno)
    as (_ & _ & _ & Hall).
  destruct (Hall (list bool) push []) as (_ & _ & Hret).
  by destruct (Hret [true] Sample.fa eq_refl).
Defined.

(** C7 at work: the second collection of the database is not dirty. *)
Lemma clean_collection_is_skipped_witness :
  let database := [Sample.flags; Sample.idle] in
  let events := [MetaWritten Sample.ok; BatchWritten 0 Sample.ok;
                 BatchWritten 1 Sample.ok; BatchWritten 0 Sample.failed] in
  let st := export_run Sample.small (exportDatabase database Sample.nothing)
              events in
  dirty Sample.idle = false /\
  writes_on (Coll 1) (e_ops st) = [] /\
  files (e_disk st) !! 1 = None.
Proof.
  split; [reflexivity|].
  destruct (clean_collection_is_skipped Sample.small
              [Sample.flags; Sample.idle] Sample.nothing
              [MetaWritten Sample.ok; BatchWritten 0 Sample.ok;
               BatchWritten 1 Sample.ok; BatchWritten 0 Sample.failed]
              1 Sample.idle eq_refl eq_refl)
    as (_ & Hwrites & Hfile & _).
  split; [exact Hwrites|]. exact Hfile.
Defined.

(** C10 at work: three documents in batches of 2. *)
Lemma first_flush_holds_the_first_document_witness :
  (2 <= writer_batch Sample.small)%Z /\
  writes_on (Coll 0)
    (e_ops (export_run Sample.small
              (exportDatabase [Sample.flags] Sample.nothing)
              [MetaWritten Sample.ok]))
  = [Sample.true_text ++ [NL]].
Proof.
  assert (Hbatch : (2 <= writer_batch Sample.small)%Z) by (vm_compute; discriminate).
  split; [exact Hbatch|].
  destruct (first_flush_holds_the_first_document Sample.small
              [Sample.flags] Sample.nothing 0 Sample.flags true [false; true]
              eq_refl eq_refl eq_refl Hbatch)
    as (Hfirst & _).
  by destruct (Hfirst Sample.ok eq_refl).
Defined.

(** C8 at work: a load from a directory that holds nothing. *)
Lemma missing_metadata_is_not_found_witness :
  meta Sample.nothing = Absent /\
  l_callback (load_run Sample.small (loadDatabase Sample.nothing)
                [ChunkRead 0 Sample.end_of_stream; Timeout 0])
  = [NotFound].
Proof.
  split; [reflexivity|].
  by destruct (missing_metadata_is_not_found Sample.small Sample.nothing
                 [ChunkRead 0 Sample.end_of_stream; Timeout 0] eq_refl).
Defined.

(** C5 at work: 101 documents, the default batch size, and the five
    completions the platform reports. *)
Lemma flushes_of_101_documents_by_25_witness :
  let st := export_run Sample.defaults
              (exportDatabase [Sample.many] Sample.nothing)
              (MetaWritten Sample.ok :: replicate 5 (BatchWritten 0 Sample.ok)) in
  writer_batch Sample.defaults = 25%Z /\
  length (data Sample.many) = 101 /\
  e_writers st !! 0 = Some (Writer (Settled Undefined) [] 101 []) /\
  map (fun buffer => length (split_lines [] buffer).1)
    (writes_on (Coll 0) (e_ops st))
  = [1; 25; 25; 25; 25].
Proof.
  assert (Hsettled :
    e_writers (export_run Sample.defaults
                 (exportDatabase [Sample.many] Sample.nothing)
                 (MetaWritten Sample.ok :: replicate 5 (BatchWritten 0 Sample.ok)))
      !! 0 = Some (Writer (Settled Undefined) [] 101 []))
    by (vm_compute; reflexivity).
  split; [reflexivity|]. split; [reflexivity|]. split; [exact Hsettled|].
  destruct (flushes_of_101_documents_by_25 Sample.defaults
              [Sample.many] Sample.nothing
              (MetaWritten Sample.ok :: replicate 5 (BatchWritten 0 Sample.ok))
              0 Sample.many eq_refl eq_refl eq_refl eq_refl)
    as (Hwrites & _).
  - repeat constructor.
  - eexists _, _. split; [exact Hsettled|reflexivity].
  - rewrite Hwrites. vm_compute. reflexivity.
Defined.

(** X21 at work: the first batch write of the first of two
    collections fails with an error; the second collection is written
    all the same. *)
Lemma failed_batch_write_ends_its_collection_only_witness :
  let database := [Sample.flags; Sample.flags] in
  let st := export_run Sample.small (exportDatabase database Sample.nothing)
              [MetaWritten Sample.ok] in
  let st' := export_run Sample.small
               (export_step Sample.small st (BatchWritten 0 Sample.failed))
               [BatchWritten 1 Sample.ok; BatchWritten 1 Sample.ok] in
  truthy (w_error Sample.failed) = true /\
  (exists w', e_writers st' !! 0 = Some w' /\
              w_phase w' = Settled (w_error Sample.failed)) /\
  writes_on (Coll 0) (e_ops st') = [Sample.true_text ++ [NL]].
Proof.
  split; [reflexivity|].
  destruct (failed_batch_write_ends_its_collection_only Sample.small
              [Sample.flags; Sample.flags] Sample.nothing
              [MetaWritten Sample.ok] 0 Sample.flags Sample.failed
              [BatchWritten 1 Sample.ok; BatchWritten 1 Sample.ok] eq_refl)
    as (Hsettled & _ & Hwrites & _).
  - eexists _, _. split; vm_compute; reflexivity.
  - reflexivity.
  - reflexivity.
  - split; [exact Hsettled|]. rewrite Hwrites. vm_compute. reflexivity.
Defined.

(** The caller of [loadDatabase] is not told of a failed read.  On a
    file of one line: when the very first read is reported as failed,
    and when the read after a full buffer is, the callback is called
    with the database all the same, holding what was parsed so far; the
    error of the read reaches the iterator of the collection at most. *)
Lemma failed_read_reaches_no_caller :
  r_success Sample.read_failed = false /\
  truthy (r_error Sample.read_failed) = true /\
  l_callback (load_run Sample.small (loadDatabase Sample.one_line)
                [ChunkRead 0 Sample.read_failed])
  = [Database [Collection Sample.flags_name true []]] /\
  l_callback (load_run Sample.small (loadDatabase Sample.one_line)
                [ChunkRead 0 (Sample.chunk 5 (Sample.true_text ++ [NL]));
                 Timeout 0; ChunkRead 0 Sample.read_failed])
  = [Database [Collection Sample.flags_name true [true]]].
Proof. repeat split; vm_compute; reflexivity. Qed.

(** C3 at work: a metadata write that fails, and a first read that
    fails; neither descriptor is closed. *)
Lemma descriptor_left_open_on_early_failure_witness :
  e_ops (export_run Sample.small (exportDatabase [Sample.flags] Sample.nothing)
           [MetaWritten Sample.failed; BatchWritten 0 Sample.ok])
  = [CreateDirectory; Open Meta MODE_WRITE;
     WriteHeader [Collection Sample.flags_name true []]] /\
  ops_on (Coll 0)
    (l_ops (load_run Sample.small (loadDatabase Sample.one_line)
              [ChunkRead 0 Sample.read_failed; Timeout 0]))
  = [Open (Coll 0) MODE_READ; Read (Coll 0)].
Proof.
  destruct (descriptor_left_open_on_early_failure (doc := bool) Sample.small)
    as [Hexport Hload].
  split.
  - by destruct (Hexport [Sample.flags] Sample.nothing Sample.failed
                   [BatchWritten 0 Sample.ok] eq_refl) as (Hops & _).
  - destruct (Hload Sample.one_line [Collection Sample.flags_name true []]
                0 (Collection Sample.flags_name true []) Sample.read_failed
                [] [Timeout 0] eq_refl eq_refl)
      as (r & _ & _ & Hops & _); [constructor|reflexivity|exact Hops].
Defined.

(** The flush of one document is not the residual one.  With 101
    documents and batches of 25, the five writes hold 1, 25, 25, 25 and
    25 lines, in this order; the fifth is issued at the document of
    index 100, the last one, and leaves the batch empty, so that the
    write of the remaining items has nothing to write. *)
Lemma single_document_flush_comes_first :
  let run := export_run Sample.defaults
               (exportDatabase [Sample.many] Sample.nothing) in
  let before := run (MetaWritten Sample.ok :: replicate 4 (BatchWritten 0 Sample.ok)) in
  let after := run (MetaWritten Sample.ok :: replicate 5 (BatchWritten 0 Sample.ok)) in
  map (fun buffer => length (split_lines [] buffer).1)
    (writes_on (Coll 0) (e_ops before))
  = [1; 25; 25; 25; 25] /\
  option_map (fun w => (w_docs w, w_didx w, w_batch w)) (e_writers before !! 0)
  = Some ([], 101, []) /\
  writes_on (Coll 0) (e_ops after) = writes_on (Coll 0) (e_ops before) /\
  option_map w_phase (e_writers after !! 0) = Some (Settled Undefined).
Proof. repeat split; vm_compute; reflexivity. Qed.

(* ===================================================================== *)
(** * More about exportDatabase                                            *)
(* ===================================================================== *)

Section ExportMore.
Context {doc : Type} `{JSON doc}.
Variable opts : options.

(** ** Every step of a writer is one call on its file *)

Lemma finish_one f err1 (docs : list doc) didx batch :
  (finish f err1 docs didx batch).2
  = match inflight (finish f err1 docs didx batch).1 with
    | Some buffer => [Write f buffer]
    | None => [Close f]
    end.
Proof. unfold finish. by destruct (length batch =? 0). Qed.

Lemma iterate_one f (docs : list doc) : forall didx batch,
  (iterate opts f docs didx batch).2
  = match inflight (iterate opts f docs didx batch).1 with
    | Some buffer => [Write f buffer]
    | None => [Close f]
    end.
Proof.
  induction docs as [|document docs IH]; intros didx batch; simpl.
  - apply finish_one.
  - destruct (rem_is_zero _ _); [|apply IH].
    destruct (length _ =? 0); [apply IH|done].
Qed.

Lemma written_one f (w : writer doc) result buffer :
  inflight w = Some buffer ->
  (written opts f w result).2
  = match inflight (written opts f w result).1 with
    | Some buffer' => [Write f buffer']
    | None => [Close f]
    end.
Proof.
  unfold written, inflight. destruct (w_phase w); intros Hw; try done.
  destruct (truthy _); [apply finish_one|apply iterate_one].
Qed.

Lemma solo_bracketed cidx (c : collection doc) text results :
  dirty c = true ->
  let v := solo opts cidx c text results in
  bracketed (Coll cidx) (v_writer v) (v_ops v).
Proof.
  intros Hd. unfold solo.
  assert (Hstart : bracketed (Coll cidx) (v_writer (solo_start opts cidx c text))
                     (v_ops (solo_start opts cidx c text))).
  { unfold solo_start, start_writer. rewrite Hd. simpl.
    pose proof (iterate_one (Coll cidx) (data c) 0 []) as Hone.
    destruct (iterate opts (Coll cidx) (data c) 0 []) as [w ops]. simpl in *.
    subst ops. destruct (inflight w) as [buffer|] eqn:Hw.
    - exists [buffer]. rewrite Hw. split; [done|]. by intros ? [= <-].
    - exists []. by rewrite Hw. }
  revert Hstart. generalize (solo_start opts cidx c text).
  induction results as [|r results IH]; intros v Hv; simpl; [done|].
  apply IH. unfold solo_step.
  destruct (inflight (v_writer v)) as [buffer|] eqn:Hw; [|done].
  pose proof (written_one (Coll cidx) (v_writer v) r buffer Hw) as Hone.
  destruct (written opts (Coll cidx) (v_writer v) r) as [w' ops]. simpl in *.
  subst ops. destruct Hv as (buffers & Hops & _). rewrite Hw in Hops.
  destruct (inflight w') as [buffer'|] eqn:Hw'.
  - exists (buffers ++ [buffer']). rewrite Hw', Hops, map_app, !app_nil_r.
    split; [done|]. intros ? [= <-]. by rewrite last_snoc.
  - exists buffers. rewrite Hw', Hops, app_nil_r. done.
Qed.

Lemma started_ops events : forall st : export_state doc,
  e_meta st = false ->
  exists more, e_ops (export_run opts st events) = e_ops st ++ more.
Proof.
  induction events as [|[result|j result] events IH]; intros st Hm; simpl.
  - exists []. by rewrite app_nil_r.
  - unfold meta_written. rewrite Hm. simpl. by apply IH.
  - destruct (IH (batch_written opts j result st)) as [more Hmore];
      [by rewrite batch_written_meta|].
    rewrite Hmore. unfold batch_written.
    destruct (e_writers st !! j) as [w|]; [|by eexists].
    destruct (inflight w); [|by eexists].
    destruct (written opts (Coll j) w result) as [w' ops].
    match goal with |- context [cnext w' ?s] =>
      destruct (cnext_fields w' s) as (_ & _ & -> & _) end.
    simpl. rewrite <- app_assoc. by eexists.
Qed.

Lemma meta_written_ops (database : list (collection doc)) d0 result :
  w_success result = true ->
  exists more,
    e_ops (meta_written opts result (exportDatabase database d0))
    = [CreateDirectory; Open Meta MODE_WRITE; WriteHeader (cloned database);
       Close Meta] ++ more.
Proof.
  intros Hok. unfold meta_written, exportDatabase. simpl. rewrite Hok. simpl.
  match goal with |- context [each_collection opts 0 database ?s] =>
    pose proof (each_collection_fields opts database 0 s)
      as (_ & _ & _ & _ & Hops);
    set (st2 := each_collection opts 0 database s) in * end.
  destruct (each_empty (e_each st2)) as [each' call]. simpl.
  rewrite Hops. simpl. by eexists.
Qed.

(** X1 — the calls on the file of a collection.  Whatever the
    platform reports and in whatever order, an export makes no call on
    the file of a dirty collection as long as no completion of the
    metadata write with success was reported; and when it has made a
    call on the file, or has any writer, the metadata is written and
    closed: the metadata file holds the database, the first calls of
    the export are those on the metadata file, the close included, and
    all others come after them.  The calls on the file of the
    collection are then: the opening of the descriptor for writing,
    then writes, of which the one in flight is the last that was
    issued, and last the close, made once and exactly when no write is
    in flight any more; nothing follows the close. *)
Theorem collection_file_is_opened_written_closed
    (database : list (collection doc)) d0 events cidx c :
  database !! cidx = Some c ->
  dirty c = true ->
  let st := export_run opts (exportDatabase database d0) events in
  (Forall (fun ev => match ev with
                     | MetaWritten r0 => w_success r0 = false
                     | BatchWritten _ _ => True
                     end) events ->
   ops_on (Coll cidx) (e_ops st) = []) /\
  ((e_writers st = [] /\ ops_on (Coll cidx) (e_ops st) = []) \/
   (meta (e_disk st) = Header (cloned database) /\
    (exists later,
        e_ops st = [CreateDirectory; Open Meta MODE_WRITE;
                    WriteHeader (cloned database); Close Meta] ++ later) /\
    exists w buffers,
      e_writers st !! cidx = Some w /\
      ops_on (Coll cidx) (e_ops st)
      = Open (Coll cidx) MODE_WRITE :: map (Write (Coll cidx)) buffers
        ++ match inflight w with Some _ => [] | None => [Close (Coll cidx)] end /\
      (forall buffer, inflight w = Some buffer -> last buffers = Some buffer))).
Proof.
  intros Hc Hd st.
  destruct (export_run_cases opts database d0 events)
    as [Hst|[(r0 & Hr0 & _ & Hst)|(r0 & pre & post & Hr0 & Hev & _ & Hrun & Hv)]];
    try fold st in Hst; try fold st in Hv; try fold st in Hrun.
  - split; [intros _|left]; by rewrite Hst.
  - split; [intros _|left]; rewrite Hst; unfold meta_written; simpl;
      by rewrite Hr0.
  - split.
    { intros Hnone. rewrite Hev in Hnone.
      apply Forall_app in Hnone as [_ Hnone].
      apply Forall_cons in Hnone as [Hnone _]. congruence. }
    right.
    destruct (meta_written_tallied opts database d0 r0 Hr0) as (Ht & _ & _ & Hm).
    destruct (started_tallied opts post
                (meta_written opts r0 (exportDatabase database d0)))
      as (_ & _ & _ & Hm'); [by apply meta_written_started|done|].
    rewrite <- Hrun in Hm'. split; [congruence|]. split.
    { destruct (started_ops post
                  (meta_written opts r0 (exportDatabase database d0)))
        as [more Hmore]; [by apply meta_written_started|].
      destruct (meta_written_ops database d0 r0 Hr0) as [more0 Hmore0].
      rewrite <- Hrun, Hmore0, <- app_assoc in Hmore. by eexists. }
    specialize (Hv cidx c Hc).
    pose proof (solo_bracketed cidx c (files d0 !! cidx)
                  (results_for cidx post) Hd) as Hb.
    simpl in Hb. unfold view_of in Hv.
    destruct (e_writers st !! cidx) as [w|]; [|done]. simpl in Hv.
    injection Hv as Hv. rewrite <- Hv in Hb. simpl in Hb.
    destruct Hb as (buffers & Hops & Hlast). by exists w, buffers.
Qed.
(** ** The caller's callback *)

Lemma each_done_once err (s : each_state) (callback : list jsval) :
  length callback <= 1 ->
  (used s = true <-> callback <> []) ->
  Forall (fun v => v = Null \/ truthy v = true) callback ->
  let callback' :=
    callback ++ match (each_done err s).2 with Some v => [v] | None => [] end in
  length callback' <= 1 /\
  (used (each_done err s).1 = true <-> callback' <> []) /\
  Forall (fun v => v = Null \/ truthy v = true) callback'.
Proof.
  intros Hlen Hused Hplain.
  assert (Hnil : used s = false -> callback = []).
  { intros Hu. destruct callback; [done|].
    assert (used s = true) by (by apply Hused). congruence. }
  cbv zeta. unfold each_done. destruct (used s) eqn:Hu.
  - assert (Hcb : callback <> []) by (by apply Hused).
    destruct (truthy err); [|destruct (_ =? _)]; simpl; rewrite app_nil_r;
      (split; [done|]); (split; [|done]); by split.
  - rewrite (Hnil eq_refl).
    destruct (truthy err) eqn:Herr; [|destruct (_ =? _)]; simpl.
    + split; [lia|]. split; [done|]. constructor; [by right|constructor].
    + split; [lia|]. split; [done|]. constructor; [by left|constructor].
    + split; [lia|]. split; [|constructor].
      split; [done|intros Hne; by destruct Hne].
Qed.

Lemma cnext_once (w : writer doc) st :
  called_once st -> called_once (cnext w st).
Proof.
  intros (Hlen & Hused & Hplain). unfold cnext.
  destruct (outcome w) as [err|]; [|done].
  pose proof (each_done_once err (e_each st) (e_callback st) Hlen Hused Hplain)
    as Ho.
  by destruct (each_done err (e_each st)) as [each' call].
Qed.

Lemma each_collection_once cs : forall k (st : export_state doc),
  called_once st -> called_once (each_collection opts k cs st).
Proof.
  induction cs as [|c cs IH]; intros k st Hst; simpl; [done|].
  destruct (start_writer opts k c) as [w ops]. apply IH. by apply cnext_once.
Qed.

Lemma cnext_size (w : writer doc) st :
  size (e_each (cnext w st)) = size (e_each st).
Proof.
  unfold cnext. destruct (outcome w) as [err|]; [|done].
  unfold each_done.
  destruct (truthy err); [done|]. by destruct (_ =? _).
Qed.

Lemma each_collection_size cs : forall k (st : export_state doc),
  size (e_each (each_collection opts k cs st)) = size (e_each st).
Proof.
  induction cs as [|c cs IH]; intros k st; simpl; [done|].
  destruct (start_writer opts k c) as [w ops]. by rewrite IH, cnext_size.
Qed.

Lemma meta_written_once (database : list (collection doc)) d0 result :
  w_success result = true ->
  called_once (meta_written opts result (exportDatabase database d0)).
Proof.
  intros Hok. unfold meta_written. simpl. rewrite Hok. simpl.
  match goal with |- context [each_collection opts 0 database ?s] =>
    pose proof (each_collection_once database 0 s) as Honce;
    pose proof (each_collection_size database 0 s) as Hsize;
    set (st2 := each_collection opts 0 database s) in * end.
  simpl in Hsize. unfold each_empty. rewrite Hsize.
  destruct database as [|c database]; simpl.
  - subst st2. simpl. unfold called_once. simpl.
    split; [lia|]. split; [done|]. repeat constructor.
  - rewrite app_nil_r. destruct Honce as (Hlen & Hused & Hplain).
    { unfold called_once. simpl. split; [lia|]. split; [done|]. constructor. }
    by destruct st2.
Qed.

Lemma batch_written_once j result (st : export_state doc) :
  called_once st -> called_once (batch_written opts j result st).
Proof.
  intros Hst. unfold batch_written.
  destruct (e_writers st !! j) as [w|]; [|done].
  destruct (inflight w); [|done].
  destruct (written opts (Coll j) w result) as [w' ops].
  by apply cnext_once.
Qed.

Lemma started_once events : forall st : export_state doc,
  e_meta st = false -> called_once st ->
  called_once (export_run opts st events).
Proof.
  induction events as [|[result|j result] events IH]; intros st Hm Hst; simpl;
    [done| |].
  - unfold meta_written. rewrite Hm. simpl. by apply IH.
  - apply IH; [by rewrite batch_written_meta|by apply batch_written_once].
Qed.

(** X2 — the callback of an export is called once at most.  Whatever
    the platform reports for the writes it was asked for, successes or
    failures, and in whatever order, [exportDatabase] never calls its
    callback a second time.  (A completion is an answer to a write in
    flight: the platform reports one for each write, and an event that
    finds no write in flight stands for none.) *)
Theorem export_calls_back_at_most_once
    (database : list (collection doc)) d0 events :
  length (e_callback (export_run opts (exportDatabase database d0) events)) <= 1.
Proof.
  destruct (export_run_cases opts database d0 events)
    as [Hst|[(r0 & Hr0 & _ & Hst)|(r0 & pre & post & Hr0 & _ & _ & Hst & _)]];
    simpl in Hst; rewrite Hst.
  - simpl. lia.
  - unfold meta_written. simpl. rewrite Hr0. simpl. lia.
  - apply started_once.
    + by apply meta_written_started.
    + by apply meta_written_once.
Qed.

(** ** The first error *)

Lemma written_failed f (w : writer doc) result buffer :
  in_order w ->
  inflight w = Some buffer ->
  w_success result = false ->
  truthy (w_error result) = true ->
  written opts f w result
  = (Writer (Settled (w_error result)) (w_docs w) (w_didx w) (w_batch w),
     [Close f]).
Proof.
  unfold written, write_error, in_order, inflight.
  destruct w as [[b|err1 b|o] docs didx batch]; simpl;
    intros Hin Hfly Hfail Herr; try done; rewrite Hfail; simpl.
  - rewrite Herr, Hin. unfold finish, js_or. simpl. by rewrite Herr, Herr.
  - destruct Hin as [-> ->]. unfold js_or. simpl. by rewrite Herr.
Qed.

Lemma cnext_callback (w : writer doc) st :
  exists more, e_callback (cnext w st) = e_callback st ++ more.
Proof.
  unfold cnext. destruct (outcome w) as [err|].
  - destruct (each_done err (e_each st)) as [each' call]. by eexists.
  - exists []. by rewrite app_nil_r.
Qed.

Lemma each_collection_callback cs : forall k (st : export_state doc),
  exists more,
    e_callback (each_collection opts k cs st) = e_callback st ++ more.
Proof.
  induction cs as [|c cs IH]; intros k st; simpl.
  - exists []. by rewrite app_nil_r.
  - destruct (start_writer opts k c) as [w ops].
    match goal with |- context [cnext w ?s] =>
      destruct (IH (S k) (cnext w s)) as [more2 ->];
      destruct (cnext_callback w s) as [more1 ->] end.
    simpl. exists (more1 ++ more2). by rewrite app_assoc.
Qed.

Lemma export_step_callback (st : export_state doc) ev :
  exists more, e_callback (export_step opts st ev) = e_callback st ++ more.
Proof.
  destruct ev as [result|j result]; simpl.
  - unfold meta_written. destruct (e_meta st); simpl;
      [|exists []; by rewrite app_nil_r].
    destruct (w_success result); simpl; [|by eexists].
    match goal with |- context [each_collection opts 0 ?cs ?s] =>
      destruct (each_collection_callback cs 0 s) as [more Hmore];
      set (st2 := each_collection opts 0 cs s) in * end.
    destruct (each_empty (e_each st2)) as [each' call]. simpl.
    rewrite Hmore. simpl. eexists. by rewrite <- app_assoc.
  - unfold batch_written. destruct (e_writers st !! j) as [w|];
      [|exists []; by rewrite app_nil_r].
    destruct (inflight w); [|exists []; by rewrite app_nil_r].
    destruct (written opts (Coll j) w result) as [w' ops].
    match goal with |- context [cnext w' ?s] =>
      destruct (cnext_callback w' s) as [more ->] end.
    by eexists.
Qed.

Lemma export_run_callback events : forall st : export_state doc,
  exists more, e_callback (export_run opts st events) = e_callback st ++ more.
Proof.
  induction events as [|ev events IH]; intros st; simpl.
  - exists []. by rewrite app_nil_r.
  - destruct (IH (export_step opts st ev)) as [more2 ->].
    destruct (export_step_callback st ev) as [more1 ->].
    exists (more1 ++ more2). by rewrite app_assoc.
Qed.

(** The state of an export in which a writer exists. *)
Lemma writer_means_started (database : list (collection doc)) d0 events cidx w :
  let st := export_run opts (exportDatabase database d0) events in
  e_writers st !! cidx = Some w ->
  e_meta st = false /\ called_once st /\
  forall c, database !! cidx = Some c ->
    exists post text,
      view_of cidx st = Some (solo opts cidx c text (results_for cidx post)).
Proof.
  intros st Hw.
  destruct (export_run_cases opts database d0 events)
    as [Hst|[(r0 & Hr0 & _ & Hst)|(r0 & pre & post & Hr0 & _ & Hm & Hst & Hv)]];
    fold st in Hst || fold st in Hv.
  - by rewrite Hst in Hw.
  - rewrite Hst in Hw. unfold meta_written in Hw. simpl in Hw.
    by rewrite Hr0 in Hw.
  - fold st in Hm. split; [done|]. split.
    + rewrite Hst. apply started_once;
        [by apply meta_written_started|by apply meta_written_once].
    + intros c Hc. exists post, (files d0 !! cidx). by apply Hv.
Qed.

(** X3 — the first error of a batch write is the answer of the
    export.  While the callback has not been called, let a batch write
    of a collection be in flight and the platform report it as failed,
    with an error.  Then the callback is called with this error at
    once, without waiting for the other collections, and whatever the
    platform reports afterwards it is not called again: the error of
    the first write that fails is all the caller gets. *)
Theorem first_failed_write_is_the_answer
    (database : list (collection doc)) d0 events cidx c result events' :
  database !! cidx = Some c ->
  let st := export_run opts (exportDatabase database d0) events in
  e_callback st = [] ->
  (exists w buffer, e_writers st !! cidx = Some w /\ inflight w = Some buffer) ->
  w_success result = false ->
  truthy (w_error result) = true ->
  e_callback (export_step opts st (BatchWritten cidx result)) = [w_error result] /\
  e_callback (export_run opts (export_step opts st (BatchWritten cidx result))
                events')
  = [w_error result].
Proof.
  intros Hc st Hcb (w & buffer & Hw & Hfly) Hfail Herr.
  destruct (writer_means_started database d0 events cidx w Hw)
    as (Hm & Honce & Hv).
  fold st in Hm, Honce, Hv.
  destruct (Hv c Hc) as (post & text & Hview).
  assert (Hin : in_order w).
  { pose proof (solo_in_order opts cidx c text (results_for cidx post)) as Hin.
    unfold view_of in Hview. rewrite Hw in Hview. simpl in Hview.
    injection Hview as Hview. by rewrite <- Hview in Hin. }
  assert (Hstep : e_callback (export_step opts st (BatchWritten cidx result))
                  = [w_error result]).
  { simpl. unfold batch_written. rewrite Hw, Hfly.
    rewrite (written_failed (Coll cidx) w result buffer Hin Hfly Hfail Herr).
    unfold cnext, outcome. simpl. unfold each_done. rewrite Herr.
    destruct Honce as (_ & Hused & _).
    destruct (used (e_each st)) eqn:Hu.
    - assert (e_callback st <> []) by (by apply Hused). congruence.
    - simpl. by rewrite Hcb. }
  split; [done|].
  set (st1 := export_step opts st (BatchWritten cidx result)) in *.
  assert (Honce1 : called_once (export_run opts st1 events')).
  { apply started_once.
    - unfold st1. simpl. by rewrite batch_written_meta.
    - unfold st1. simpl. by apply batch_written_once. }
  destruct (export_run_callback events' st1) as [more Hmore].
  destruct Honce1 as (Hlen & _). rewrite Hmore, Hstep in *.
  destruct more; [done|]. simpl in Hlen. lia.
Qed.
(** ** What an answer without error means *)

Lemma falsy_answer (database : list (collection doc)) d0 events v :
  let st := export_run opts (exportDatabase database d0) events in
  v ∈ e_callback st ->
  truthy v = false ->
  (exists r0, MetaWritten r0 ∈ events /\ w_success r0 = false /\
              w_error r0 = v) \/
  (v = Null /\
   length (e_writers st) = length database /\
   Forall (fun w => settled_ok w = true) (e_writers st)).
Proof.
  intros st Hv Hfalsy.
  destruct (export_run_cases opts database d0 events)
    as [Hst|[(r0 & Hr0 & Hin & Hst)|(r0 & pre & post & Hr0 & _ & _ & Hst & _)]];
    fold st in Hst.
  - rewrite Hst in Hv. by apply elem_of_nil in Hv.
  - left. exists r0. rewrite Hst in Hv. unfold meta_written in Hv.
    simpl in Hv. rewrite Hr0 in Hv. simpl in Hv.
    apply list_elem_of_singleton in Hv. by subst v.
  - right.
    destruct (meta_written_tallied opts database d0 r0 Hr0)
      as (Ht & Hsz & Hl & _).
    destruct (started_tallied opts post
                (meta_written opts r0 (exportDatabase database d0)))
      as (Ht' & Hsz' & Hl' & _); [by apply meta_written_started|done|].
    pose proof (started_once post
                  (meta_written opts r0 (exportDatabase database d0))
                  (meta_written_started opts database d0 r0 Hr0)
                  (meta_written_once database d0 r0 Hr0)) as (_ & _ & Hplain).
    rewrite <- Hst in *.
    assert (v = Null) as ->.
    { rewrite Forall_forall in Hplain. destruct (Hplain v Hv) as [|Ht1]; [done|].
      congruence. }
    split; [done|]. split; [congruence|].
    destruct Ht' as (Hcount & _ & Hnull).
    apply count_ok_all. rewrite <- Hcount, (Hnull Hv). congruence.
Qed.

(** X4 — an answer without error is given after every collection.
    Whatever the platform reports and in whatever order: when the
    callback of an export is called with a value that is no error
    ([null], or anything falsy), then either the metadata write was
    reported as failed with that value for an error, or the value is
    [null] and every collection of the database has a writer that
    ended, and ended without error.  No export answers [null] while a
    collection is still being written or after one of them failed with
    an error. *)
Theorem answer_without_error_comes_last
    (database : list (collection doc)) d0 events v :
  let st := export_run opts (exportDatabase database d0) events in
  v ∈ e_callback st ->
  truthy v = false ->
  (exists r0, MetaWritten r0 ∈ events /\ w_success r0 = false /\
              w_error r0 = v) \/
  (v = Null /\
   length (e_writers st) = length database /\
   Forall (fun w => settled_ok w = true) (e_writers st)).
Proof. apply falsy_answer. Qed.

(** ** What the file of a collection holds *)

Lemma lines_snoc (docs : list doc) document :
  lines docs ++ stringify document ++ [NL] = lines (docs ++ [document]).
Proof.
  rewrite (lines_app docs [document]). unfold lines at 3, line. simpl.
  by rewrite app_nil_r.
Qed.

Lemma lines_empty (docs : list doc) : lines docs = [] -> docs = [].
Proof.
  destruct docs as [|document docs]; [done|]. unfold lines, line. simpl.
  intros Hno. apply (f_equal length) in Hno. rewrite !length_app in Hno.
  simpl in Hno. lia.
Qed.

Lemma iterate_whole f (docs : list doc) : forall didx pending,
  let w := (iterate opts f docs didx (lines pending)).1 in
  exists flying,
    default [] (inflight w) = lines flying /\
    w_batch w = [] /\
    match w_phase w with
    | Iterating _ => flying ++ w_docs w = pending ++ docs
    | Finishing err1 _ => err1 = Null /\ flying = pending ++ docs
    | Settled o => flying = [] /\ pending ++ docs = [] /\ o = Undefined
    end.
Proof.
  induction docs as [|document docs IH]; intros didx pending; simpl.
  - unfold finish. destruct (length (lines pending) =? 0) eqn:Hlen; simpl.
    + apply Nat.eqb_eq, nil_length_inv in Hlen.
      exists []. rewrite Hlen, (lines_empty _ Hlen). done.
    + exists pending. by rewrite app_nil_r.
  - rewrite lines_snoc.
    destruct (rem_is_zero _ _).
    + destruct (length _ =? 0).
      * destruct (IH (S didx) (pending ++ [document])) as (flying & Hf).
        exists flying. by rewrite <- app_assoc in Hf.
      * exists (pending ++ [document]). simpl. by rewrite <- app_assoc.
    + destruct (IH (S didx) (pending ++ [document])) as (flying & Hf).
      exists flying. by rewrite <- app_assoc in Hf.
Qed.

Lemma solo_step_whole cidx docs (v : @view doc) result :
  outspoken result ->
  whole_lines docs v -> whole_lines docs (solo_step opts cidx v result).
Proof.
  intros Hres Hv. unfold solo_step.
  destruct (inflight (v_writer v)) as [buffer|] eqn:Hin; [|exact Hv].
  destruct Hv as (written_ & flying & Htext & Hfly & Hbatch & Hphase).
  rewrite Hin in Hfly. simpl in Hfly. subst buffer.
  destruct v as [[phase wdocs didx batch] ops text]. simpl in *.
  subst batch text. unfold written, write_error. simpl.
  destruct phase as [b|err1 b|o]; simpl in *; [| |done].
  - injection Hin as ->.
    destruct (w_success result) eqn:Hok; simpl.
    + pose proof (iterate_whole (Coll cidx) wdocs didx []) as Hw.
      simpl in Hw. change (lines []) with (@nil ascii) in Hw.
      destruct (iterate opts (Coll cidx) wdocs didx []) as [w' ops'].
      simpl in *. destruct Hw as (flying' & Hfly' & Hbatch' & Hphase').
      exists (written_ ++ flying), flying'. rewrite lines_app.
      split; [done|]. split; [done|]. split; [done|]. simpl.
      destruct (w_phase w').
      * by rewrite <- app_assoc, Hphase', <- Hphase.
      * destruct Hphase' as [-> ->]. by rewrite <- app_assoc.
      * destruct Hphase' as (-> & -> & ->). split; [done|].
        split; [exists []|intros _]; by rewrite <- Hphase, !app_nil_r.
    + destruct Hres as [Hres|Herr]; [simpl in Hres; congruence|].
      simpl in Herr. rewrite Herr. unfold finish, js_or. simpl.
      rewrite Herr, Herr. simpl.
      exists written_, []. split; [done|]. split; [done|]. split; [done|].
      split; [done|]. split; [by eexists|]. simpl. intros; congruence.
  - injection Hin as ->. destruct Hphase as [-> Hdocs].
    destruct (w_success result) eqn:Hok; simpl.
    + exists (written_ ++ flying), []. rewrite lines_app.
      split; [done|]. split; [done|]. split; [done|].
      split; [done|]. split; [|done]. exists []. by rewrite app_nil_r.
    + destruct Hres as [Hres|Herr]; [simpl in Hres; congruence|].
      simpl in Herr. unfold js_or. simpl. rewrite Herr.
      exists written_, []. split; [done|]. split; [done|]. split; [done|].
      split; [done|]. split; [by exists flying|]. intros; congruence.
Qed.

Lemma solo_whole cidx (c : collection doc) text results :
  dirty c = true ->
  Forall outspoken results ->
  whole_lines (data c) (solo opts cidx c text results).
Proof.
  intros Hd Hres. unfold solo.
  assert (Hstart : whole_lines (data c) (solo_start opts cidx c text)).
  { unfold solo_start, start_writer. rewrite Hd. simpl.
    pose proof (iterate_whole (Coll cidx) (data c) 0 []) as Hw.
    simpl in Hw. change (lines []) with (@nil ascii) in Hw.
    destruct (iterate opts (Coll cidx) (data c) 0 []) as [w ops].
    simpl in *. destruct Hw as (flying & Hfly & Hbatch & Hphase).
    exists [], flying. split; [done|]. split; [done|]. split; [done|]. simpl.
    destruct (w_phase w); [done|done|].
    destruct Hphase as (-> & Hempty & ->). simpl in Hempty. rewrite Hempty.
    split; [done|]. split; [by exists []|done]. }
  revert Hstart. generalize (solo_start opts cidx c text).
  induction Hres as [|r results Hr _ IH]; intros v Hv; simpl; [done|].
  apply IH. by apply solo_step_whole.
Qed.

Lemma results_for_outspoken cidx events :
  Forall (fun ev => outspoken (result_of ev)) events ->
  Forall outspoken (results_for cidx events).
Proof.
  induction 1 as [|[r|j r] events Hev _ IH]; unfold results_for; simpl;
    [constructor|done|].
  destruct (decide (j = cidx)); [by constructor|done].
Qed.

Lemma file_of_a_dirty_collection
    (database : list (collection doc)) d0 events cidx c w :
  database !! cidx = Some c ->
  dirty c = true ->
  Forall (fun ev => outspoken (result_of ev)) events ->
  let st := export_run opts (exportDatabase database d0) events in
  e_writers st !! cidx = Some w ->
  exists k,
    files (e_disk st) !! cidx = Some (lines (take k (data c))) /\
    (settled_ok w = true -> files (e_disk st) !! cidx = Some (lines (data c))).
Proof.
  intros Hc Hd Hres st Hw.
  destruct (export_run_cases opts database d0 events)
    as [Hst|[(r0 & Hr0 & _ & Hst)|(r0 & pre & post & Hr0 & -> & _ & _ & Hv)]];
    fold st in Hst || fold st in Hv.
  - by rewrite Hst in Hw.
  - rewrite Hst in Hw. unfold meta_written in Hw. simpl in Hw.
    by rewrite Hr0 in Hw.
  - specialize (Hv cidx c Hc).
    apply Forall_app in Hres as [_ Hres]. apply Forall_cons in Hres as [_ Hres].
    pose proof (solo_whole cidx c (files d0 !! cidx) (results_for cidx post) Hd
                  (results_for_outspoken cidx post Hres))
      as (written_ & flying & Htext & _ & _ & Hphase).
    unfold view_of in Hv. rewrite Hw in Hv. simpl in Hv.
    injection Hv as Hv. rewrite <- Hv in Htext, Hphase. simpl in Htext, Hphase.
    assert (Hpre : exists rest, written_ ++ rest = data c).
    { destruct (w_phase w) as [b|err1 b|o].
      - by eexists.
      - destruct Hphase as [_ Hphase]. by eexists.
      - by destruct Hphase as (_ & Hrest & _). }
    destruct Hpre as [rest Hrest].
    exists (length written_). rewrite Htext. split.
    + by rewrite <- Hrest, take_app_length.
    + unfold settled_ok. destruct (w_phase w) as [b|err1 b|o]; try done.
      intros Ho. destruct Hphase as (_ & _ & Hall).
      rewrite Hall; [done|]. by destruct (truthy o).
Qed.

(** ** What is handed to [descriptor.write] *)

Lemma solo_step_in_batches cidx docs (v : @view doc) result :
  in_batches cidx docs v -> in_batches cidx docs (solo_step opts cidx v result).
Proof.
  intros Hv. unfold solo_step.
  destruct (inflight (v_writer v)) as [buffer|] eqn:Hin; [|exact Hv].
  destruct Hv as (batches & Hwrites & Hbatch & Hphase).
  destruct v as [[phase wdocs didx batch] ops text]. simpl in *.
  subst batch. unfold written. simpl.
  destruct phase as [b|err1 b|o]; simpl in *; [| |done].
  - destruct (truthy (write_error result)) eqn:Herr.
    + unfold finish, js_or. simpl. rewrite Herr, Herr. simpl.
      exists batches. cbn [v_ops v_writer w_phase w_batch w_docs].
      rewrite writes_on_app. simpl. rewrite app_nil_r.
      split; [done|]. split; [done|]. split; [by eexists|]. congruence.
    + pose proof (iterate_whole (Coll cidx) wdocs didx []) as Hw.
      pose proof (iterate_inflight opts (Coll cidx) wdocs didx []) as Hfly.
      simpl in Hw. change (lines []) with (@nil ascii) in Hw.
      destruct (iterate opts (Coll cidx) wdocs didx []) as [w' ops'].
      simpl in *. destruct Hw as (flying & Hflying & Hbatch' & Hphase').
      assert (Hall : writes_on (Coll cidx) (ops ++ ops')
                     = map lines batches
                       ++ match inflight w' with
                          | Some buffer' => [buffer']
                          | None => []
                          end)
        by (by rewrite writes_on_app, Hfly, Hwrites).
      unfold in_batches. cbn [v_ops v_writer]. rewrite Hall.
      destruct w' as [[b'|err1 b'|o'] wdocs' didx' batch']; simpl in *.
      * exists (batches ++ [flying]).
        rewrite map_app, concat_app. simpl. rewrite app_nil_r, Hflying.
        split; [done|]. split; [done|].
        by rewrite <- app_assoc, Hphase'.
      * destruct Hphase' as [-> ->]. exists (batches ++ [wdocs]).
        rewrite map_app, concat_app. simpl. rewrite app_nil_r, Hflying.
        done.
      * destruct Hphase' as (-> & -> & ->). exists batches.
        rewrite !app_nil_r in *. split; [done|]. split; [done|].
        split; [exists []; by rewrite app_nil_r|done].
  - destruct Hphase as [-> Hdocs]. exists batches.
    cbn [v_ops v_writer w_phase w_batch w_docs].
    rewrite writes_on_app. simpl. rewrite app_nil_r.
    split; [done|]. split; [done|].
    split; [exists []; by rewrite app_nil_r|done].
Qed.

Lemma solo_in_batches cidx (c : collection doc) text results :
  dirty c = true ->
  in_batches cidx (data c) (solo opts cidx c text results).
Proof.
  intros Hd. unfold solo.
  assert (Hstart : in_batches cidx (data c) (solo_start opts cidx c text)).
  { unfold solo_start, start_writer. rewrite Hd. simpl.
    pose proof (iterate_whole (Coll cidx) (data c) 0 []) as Hw.
    pose proof (iterate_inflight opts (Coll cidx) (data c) 0 []) as Hfly.
    simpl in Hw. change (lines []) with (@nil ascii) in Hw.
    destruct (iterate opts (Coll cidx) (data c) 0 []) as [w ops].
    simpl in *. destruct Hw as (flying & Hflying & Hbatch & Hphase).
    unfold in_batches. simpl. rewrite Hfly.
    destruct w as [[b|err1 b|o] wdocs didx batch]; simpl in *.
    - exists [flying]. simpl. rewrite app_nil_r, Hflying. done.
    - destruct Hphase as [-> ->]. exists [data c]. simpl.
      rewrite app_nil_r, Hflying. done.
    - destruct Hphase as (-> & Hempty & ->). exists []. rewrite Hempty.
      split; [done|]. split; [done|]. split; [by exists []|done]. }
  revert Hstart. generalize (solo_start opts cidx c text).
  induction results as [|r results IH]; intros v Hv; simpl; [done|].
  apply IH. by apply solo_step_in_batches.
Qed.

(** X5 — what is handed to [descriptor.write] is whole leading
    lines.  Whatever the platform reports, failures with or without an
    error included, and in whatever order: the buffers that an export
    has handed to [descriptor.write] for a dirty collection are, in the
    order of the calls, the lines of consecutive runs of documents of
    the collection, from the first document on.  No buffer holds a
    part of a line, no document is left out in between, written twice
    or out of its order; what is missing are documents at the end, and
    none when the writer has ended without error. *)
Theorem collection_writes_are_leading_lines
    (database : list (collection doc)) d0 events cidx c w :
  database !! cidx = Some c ->
  dirty c = true ->
  let st := export_run opts (exportDatabase database d0) events in
  e_writers st !! cidx = Some w ->
  exists batches : list (list doc),
    writes_on (Coll cidx) (e_ops st) = map lines batches /\
    (exists rest, concat batches ++ rest = data c) /\
    (settled_ok w = true -> concat batches = data c).
Proof.
  intros Hc Hd st Hw.
  destruct (export_run_cases opts database d0 events)
    as [Hst|[(r0 & Hr0 & _ & Hst)|(r0 & pre & post & Hr0 & _ & _ & _ & Hv)]];
    fold st in Hst || fold st in Hv.
  - by rewrite Hst in Hw.
  - rewrite Hst in Hw. unfold meta_written in Hw. simpl in Hw.
    by rewrite Hr0 in Hw.
  - specialize (Hv cidx c Hc).
    pose proof (solo_in_batches cidx c (files d0 !! cidx) (results_for cidx post)
                  Hd)
      as (batches & Hwrites & _ & Hphase).
    unfold view_of in Hv. rewrite Hw in Hv. simpl in Hv.
    injection Hv as Hv. rewrite <- Hv in Hwrites, Hphase.
    simpl in Hwrites, Hphase. rewrite writes_on_ops_on in Hwrites.
    exists batches. split; [done|]. unfold settled_ok.
    destruct (w_phase w) as [b|err1 b|o].
    + split; [by eexists|done].
    + destruct Hphase as [_ Hphase].
      split; [exists []; by rewrite app_nil_r|done].
    + destruct Hphase as [Hrest Hall]. split; [done|].
      intros Ho. apply Hall. by destruct (truthy o).
Qed.
(** X6 — what an answer without error guarantees.  Let every write
    that fails say so with an error.  When the callback of an export
    is called with [null] (or any value that is no error), then,
    whatever the order of the completions was: the metadata file holds
    the database with the documents of every collection taken out; the
    file of every dirty collection holds one line per document, in the
    order of the collection, and nothing else; and the file of every
    other collection is as it was before the export. *)
Theorem answer_without_error_means_all_is_on_disk
    (database : list (collection doc)) d0 events v :
  Forall (fun ev => outspoken (result_of ev)) events ->
  let st := export_run opts (exportDatabase database d0) events in
  v ∈ e_callback st ->
  truthy v = false ->
  meta (e_disk st) = Header (cloned database) /\
  forall cidx c, database !! cidx = Some c ->
    files (e_disk st) !! cidx
    = if dirty c then Some (lines (data c)) else files d0 !! cidx.
Proof.
  intros Hres st Hv Hfalsy.
  destruct (falsy_answer database d0 events v Hv Hfalsy)
    as [(r0 & Hin & Hr0 & Herr)|(-> & Hlen & Hok)]; fold st in Hlen, Hok || idtac.
  { rewrite Forall_forall in Hres. destruct (Hres _ Hin) as [Hs|Ht]; simpl in *;
      congruence. }
  destruct (export_run_cases opts database d0 events)
    as [Hst|[(r0 & Hr0 & Hin & Hst)|(r0 & pre & post & Hr0 & _ & _ & Hst & Hview)]];
    try fold st in Hst; try fold st in Hview.
  - rewrite Hst in Hv. by apply elem_of_nil in Hv.
  - rewrite Forall_forall in Hres. rewrite Hst in Hv. unfold meta_written in Hv.
    simpl in Hv. rewrite Hr0 in Hv. simpl in Hv.
    apply list_elem_of_singleton in Hv.
    destruct (Hres _ Hin) as [Hs|Ht]; simpl in *; [congruence|].
    by rewrite <- Hv in Ht.
  - destruct (meta_written_tallied opts database d0 r0 Hr0) as (Ht & _ & _ & Hd).
    destruct (started_tallied opts post
                (meta_written opts r0 (exportDatabase database d0)))
      as (_ & _ & _ & Hd'); [by apply meta_written_started|done|].
    rewrite <- Hst in Hd'. split; [congruence|].
    intros cidx c Hc.
    assert (Hw : is_Some (e_writers st !! cidx)).
    { apply lookup_lt_is_Some. rewrite Hlen. by apply lookup_lt_Some in Hc. }
    destruct Hw as [w Hw].
    destruct (dirty c) eqn:Hdirty.
    + destruct (file_of_a_dirty_collection database d0 events cidx c w Hc Hdirty
                  Hres Hw) as (k & _ & Hall).
      apply Hall. rewrite Forall_lookup in Hok. by apply (Hok cidx).
    + specialize (Hview cidx c Hc). rewrite solo_skipped in Hview by done.
      unfold view_of in Hview. rewrite Hw in Hview. simpl in Hview.
      by injection Hview as _ _ ->.
Qed.

(** ** A writer sees its own completions *)

Lemma results_for_about cidx events :
  results_for cidx (filter (fun ev => about cidx ev = true) events)
  = results_for cidx events.
Proof.
  unfold results_for.
  induction events as [|[r|j r] events IH]; [done| |].
  - rewrite filter_cons_True by done. exact IH.
  - destruct (decide (j = cidx)) as [Heq|Hne].
    + rewrite filter_cons_True by (simpl; by apply bool_decide_eq_true).
      simpl. destruct (decide (j = cidx)); [|done]. f_equal. exact IH.
    + rewrite filter_cons_False
        by (simpl; rewrite bool_decide_eq_false_2 by done; done).
      simpl. destruct (decide (j = cidx)); [done|]. exact IH.
Qed.

(** X7 — a writer sees its own completions only.  What an export
    does for one collection (the state of its writer, the calls on its
    file and what its file holds) depends on the completion of the
    metadata write and on the completions of the writes of this
    collection, in their order, and on nothing else: the completions
    of the writes of all other collections can be dropped from a
    schedule, or arrive in any other order between them, without any
    difference for this one. *)
Theorem writer_sees_its_own_completions_only
    (database : list (collection doc)) d0 events cidx :
  view_of cidx (export_run opts (exportDatabase database d0) events)
  = view_of cidx
      (export_run opts (exportDatabase database d0)
         (filter (fun ev => about cidx ev = true) events)).
Proof.
  set (init := exportDatabase database d0).
  induction events as [|[r|j r] events IH].
  - done.
  - rewrite filter_cons_True by done. simpl.
    destruct (w_success r) eqn:Hr.
    + pose proof (meta_written_started opts database d0 r Hr) as Hm.
      fold init in Hm.
      destruct (started_run opts events (meta_written opts r init) cidx Hm)
        as [_ ->].
      destruct (started_run opts (filter (fun ev => about cidx ev = true) events)
                  (meta_written opts r init) cidx Hm) as [_ ->].
      by rewrite results_for_about.
    + rewrite !idle_run; try done; unfold meta_written, init; simpl;
        by rewrite Hr.
  - assert (Hskip : batch_written opts j r init = init) by done.
    destruct (decide (j = cidx)) as [->|Hne].
    + rewrite filter_cons_True by (simpl; by apply bool_decide_eq_true).
      simpl. by rewrite Hskip.
    + rewrite filter_cons_False
        by (simpl; rewrite bool_decide_eq_false_2 by done; done).
      simpl. by rewrite Hskip.
Qed.
(** ** An export with nothing to write *)

Lemma settled_run events : forall st : export_state doc,
  e_meta st = false ->
  Forall (fun w => inflight w = None) (e_writers st) ->
  export_run opts st events = st.
Proof.
  induction events as [|[result|j result] events IH]; intros st Hm Hw; simpl;
    [done| |].
  - unfold meta_written. rewrite Hm. simpl. by apply IH.
  - unfold batch_written. destruct (e_writers st !! j) as [w|] eqn:Hj;
      [|by apply IH].
    rewrite Forall_lookup in Hw. rewrite (Hw j w Hj).
    apply IH; [done|]. by apply Forall_lookup.
Qed.

Lemma clean_writers (cs : list (collection doc)) : forall k,
  Forall (fun c => dirty c = false) cs ->
  imap (fun i c => (start_writer opts (k + i) c).1) cs
  = map (fun c => Writer (Settled Undefined) (data c) 0 []) cs /\
  concat (imap (fun i c => (start_writer opts (k + i) c).2) cs) = [].
Proof.
  induction cs as [|c cs IH]; intros k Hcs; [done|].
  apply Forall_cons in Hcs as [Hc Hcs]. simpl.
  unfold start_writer at 1 3. rewrite Hc. simpl.
  destruct (IH (S k) Hcs) as [Hw Hops].
  split.
  - f_equal. rewrite <- Hw. apply imap_ext. intros i c' _. simpl.
    by replace (k + S i) with (S k + i) by lia.
  - rewrite <- Hops. f_equal. apply imap_ext. intros i c' _. simpl.
    by replace (k + S i) with (S k + i) by lia.
Qed.

(** X8 — an export with nothing to write.  When no collection of
    the database is dirty (or the database has no collection), an
    export whose metadata write succeeds makes four calls in all: it
    creates the directory, opens the metadata file, writes it and
    closes it; it opens no collection file and leaves them all as they
    were; and it calls back with [null] as soon as the metadata write
    has completed, once, whatever is reported afterwards. *)
Theorem export_with_nothing_to_write
    (database : list (collection doc)) d0 r0 events :
  Forall (fun c => dirty c = false) database ->
  w_success r0 = true ->
  let st := export_run opts (exportDatabase database d0)
              (MetaWritten r0 :: events) in
  e_callback st = [Null] /\
  e_ops st = [CreateDirectory; Open Meta MODE_WRITE;
              WriteHeader (cloned database); Close Meta] /\
  e_disk st = Disk (Header (cloned database)) (files d0).
Proof.
  intros Hclean Hr0 st.
  set (st0 := meta_written opts r0 (exportDatabase database d0)).
  assert (Hw : e_writers st0
               = map (fun c => Writer (Settled Undefined) (data c) 0 []) database
               /\ e_ops st0 = [CreateDirectory; Open Meta MODE_WRITE;
                               WriteHeader (cloned database); Close Meta]
               /\ e_disk st0 = Disk (Header (cloned database)) (files d0)).
  { unfold st0, meta_written, exportDatabase. simpl. rewrite Hr0. simpl.
    match goal with |- context [each_collection opts 0 database ?s] =>
      pose proof (each_collection_fields opts database 0 s)
        as (_ & _ & Hmeta & Hws & Hops);
      pose proof (each_collection_files opts database 0 s) as Hfiles;
      set (st2 := each_collection opts 0 database s) in * end.
    destruct (clean_writers database 0 Hclean) as [Hcw Hco].
    simpl in *. rewrite Hcw in Hws. rewrite Hco, ?app_nil_r in Hops.
    destruct (each_empty (e_each st2)) as [each' call]. simpl.
    split; [done|]. split; [done|].
    destruct (e_disk st2) as [m fs] eqn:Hdisk. simpl in *. f_equal; [done|].
    apply map_eq. intros j. rewrite Hfiles.
    rewrite Forall_lookup in Hclean.
    destruct (database !! (j - 0)) as [c|] eqn:Hc; [|done].
    by rewrite (Hclean _ _ Hc). }
  destruct Hw as (Hws & Hops & Hdisk).
  assert (Hcb : e_callback st0 = [Null]).
  { destruct (meta_written_tallied opts database d0 r0 Hr0)
      as ((Hcount & _) & Hsize & Hlen & _).
    pose proof (meta_written_quiet opts database d0 r0 Hr0) as Hq.
    fold st0 in Hcount, Hsize, Hlen, Hq.
    assert (Hok : Forall (fun w => settled_ok w = true) (e_writers st0)).
    { rewrite Hws. by apply Forall_map, Forall_true. }
    destruct Hq as [_ Hq].
    { eapply Forall_impl; [exact Hok|]. intros w.
      apply settled_ok_not_err. }
    unfold count_ok in Hcount. rewrite (tally_Forall _ _ Hok), Hlen in Hcount.
    rewrite Hq, Hcount, Hsize, Nat.eqb_refl. done. }
  assert (Hrun : st = st0).
  { unfold st. simpl. fold st0. apply settled_run.
    - by apply meta_written_started.
    - rewrite Hws. by apply Forall_map, Forall_true. }
  by rewrite Hrun.
Qed.
(** ** C6 *)

Lemma written_unnoticed f (w : writer doc) result passed :
  w_success result = false ->
  truthy (w_error result) = false ->
  w_success passed = true ->
  written opts f w result = written opts f w passed.
Proof.
  intros Hfail Hfalsy Hok. unfold written, write_error.
  rewrite Hfail, Hok. simpl.
  destruct (w_phase w) as [b|err1 b|o]; [| |done].
  - by rewrite Hfalsy.
  - unfold js_or. destruct (truthy err1); [done|]. by rewrite Hfalsy.
Qed.

(** C6 — a batch write that fails without an error value is taken
    for a success.  A write reports [success] and [error], and the
    callback of [descriptor.write] hands [result.error] on where
    [result.success] is false: the abort rests on that value alone.
    So let a batch write of collection [cidx] be in flight and the
    platform report it as failed, with an [error] that is missing or
    falsy.  Then the export goes on exactly as it does after a
    success: its writers, the calls it has made and what its callback
    was called with are the same.  For the collection this means: if
    its writer has not ended, a further write is in flight, issued
    after the one that failed; and if it has ended, its outcome is
    [undefined], no error. *)
Theorem write_failure_without_error_goes_unnoticed
    (database : list (collection doc)) d0 events cidx c result passed :
  database !! cidx = Some c ->
  let st := export_run opts (exportDatabase database d0) events in
  (exists w buffer, e_writers st !! cidx = Some w /\ inflight w = Some buffer) ->
  w_success result = false ->
  truthy (w_error result) = false ->
  w_success passed = true ->
  let unnoticed := export_step opts st (BatchWritten cidx result) in
  let fine := export_step opts st (BatchWritten cidx passed) in
  e_writers unnoticed = e_writers fine /\
  e_ops unnoticed = e_ops fine /\
  e_callback unnoticed = e_callback fine /\
  exists w',
    e_writers unnoticed !! cidx = Some w' /\
    match w_phase w' with
    | Settled o => o = Undefined
    | _ =>
        exists buffer',
          inflight w' = Some buffer' /\
          writes_on (Coll cidx) (e_ops unnoticed)
          = writes_on (Coll cidx) (e_ops st) ++ [buffer']
    end.
Proof.
  intros Hc st (w & buffer & Hw & Hfly) Hfail Hfalsy Hok unnoticed fine.
  destruct (writer_means_started database d0 events cidx w Hw) as (_ & _ & Hv).
  fold st in Hv. destruct (Hv c Hc) as (post & text & Hview).
  assert (Hin : in_order w).
  { pose proof (solo_in_order opts cidx c text (results_for cidx post)) as Hin.
    unfold view_of in Hview. rewrite Hw in Hview. simpl in Hview.
    injection Hview as Hview. by rewrite <- Hview in Hin. }
  unfold unnoticed, fine. simpl. unfold batch_written. rewrite Hw, Hfly.
  rewrite (written_unnoticed (Coll cidx) w result passed Hfail Hfalsy Hok).
  assert (Hend : match w_phase (written opts (Coll cidx) w passed).1 with
                 | Settled o => o = Undefined
                 | _ => True
                 end).
  { unfold written, write_error. rewrite Hok. simpl.
    unfold in_order in Hin. unfold inflight in Hfly.
    destruct (w_phase w) as [b|err1 b|o]; [| |done].
    - rewrite Hin.
      pose proof (iterate_whole (Coll cidx) (w_docs w) (w_didx w) []) as Hwhole.
      simpl in Hwhole. change (lines []) with (@nil ascii) in Hwhole.
      destruct Hwhole as (flying & _ & _ & Hphase).
      destruct (w_phase _); try done. by destruct Hphase as (_ & _ & ->).
    - by destruct Hin as [-> _]. }
  pose proof (written_one (Coll cidx) w passed buffer Hfly) as Hone.
  destruct (written opts (Coll cidx) w passed) as [w' ops]. simpl in *.
  assert (Hfields : forall d1 d2,
    let s1 := cnext w' (ExportState (e_database st) d1 (e_ops st ++ ops)
                          (e_meta st) (<[cidx := w']> (e_writers st))
                          (e_each st) (e_callback st)) in
    let s2 := cnext w' (ExportState (e_database st) d2 (e_ops st ++ ops)
                          (e_meta st) (<[cidx := w']> (e_writers st))
                          (e_each st) (e_callback st)) in
    e_writers s1 = e_writers s2 /\ e_ops s1 = e_ops s2 /\
    e_callback s1 = e_callback s2 /\
    e_writers s1 = <[cidx := w']> (e_writers st) /\
    e_ops s1 = e_ops st ++ ops).
  { intros d1 d2. unfold cnext. destruct (outcome w'); [|done].
    by destruct (each_done _ _). }
  destruct (Hfields (append cidx buffer result (e_disk st))
              (append cidx buffer passed (e_disk st)))
    as (Hws & Hops & Hcb & Hws1 & Hops1).
  split; [done|]. split; [done|]. split; [done|].
  exists w'. rewrite Hws1, Hops1.
  split; [apply list_lookup_insert_eq; by eapply lookup_lt_Some|].
  rewrite writes_on_app, Hone.
  destruct (w_phase w') as [b|err1 b|o] eqn:Hph; [| |done].
  - exists b. unfold inflight. rewrite Hph. simpl.
    by destruct (decide (Coll cidx = Coll cidx)).
  - exists b. unfold inflight. rewrite Hph. simpl.
    by destruct (decide (Coll cidx = Coll cidx)).
Qed.
End ExportMore.

(* ===================================================================== *)
(** * More about loadDatabase                                              *)
(* ===================================================================== *)

Section LoadMore.
Context {doc : Type} `{JSON doc} `{EncodingLaws}.
Variable opts : options.

(** ** The caller's callback *)

Lemma load_run_answered events : forall st : load_state doc,
  answered st -> answered (load_run opts st events).
Proof.
  induction events as [|ev events IH]; intros st Hst; simpl; [done|].
  apply IH. by apply load_step_answered.
Qed.

(** X9 — the callback of a load is called once at most.  Whatever
    the metadata file and the collection files hold, whatever the
    platform reports for the reads, successes or failures, and in
    whatever order, [loadDatabase] never calls its callback a second
    time. *)
Theorem load_calls_back_at_most_once (d : disk doc) events :
  length (l_callback (load_run opts (loadDatabase d) events)) <= 1.
Proof.
  destruct (meta d) as [| |database] eqn:Hmeta.
  - rewrite idle_load; unfold loadDatabase; rewrite Hmeta; done.
  - rewrite idle_load; unfold loadDatabase; rewrite Hmeta; simpl; [lia|done].
  - pose proof (load_run_answered events (loadDatabase d)
                  (loadDatabase_answered d database Hmeta)) as Ha.
    by destruct Ha as (_ & _ & Hlen & _).
Qed.

(** ** A reader sees its own completions *)

Lemma reading_steps_concerned cidx events : forall v : @reading doc,
  fold_left (reading_step opts cidx)
    (filter (fun ev => concerns cidx ev = true) events) v
  = fold_left (reading_step opts cidx) events v.
Proof.
  induction events as [|ev events IH]; intros v; [done|].
  destruct (concerns cidx ev) eqn:Hev.
  - rewrite filter_cons_True by done. simpl. apply IH.
  - rewrite filter_cons_False by (by rewrite Hev). simpl. rewrite IH.
    f_equal. symmetry.
    apply (other_steps opts cidx [ev] v). by repeat constructor.
Qed.

(** X10 — a reader sees its own completions only.  What a load does
    for one collection (the state of its reader, the documents it has
    collected and the calls on its file) depends on the completions of
    the reads and on the timers of this collection, in their order, and
    on nothing else: whatever is reported for the other collections,
    a failure or a line that does not parse included, makes no
    difference for this one. *)
Theorem reader_sees_its_own_completions_only (d : disk doc) events cidx :
  reading_of cidx (load_run opts (loadDatabase d) events)
  = reading_of cidx
      (load_run opts (loadDatabase d)
         (filter (fun ev => concerns cidx ev = true) events)).
Proof.
  rewrite !load_run_reading.
  destruct (reading_of cidx (loadDatabase d)) as [v|]; simpl; [|done].
  by rewrite reading_steps_concerned.
Qed.
(** ** A line that does not parse *)

(** X11 — a line that does not parse.  When the buffer of a read
    completes a line that [JSON.parse] rejects, the exception leaves
    the callback of the read: the documents of the lines before it
    are in the collection, the stream is not closed, no further read
    is made, and [next] is never called for this collection, whatever
    is reported afterwards.  So the callback of [loadDatabase] is
    never called, unless the reader of another collection ends with an
    error: the caller is told neither of the exception nor of the
    documents that were read. *)
Theorem line_that_does_not_parse_is_never_answered
    (d : disk doc) database events cidx v result entries events' :
  meta d = Header database ->
  let st := load_run opts (loadDatabase d) events in
  reading_of cidx st = Some v ->
  r_phase (rd_reader v) = Reading ->
  r_success result = true ->
  _chunk (r_offset (rd_reader v)) (r_text result) push (rd_data v)
  = Raised entries ->
  let st' := load_run opts (load_step opts st (ChunkRead cidx result)) events' in
  reading_of cidx st'
  = Some (ReadingOf
            (Reader Crashed (r_offset (rd_reader v)) (r_parsed (rd_reader v))
               (r_position (rd_reader v) + Z.to_nat (bytesProcessed result)))
            entries (rd_ops v)) /\
  (Forall (fun r => finished_err r = false) (l_readers st') ->
   l_callback st' = []).
Proof.
  intros Hmeta st Hv Hph Hok Hraise st'.
  assert (Hcrash : reading_of cidx st'
    = Some (ReadingOf
              (Reader Crashed (r_offset (rd_reader v)) (r_parsed (rd_reader v))
                 (r_position (rd_reader v) + Z.to_nat (bytesProcessed result)))
              entries (rd_ops v))).
  { unfold st'. rewrite load_run_reading, load_step_reading, Hv. simpl.
    rewrite decide_True by done. unfold read_step. rewrite Hph.
    unfold _read_result. rewrite Hok, Hraise. simpl.
    rewrite finished_steps by done. by rewrite app_nil_r. }
  split; [done|]. intros Hnone.
  assert (Ha : answered st').
  { unfold st'. apply load_run_answered, load_step_answered.
    unfold st. apply load_run_answered.
    by apply (loadDatabase_answered d database). }
  destruct Ha as (Hcount & Hsize & _ & _ & _ & _ & Hans).
  destruct (l_callback st') as [|answer rest] eqn:Hcb; [done|].
  destruct (Hans answer) as [Hfull _]; [by left|done|].
  assert (Hall : Forall (fun r => finished_ok r = true) (l_readers st')).
  { apply tally_all. congruence. }
  unfold reading_of in Hcrash.
  destruct (l_readers st' !! cidx) as [r|] eqn:Hr; [|done]. simpl in Hcrash.
  destruct (l_database st' !! cidx); [|done]. simpl in Hcrash.
  injection Hcrash as -> _ _.
  rewrite Forall_lookup in Hall. by specialize (Hall cidx _ Hr).
Qed.

(** ** The documents a load delivers *)

Lemma read_step_on_track cidx content docs (v : @reading doc) result :
  (1 <= reader_buffer opts)%Z ->
  r_phase (rd_reader v) = Reading ->
  on_track content docs v ->
  plain_read (Z.to_nat (reader_buffer opts))
    (drop (r_position (rd_reader v)) content) result ->
  on_track content docs (read_step opts cidx result v).
Proof.
  intros Hcap Hph [Hno Hc] Hh. unfold read_step. rewrite Hph.
  rewrite Hph in Hc. destruct Hc as [[tail Hc] Hfirst].
  destruct v as [[ph offset parsed position] entries ops]. simpl in *.
  subst ph. unfold _read_result. simpl.
  set (cap := Z.to_nat (reader_buffer opts)) in *.
  assert (Hrb : reader_buffer opts = Z.of_nat cap) by (unfold cap; lia).
  destruct (drop position content) as [|byte rest'] eqn:Hrest.
  - (* the end of the file *)
    simpl in Hc. injection Hc as -> ->. simpl in Hh.
    destruct (r_success result) eqn:Hs; simpl.
    + destruct Hh as [Hf|[Hbp Hnl]]; [done|].
      rewrite _chunk_no_nl by done. simpl.
      assert ((bytesProcessed result =? reader_buffer opts)%Z = false) as ->.
      { apply Z.eqb_neq. congruence. }
      assert (Hno' : NL ∉ tail ++ r_text result).
      { rewrite elem_of_app. tauto. }
      unfold _complete. rewrite _chunk_no_nl by done. done.
    + destruct (parsed =? 0)%Z eqn:Hp; simpl.
      * apply Z.eqb_eq in Hp. split; [done|]. simpl. split; [done|].
        intros _. rewrite (Hfirst Hp), drop_0 in Hrest. done.
      * unfold _complete. rewrite _chunk_no_nl by done. done.
  - (* more to read *)
    set (rest := byte :: rest') in *.
    assert (Hne : 0 < length rest) by (simpl; lia).
    unfold plain_read in Hh. fold rest in Hh.
    set (n := min cap (length rest)) in *.
    destruct Hh as (Hs & Hbp & Htake & Hpad & Hlen).
    rewrite Hs. simpl.
    rewrite <- (take_drop n rest), _chunk_app in Hc.
    rewrite <- (take_drop n (r_text result)), Htake, _chunk_app.
    destruct (_chunk offset (take n rest) push entries) as [e1 o1|e1] eqn:He1;
      [|done].
    assert (Hno1 : NL ∉ o1) by (by apply (_chunk_returned_no_nl _ _ _ _ _ _ Hno He1)).
    rewrite _chunk_no_nl by done.
    rewrite Hbp, Hrb.
    destruct (Z.of_nat n =? Z.of_nat cap)%Z eqn:Heq.
    + apply Z.eqb_eq in Heq. assert (Hn : n = cap) by lia.
      assert (Hfull : drop n (r_text result) = []).
      { apply drop_ge. apply (f_equal length) in Htake.
        rewrite !length_take in Htake. lia. }
      rewrite Hfull, app_nil_r. split; [done|]. simpl.
      rewrite Nat2Z.id.
      rewrite <- (drop_drop content n position), Hrest.
      split; [by exists tail|]. lia.
    + apply Z.eqb_neq in Heq. assert (Hn : n = length rest) by lia.
      rewrite (drop_ge rest n) in Hc by lia. simpl in Hc.
      injection Hc as -> ->.
      assert (Hno' : NL ∉ tail ++ drop n (r_text result)).
      { rewrite elem_of_app. tauto. }
      unfold _complete. rewrite _chunk_no_nl by done. done.
Qed.

Lemma honest_step_on_track (d : disk doc) content docs cidx st ev v :
  single_byte content ->
  (1 <= reader_buffer opts)%Z ->
  files d !! cidx = Some content ->
  reading_of cidx st = Some v ->
  on_track content docs v ->
  honest_event opts d st ev ->
  on_track content docs (reading_step opts cidx v ev).
Proof.
  intros Hsingle Hcap Hfile Hv Hon Hev.
  assert (Hr : l_readers st !! cidx = Some (rd_reader v)).
  { unfold reading_of in Hv. destruct (l_readers st !! cidx); [|done].
    simpl in Hv. destruct (l_database st !! cidx); [|done].
    simpl in Hv. by injection Hv as <-. }
  destruct ev as [j result|j]; simpl in *;
    (destruct (decide (j = cidx)) as [->|Hne]; [|done]).
  - rewrite Hr, Hfile, (utf8_single content Hsingle) in Hev.
    destruct Hev as [Hph Hread].
    apply read_step_on_track; [done|done|done|].
    apply honest_read_plain; [by apply Forall_drop|done].
  - rewrite Hr in Hev. unfold timer_step. rewrite Hev.
    destruct Hon as [Hno Hc]. rewrite Hev in Hc. split; [done|]. done.
Qed.

Lemma honest_run_on_track (d : disk doc) content docs cidx events :
  forall st v,
  single_byte content ->
  (1 <= reader_buffer opts)%Z ->
  files d !! cidx = Some content ->
  reading_of cidx st = Some v ->
  on_track content docs v ->
  honest_run opts d st events ->
  exists v', reading_of cidx (load_run opts st events) = Some v' /\
             on_track content docs v'.
Proof.
  induction events as [|ev events IH];
    intros st v Hsingle Hcap Hfile Hv Hon Hrun.
  - by exists v.
  - destruct Hrun as [Hev Hrun]. simpl.
    apply (IH (load_step opts st ev) (reading_step opts cidx v ev)); try done.
    + by rewrite load_step_reading, Hv.
    + by apply (honest_step_on_track d content docs cidx st).
Qed.

(** X12 — a load delivers what one pass of the codec finds.  Let a
    collection file hold any text of single-byte characters whose
    complete lines all parse, and let the platform serve it: full
    buffers up to the end of the file, and the end reported as a
    failure or by a count that is not the capacity.  (Of a character
    of several bytes a buffer may hold a part, and the reader, which
    decodes every buffer on its own, does not put it together again;
    nothing is stated for such text.)  Then, for every capacity of
    the buffer and whatever the
    order of completions among the collections, once the reader of the
    collection is through, the collection holds exactly the documents
    that [_chunk] emits in one call on the whole text: the lines cut by
    the buffer are put together again, blank lines give no document,
    and what follows the last line break (a line that was never
    finished) is dropped without any error. *)
Theorem load_delivers_what_one_pass_finds
    (d : disk doc) database events cidx c content docs tail v :
  single_byte content ->
  (1 <= reader_buffer opts)%Z ->
  meta d = Header database ->
  database !! cidx = Some c ->
  files d !! cidx = Some content ->
  _chunk [] content push (data c) = Returned docs tail ->
  honest_run opts d (loadDatabase d) events ->
  reading_of cidx (load_run opts (loadDatabase d) events) = Some v ->
  at_rest (rd_reader v) = true ->
  rd_data v = docs /\ exists o, r_phase (rd_reader v) = Finished o.
Proof.
  intros Hsingle Hcap Hmeta Hc Hfile Hpass Hrun Hv Hrest.
  destruct (honest_run_on_track d content docs cidx events (loadDatabase d)
              (ReadingOf (Reader Reading [] 0 0) (data c)
                 [Open (Coll cidx) MODE_READ; Read (Coll cidx)]))
    as (v' & Hv' & Hno & Hon); try done.
  - by apply (loadDatabase_reading d database).
  - split; [apply not_elem_of_nil|]. simpl. rewrite drop_0.
    split; [by exists tail|done].
  - rewrite Hv in Hv'. injection Hv' as <-.
    unfold at_rest in Hrest.
    destruct (r_phase (rd_reader v)) as [| |o|]; try done.
    split; [by destruct Hon|by exists o].
Qed.
(** ** The calls of a reader on its file *)

Lemma _chunk_push_grows input : forall tmp (entries : list doc),
  exists more,
    match _chunk tmp input push entries with
    | Returned entries' _ | Raised entries' => entries' = entries ++ more
    end.
Proof.
  induction input as [|byte input IH]; intros tmp entries; simpl.
  - exists []. by rewrite app_nil_r.
  - destruct (negb (is_nl byte)); [apply IH|].
    destruct (length tmp =? 0); [apply IH|].
    destruct (parse tmp) as [entry|].
    + destruct (IH [] (push entry entries)) as [more Hmore].
      exists (entry :: more).
      destruct (_chunk [] input push (push entry entries)); rewrite Hmore;
        unfold push; by rewrite <- app_assoc.
    + exists []. by rewrite app_nil_r.
Qed.

Lemma _complete_shape f offset parsed position (entries : list doc) :
  let '(r, entries', ops) := _complete f offset parsed position entries in
  (exists more, entries' = entries ++ more) /\
  (ops = [] \/ ops = [Close f]) /\
  at_rest r = true.
Proof.
  unfold _complete.
  destruct (_chunk_push_grows offset [] entries) as [more Hmore].
  destruct (_chunk [] offset push entries); (split; [by exists more|]); auto.
Qed.

Lemma _read_result_shape f (r : reader) (entries : list doc) result :
  let '(r', entries', ops) := _read_result opts f r entries result in
  (exists more, entries' = entries ++ more) /\
  (ops = [] \/ ops = [Close f] /\ at_rest r' = true) /\
  r_phase r' <> Reading.
Proof.
  unfold _read_result.
  destruct (negb (r_success result)).
  - destruct (negb (r_parsed r =? 0)%Z).
    + pose proof (_complete_shape f (r_offset r) (r_parsed r) (r_position r)
                    entries) as Hc.
      destruct (_complete f (r_offset r) (r_parsed r) (r_position r) entries)
        as [[r' entries'] ops].
      destruct Hc as (Hmore & [->| ->] & Hrest); (split; [done|]);
        (split; [auto|]); unfold at_rest in Hrest;
        by destruct (r_phase r').
    + split; [exists []; by rewrite app_nil_r|]. split; [by left|done].
  - destruct (_chunk_push_grows (r_text result) (r_offset r) entries)
      as [more Hmore].
    destruct (_chunk (r_offset r) (r_text result) push entries)
      as [entries1 offset|entries1].
    + destruct (_ =? _)%Z.
      * split; [by exists more|]. split; [by left|done].
      * match goal with |- context [_complete f ?o ?p ?q ?e] =>
          pose proof (_complete_shape f o p q e) as Hc;
          destruct (_complete f o p q e) as [[r' entries'] ops] end.
        destruct Hc as ([more' ->] & Hops & Hrest). subst entries1.
        split; [exists (more ++ more'); by rewrite app_assoc|].
        split; [destruct Hops as [->| ->]; auto|].
        unfold at_rest in Hrest. by destruct (r_phase r').
    + split; [by exists more|]. split; [by left|done].
Qed.

Lemma reading_step_streamed cidx before (v : @reading doc) ev :
  streamed cidx before v -> streamed cidx before (reading_step opts cidx v ev).
Proof.
  intros Hv. destruct ev as [j result|j]; simpl;
    (destruct (decide (j = cidx)) as [->|Hne]; [|done]).
  - unfold read_step. destruct (r_phase (rd_reader v)) eqn:Hph; try done.
    destruct Hv as (reads & closing & more & Hops & Hclosing & Hdata).
    assert (closing = []) as ->.
    { destruct Hclosing as [|[_ Hrest]]; [done|]. unfold at_rest in Hrest.
      by rewrite Hph in Hrest. }
    pose proof (_read_result_shape (Coll cidx) (rd_reader v) (rd_data v) result)
      as Hshape.
    destruct (_read_result opts (Coll cidx) (rd_reader v) (rd_data v) result)
      as [[r' entries'] ops].
    destruct Hshape as ([more' ->] & Hops' & _).
    exists reads, ops, (more ++ more'). simpl.
    rewrite Hops, Hdata, !app_nil_r, <- app_assoc. split; [done|].
    split; [|done]. destruct Hops' as [->|[-> Hrest]]; auto.
  - unfold timer_step. destruct (r_phase (rd_reader v)) eqn:Hph; try done.
    destruct Hv as (reads & closing & more & Hops & Hclosing & Hdata).
    assert (closing = []) as ->.
    { destruct Hclosing as [|[_ Hrest]]; [done|]. unfold at_rest in Hrest.
      by rewrite Hph in Hrest. }
    exists (S reads), [], more. simpl. rewrite Hops, !app_nil_r.
    split; [|auto]. simpl. do 2 f_equal.
    clear. induction reads as [|reads IH]; [done|]. simpl. by rewrite IH.
Qed.

(** X13 — the calls on the file of a collection during a load.
    Whatever the platform reports and in whatever order, the calls of a
    load on the file of a collection are: the opening of the stream,
    then one read or more, and last the close, made once at most and
    only by a reader that is through; no read follows the close.
    And the documents the collection had in the metadata stay where
    they are: a load only adds documents at the end. *)
Theorem collection_file_is_opened_read_closed
    (d : disk doc) database events cidx c v :
  meta d = Header database ->
  database !! cidx = Some c ->
  reading_of cidx (load_run opts (loadDatabase d) events) = Some v ->
  exists reads closing more,
    rd_ops v = Open (Coll cidx) MODE_READ
               :: replicate (S reads) (Read (Coll cidx)) ++ closing /\
    (closing = [] \/
     closing = [Close (Coll cidx)] /\ at_rest (rd_reader v) = true) /\
    rd_data v = data c ++ more.
Proof.
  intros Hmeta Hc Hv.
  rewrite load_run_reading, (loadDatabase_reading d database cidx c Hmeta Hc)
    in Hv.
  simpl in Hv. injection Hv as <-.
  assert (Hstart : streamed cidx (data c)
            (ReadingOf (Reader Reading [] 0 0) (data c)
               [Open (Coll cidx) MODE_READ; Read (Coll cidx)])).
  { exists 0, [], []. simpl. rewrite app_nil_r. auto. }
  revert Hstart. generalize (ReadingOf (Reader Reading [] 0 0) (data c)
               [Open (Coll cidx) MODE_READ; Read (Coll cidx)]).
  induction events as [|ev events IH]; intros v Hv; simpl; [done|].
  apply IH. by apply reading_step_streamed.
Qed.

End LoadMore.

(* ===================================================================== *)
(** * What the caller of a load is told                                    *)
(* ===================================================================== *)

Section LoadCaller.
Context {doc : Type} `{JSONLaws doc} `{EncodingLaws}.
Variable opts : options.

Lemma load_step_callback (st : load_state doc) ev :
  exists more, l_callback (load_step opts st ev) = l_callback st ++ more.
Proof.
  assert (Hsame : exists more, l_callback st = l_callback st ++ more)
    by (exists []; by rewrite app_nil_r).
  destruct ev as [j result|j]; simpl.
  - unfold chunk_read.
    destruct (l_readers st !! j) as [r|]; [|done].
    destruct (l_database st !! j) as [c|]; [|done].
    destruct (r_phase r); try done.
    destruct (_read_result opts (Coll j) r (data c) result) as [[r' entries] ops].
    unfold next. destruct (finished r'); [|done].
    destruct (each_done _ _) as [each' call]. simpl. by eexists.
  - unfold timer_fired.
    destruct (l_readers st !! j) as [r|]; [|done].
    by destruct (r_phase r).
Qed.

Lemma load_run_callback events : forall st : load_state doc,
  exists more, l_callback (load_run opts st events) = l_callback st ++ more.
Proof.
  induction events as [|ev events IH]; intros st; simpl.
  - exists []. by rewrite app_nil_r.
  - destruct (IH (load_step opts st ev)) as [more2 ->].
    destruct (load_step_callback st ev) as [more1 ->].
    exists (more1 ++ more2). by rewrite app_assoc.
Qed.

(** An answer that was given stays the only one. *)
Lemma answer_stays (st : load_state doc) events answer :
  answered st ->
  l_callback st = [answer] ->
  l_callback (load_run opts st events) = [answer].
Proof.
  intros Ha Hcb.
  destruct (load_run_callback events st) as [more Hmore].
  pose proof (load_run_answered opts events st Ha) as (_ & _ & Hlen & _).
  rewrite Hmore, Hcb in *. destruct more; [done|]. simpl in Hlen. lia.
Qed.

Lemma load_run_databases (d : disk doc) database events answer :
  meta d = Header database ->
  answer ∈ l_callback (load_run opts (loadDatabase d) events) ->
  exists contents, answer = Database contents.
Proof.
  intros Hmeta.
  destruct (load_run_shape opts events (loadDatabase d)) as (_ & _ & _ & Hdbs).
  apply Hdbs. unfold loadDatabase. rewrite Hmeta.
  destruct (each_empty _) as [each' call]. simpl.
  intros a Ha. destruct call; [|by apply elem_of_nil in Ha].
  apply list_elem_of_singleton in Ha. by eexists.
Qed.

(** The step a failed read makes: the documents stay as they are, the
    reader of the collection ends, and [next] is told the error of the
    read if [parsed] is 0 and nothing otherwise. *)
Lemma failed_read_step (d : disk doc) database events cidx v result :
  meta d = Header database ->
  let st := load_run opts (loadDatabase d) events in
  reading_of cidx st = Some v ->
  r_phase (rd_reader v) = Reading ->
  r_success result = false ->
  let r := rd_reader v in
  let r' :=
    Reader (Finished (if (r_parsed r =? 0)%Z then r_error result else Undefined))
      (r_offset r) (r_parsed r) (r_position r) in
  exists ops,
    load_step opts st (ChunkRead cidx result)
    = next r'
        (LoadState (l_database st) (l_ops st ++ ops)
           (<[cidx := r']> (l_readers st)) (l_each st) (l_callback st)
           (l_raised st)).
Proof.
  intros Hmeta st Hv Hph Hfail r r'.
  pose proof (reachable_steady opts d database events cidx v Hmeta Hv)
    as [Hnl _].
  fold st in Hv. unfold reading_of in Hv.
  destruct (l_readers st !! cidx) as [r0|] eqn:Hr; [|done]. simpl in Hv.
  destruct (l_database st !! cidx) as [c|] eqn:Hc; [|done]. simpl in Hv.
  injection Hv as <-. simpl in *. subst r.
  assert (Hsame : <[cidx := set_data c (data c)]> (l_database st)
                  = l_database st).
  { apply list_insert_id. rewrite Hc. by destruct c. }
  unfold chunk_read. rewrite Hr, Hc, Hph.
  unfold _read_result. rewrite Hfail. simpl.
  destruct (r_parsed r0 =? 0)%Z eqn:Hp; simpl.
  - exists []. by rewrite Hsame.
  - unfold _complete. rewrite _chunk_no_nl by done. simpl.
    exists [Close (Coll cidx)]. by rewrite Hsame.
Qed.

(** A first read that fails with an error, before any answer was
    given, makes [each] answer at once: the callback gets the database
    as it is. *)
Lemma first_failure_answers (d : disk doc) database events cidx v result :
  meta d = Header database ->
  let st := load_run opts (loadDatabase d) events in
  reading_of cidx st = Some v ->
  r_phase (rd_reader v) = Reading ->
  r_success result = false ->
  r_parsed (rd_reader v) = 0%Z ->
  truthy (r_error result) = true ->
  l_callback st = [] ->
  l_callback (load_step opts st (ChunkRead cidx result))
  = [Database (l_database st)].
Proof.
  intros Hmeta st Hv Hph Hfail Hzero Herr Hcb.
  destruct (failed_read_step d database events cidx v result Hmeta Hv Hph Hfail)
    as [ops Hstep].
  fold st in Hstep. rewrite Hstep, Hzero. simpl.
  assert (Ha : answered st).
  { apply load_run_answered. by apply (loadDatabase_answered d database). }
  destruct Ha as (_ & _ & _ & Hused & _).
  unfold next, finished. simpl. unfold each_done. rewrite Herr.
  destruct (used (l_each st)) eqn:Hu.
  - assert (l_callback st <> []) by (by apply Hused). congruence.
  - simpl. by rewrite Hcb.
Qed.

(** ** C4 *)
(** C4 — the caller of a load is not told of a read that failed.
    When a read of a collection is reported as failed, no document is
    added to any collection and the reader of the collection ends.
    The error of the read is the outcome of the collection if
    [parsed] is 0, as it is at the first read; otherwise the read
    before filled the buffer and the failure is taken for the end of
    the stream: the collection ends without error.  In no case does
    the error reach the callback of [loadDatabase]: whatever the
    callback is given, now or later, is the database; and a first read
    that fails with an error while no answer was given yet makes the
    callback be called at once, with the database as it is. *)
Theorem failed_read_is_not_told_to_the_caller
    (d : disk doc) database events cidx v result events' :
  meta d = Header database ->
  let st := load_run opts (loadDatabase d) events in
  reading_of cidx st = Some v ->
  r_phase (rd_reader v) = Reading ->
  r_success result = false ->
  let r := rd_reader v in
  let st' := load_step opts st (ChunkRead cidx result) in
  l_database st' = l_database st /\
  (exists r',
      l_readers st' !! cidx = Some r' /\
      r_phase r'
      = Finished (if (r_parsed r =? 0)%Z then r_error result else Undefined)) /\
  (r_parsed r = 0%Z \/ r_parsed r = reader_buffer opts) /\
  (r_parsed r = 0%Z -> truthy (r_error result) = true -> l_callback st = [] ->
   l_callback st' = [Database (l_database st)]) /\
  (forall answer,
      answer ∈ l_callback (load_run opts st' events') ->
      exists contents, answer = Database contents).
Proof.
  intros Hmeta st Hv Hph Hfail r st'.
  destruct (failed_read_step d database events cidx v result Hmeta Hv Hph Hfail)
    as [ops Hstep].
  fold st r in Hstep. fold st' in Hstep.
  pose proof (reachable_steady opts d database events cidx v Hmeta Hv)
    as [_ Hp].
  fold r in Hp. unfold r in Hp at 1. rewrite Hph in Hp.
  match type of Hstep with _ = next ?r1 ?s =>
    destruct (next_fields r1 s) as (Hdb & _ & Hrs & _) end.
  rewrite <- Hstep in Hdb, Hrs. simpl in Hdb, Hrs.
  split; [done|]. split.
  { exists (Reader
              (Finished (if (r_parsed r =? 0)%Z then r_error result else Undefined))
              (r_offset r) (r_parsed r) (r_position r)).
    split; [|done]. rewrite Hrs.
    apply list_lookup_insert_eq.
    unfold reading_of in Hv. fold st in Hv.
    destruct (l_readers st !! cidx) eqn:Hr; [|done].
    by eapply lookup_lt_Some. }
  split; [done|]. split.
  { intros Hzero Herr Hcb.
    by apply (first_failure_answers d database events cidx v result). }
  intros answer Hin.
  apply (load_run_databases d database (events ++ ChunkRead cidx result :: events'));
    [done|].
  unfold load_run in *. by rewrite fold_left_app.
Qed.

(** ** C1 *)
(** C1 — the callback of a load does not wait for the documents.
    Take a database whose collections are all dirty and an export of
    it in which every write succeeded and which called back with
    [null].  Let one collection be empty, and let the platform report
    the end of its file as a read that failed, with an error: its
    file is empty, so that this is what a platform that works may
    report for its first read.  When this is the first completion of
    the load, the callback of [loadDatabase] is called at once, and
    never again: the caller gets the database in which no collection
    holds any document, whatever the reads of the other collections
    bring afterwards.  What the caller is given is then not what was
    exported, as soon as one collection holds a document. *)
Theorem load_answers_before_the_documents_are_read
    (database : list (collection doc)) d0 written cidx c result :
  Forall (fun c => dirty c = true) database ->
  Forall (fun ev => succeeded (result_of ev)) written ->
  let e := export_run opts (exportDatabase database d0) written in
  e_callback e = [Null] ->
  database !! cidx = Some c ->
  data c = [] ->
  r_success result = false ->
  truthy (r_error result) = true ->
  let first := ChunkRead cidx result in
  honest_event opts (e_disk e) (loadDatabase (e_disk e)) first /\
  (forall read,
      l_callback (load_run opts (loadDatabase (e_disk e)) (first :: read))
      = [Database (cloned database)]) /\
  Forall (fun c' => data c' = []) (cloned database) /\
  (forall j cj, database !! j = Some cj -> data cj <> [] ->
     map data (cloned database) <> map data database).
Proof.
  intros Hdirty Hok e Hcb Hc Hempty Hfail Herr first.
  destruct (export_complete opts database d0 written Hok) as [Hmeta Hfiles].
  { fold e. rewrite Hcb. by apply list_elem_of_singleton. }
  fold e in Hmeta, Hfiles.
  assert (Hc' : cloned database !! cidx = Some (set_data c [])).
  { unfold cloned. by rewrite list_lookup_fmap, Hc. }
  pose proof (loadDatabase_reading (e_disk e) _ cidx _ Hmeta Hc') as Hv.
  assert (Hstart : l_callback (loadDatabase (e_disk e)) = [] /\
                   l_database (loadDatabase (e_disk e)) = cloned database).
  { unfold loadDatabase. rewrite Hmeta. unfold each_empty. simpl.
    assert ((length (cloned database) =? 0) = false) as ->; [|done].
    apply Nat.eqb_neq. apply lookup_lt_Some in Hc'. lia. }
  destruct Hstart as [Hnone Hdb].
  split; [|split; [|split]].
  - unfold first. simpl.
    assert (Hr : l_readers (loadDatabase (e_disk e)) !! cidx
                 = Some (Reader Reading [] 0 0)).
    { unfold reading_of in Hv.
      destruct (l_readers (loadDatabase (e_disk e)) !! cidx); [|done].
      simpl in Hv. destruct (l_database _ !! cidx); [|done].
      simpl in Hv. by injection Hv as ->. }
    rewrite Hr, (Hfiles cidx c Hc).
    + rewrite Hempty. change (lines []) with (@nil ascii).
      rewrite utf8_single by constructor. split; [done|]. by left.
    + rewrite Forall_lookup in Hdirty. by apply (Hdirty cidx).
  - intros read. simpl.
    pose proof (first_failure_answers (e_disk e) (cloned database) [] cidx _
                  result Hmeta Hv eq_refl Hfail eq_refl Herr Hnone) as Hans.
    simpl in Hans. rewrite Hdb in Hans.
    apply answer_stays; [|done].
    apply (load_step_answered opts _ (ChunkRead cidx result)).
    by apply (loadDatabase_answered _ (cloned database)).
  - unfold cloned. by apply Forall_map, Forall_true.
  - intros j cj Hj Hne Heq.
    apply (f_equal (fun l => l !! j)) in Heq.
    unfold cloned in Heq. rewrite !list_lookup_fmap, Hj in Heq. simpl in Heq.
    injection Heq as Heq. by destruct Hne.
Qed.
End LoadCaller.

(* ===================================================================== *)
(** * More about the line codec                                            *)
(* ===================================================================== *)

Section CodecMore.
Context {doc : Type} `{JSONLaws doc}.

Lemma feed_concat {S} (consumer : doc -> S -> S) chunks : forall pending st,
  feed pending chunks consumer st = _chunk pending (concat chunks) consumer st.
Proof.
  induction chunks as [|c chunks IH]; intros pending st; simpl; [done|].
  rewrite _chunk_app. destruct (_chunk pending c consumer st); [apply IH|done].
Qed.

Lemma _chunk_blank_lines {S} (consumer : doc -> S -> S) n input st :
  _chunk [] (replicate n NL ++ input) consumer st = _chunk [] input consumer st.
Proof. induction n as [|n IH]; [done|]. simpl. exact IH. Qed.

(** X15 — the lines of a collection survive any cutting.  Take the
    text that an export writes for a list of documents, one serialized
    document per line, cut it into chunks at any places, in the middle
    of a line or between two lines, with empty chunks or chunks of one
    character, and feed the chunks to [_chunk] one after the other,
    each call starting from what the one before returned.  Then the
    consumer gets exactly the documents, in their order, after those it
    had, and nothing is left pending.  Blank lines between the lines of
    two lists of documents change nothing. *)
Theorem lines_survive_any_cutting (docs : list doc) chunks entries :
  concat chunks = lines docs ->
  feed [] chunks push entries = Returned (entries ++ docs) [] /\
  forall n more,
    _chunk [] (lines docs ++ replicate n NL ++ lines more) push entries
    = Returned (entries ++ docs ++ more) [].
Proof.
  intros Hcut. split.
  - by rewrite feed_concat, Hcut, _chunk_lines.
  - intros n more.
    by rewrite _chunk_app, _chunk_lines, _chunk_blank_lines, _chunk_lines,
      app_assoc.
Qed.

(** X16 — the codec stops at the first line that does not parse.
    When the text holds, after the lines of some documents, a line
    that is not blank and that [JSON.parse] rejects, [_chunk] raises at
    the end of that line: the consumer has got the documents of the
    lines before it, in order, and whatever follows the line, good
    lines included, is not looked at. *)
Theorem codec_stops_at_the_first_bad_line (good : list doc) bad rest entries :
  bad <> [] ->
  NL ∉ bad ->
  parse (doc := doc) bad = None ->
  _chunk [] (lines good ++ bad ++ [NL] ++ rest) push entries
  = Raised (entries ++ good).
Proof.
  intros Hne Hno Hbad.
  rewrite _chunk_app, _chunk_lines, _chunk_app, _chunk_no_nl by done.
  simpl. destruct bad as [|byte bad]; [done|]. simpl. by rewrite Hbad.
Qed.
End CodecMore.

(* ===================================================================== *)
(** * The options of the constructor                                       *)
(* ===================================================================== *)

Section AdapterMore.
Context {doc : Type} `{JSONLaws doc} `{EncodingLaws}.

(** X18 — an adapter round-trips with the options of its
    constructor, on documents of single-byte characters.  Let the
    adapter be built with any buffer size and any batch size that are
    not negative, 0 standing for an option that is not given.  Then
    its buffer holds 1048576 bytes if none was given and its batches
    25 documents, neither is 0; and when the text of every document is
    made of single-byte characters, a database whose collections are
    all dirty comes back from an export in which every write succeeds,
    followed by a load that the platform serves to its end, with the
    same documents in every collection, in the same order, once every
    reader is through: such a run exists, and every such run ends so,
    with one call of the callback. *)
Theorem adapter_round_trips_with_its_options
    buffer batch (database : list (collection doc)) d0 :
  (forall document : doc, single_byte (stringify document)) ->
  (0 <= buffer)%Z ->
  (0 <= batch)%Z ->
  Forall (fun c => dirty c = true) database ->
  let opts := constructor buffer batch in
  reader_buffer (constructor 0 batch) = 1048576%Z /\
  writer_batch (constructor buffer 0) = 25%Z /\
  (1 <= reader_buffer opts)%Z /\ (1 <= writer_batch opts)%Z /\
  (exists written read, round_trip opts database d0 written read) /\
  forall written read,
    round_trip opts database d0 written read ->
    let e := export_run opts (exportDatabase database d0) written in
    let l := load_run opts (loadDatabase (e_disk e)) read in
    map data (l_database l) = map data database /\
    length (l_callback l) = 1.
Proof.
  intros Hsingle Hbuffer Hbatch Hdirty opts.
  assert (Hcap : (1 <= reader_buffer opts)%Z).
  { unfold opts, constructor. simpl.
    destruct (buffer =? 0)%Z eqn:Hb; [lia|]. apply Z.eqb_neq in Hb. lia. }
  assert (Hsize : (1 <= writer_batch opts)%Z).
  { unfold opts, constructor. simpl.
    destruct (batch =? 0)%Z eqn:Hb; [lia|]. apply Z.eqb_neq in Hb. lia. }
  split; [done|]. split; [done|]. split; [done|]. split; [done|]. split.
  - destruct (export_settles opts database d0) as [Hok Hcb].
    set (written := smooth_export database) in *.
    destruct (export_complete opts database d0 written Hok) as [Hmeta Hfiles].
    { rewrite Hcb. by apply list_elem_of_singleton. }
    set (e := export_run opts (exportDatabase database d0) written) in *.
    destruct (load_settles opts (e_disk e) database Hsingle Hcap Hmeta)
      as (read & Hh & Hr).
    { intros i c Hc. apply Hfiles; [done|].
      rewrite Forall_lookup in Hdirty. by apply (Hdirty i). }
    exists written, read. by repeat split.
  - intros written read Hrt.
    destruct (round_trip_documents opts database d0 written read Hsingle Hdirty
                Hcap Hrt)
      as (_ & Hdata & contents & Hcb & _).
    split; [done|]. by rewrite Hcb.
Qed.
End AdapterMore.

(* ===================================================================== *)
(** * The synchronous adapter (part_000)                                   *)
(* ===================================================================== *)

Section SynchronousFacts.
Context {doc : Type} `{JSONLaws doc} `{EncodingLaws}.

Lemma sync_writes_text f (docs : list doc) :
  concat (writes_on f (sync_writes f docs)) = lines docs.
Proof.
  induction docs as [|document docs IH]; [done|].
  change (sync_writes f (document :: docs))
    with ([Write f (stringify document); Write f [NL]] ++ sync_writes f docs).
  rewrite writes_on_app, concat_app, IH.
  assert (writes_on (doc := doc) f [Write f (stringify document); Write f [NL]]
          = [stringify document; [NL]]) as ->.
  { unfold writes_on. simpl. by destruct (decide (f = f)). }
  unfold lines, line. simpl. by rewrite <- ?app_assoc.
Qed.

Lemma sync_export_from_files (cs : list (collection doc)) : forall k d j,
  meta (sync_export_from k cs d).1 = meta d /\
  files (sync_export_from k cs d).1 !! j =
  match (if decide (k <= j) then cs !! (j - k) else None) with
  | Some c => if dirty c then Some (lines (data c)) else files d !! j
  | None => files d !! j
  end.
Proof.
  induction cs as [|c cs IH]; intros k d j; simpl.
  - split; [done|]. by destruct (decide (k <= j)).
  - destruct (dirty c) eqn:Hd; simpl.
    + match goal with |- context [sync_export_from (S k) cs ?d'] =>
        destruct (IH (S k) d' j) as [Hm Hf];
        destruct (sync_export_from (S k) cs d') as [d'' ops] end.
      simpl in *. split; [done|]. rewrite Hf.
      destruct (decide (S k <= j)) as [Hlt|Hge].
      * rewrite decide_True by lia.
        replace (j - k) with (S (j - S k)) by lia. simpl.
        rewrite lookup_insert_ne by lia. done.
      * destruct (decide (k <= j)) as [Hle|Hgt].
        -- assert (j = k) as -> by lia. rewrite Nat.sub_diag. simpl.
           by rewrite Hd, lookup_insert_eq, sync_writes_text.
        -- rewrite lookup_insert_ne by lia. done.
    + destruct (IH (S k) d j) as [Hm Hf]. split; [done|]. rewrite Hf.
      destruct (decide (S k <= j)) as [Hlt|Hge].
      * rewrite decide_True by lia.
        by replace (j - k) with (S (j - S k)) by lia.
      * destruct (decide (k <= j)) as [Hle|Hgt]; [|done].
        assert (j = k) as -> by lia. rewrite Nat.sub_diag. simpl.
        by rewrite Hd.
Qed.

Lemma sync_read_loop_served cap tape : forall offset (entries : list doc) rest docs,
  NL ∉ offset ->
  (exists tail, _chunk offset rest push entries = Returned docs tail) ->
  sync_plain cap rest tape ->
  exists offset',
    sync_read_loop offset entries tape = Some (Returned docs offset') /\
    NL ∉ offset'.
Proof.
  induction tape as [|answer tape IH];
    intros offset entries rest docs Hno [tail Hc] Hserved; [done|].
  simpl in *. destruct rest as [|byte rest'].
  - assert ((count answer >? -1)%Z = false) as -> by lia.
    simpl in Hc. injection Hc as -> ->. by exists tail.
  - set (rest := byte :: rest') in *.
    set (n := min cap (length rest)) in *.
    destruct Hserved as (Hcount & Htake & Hpad & Hlen & Hserved).
    assert ((count answer >? -1)%Z = true) as -> by lia.
    rewrite <- (take_drop n rest), _chunk_app in Hc.
    rewrite <- (take_drop n (bytes answer)), Htake, _chunk_app.
    destruct (_chunk offset (take n rest) push entries) as [e1 o1|e1] eqn:He1;
      [|done].
    assert (Hno1 : NL ∉ o1)
      by (by apply (_chunk_returned_no_nl _ _ _ _ _ _ Hno He1)).
    rewrite _chunk_no_nl by done.
    apply (IH _ _ (drop n rest)); [|  |done].
    + rewrite elem_of_app. tauto.
    + destruct (decide (n = cap)) as [Hn|Hn].
      * assert (Hfull : drop n (bytes answer) = []).
        { apply drop_ge. lia. }
        rewrite Hfull, app_nil_r. by exists tail.
      * assert (Hall : drop n rest = []) by (apply drop_ge; lia).
        rewrite Hall in *. simpl in Hc. injection Hc as -> ->.
        simpl. by eexists.
Qed.

Lemma sync_read_collection_served cap tape (docs : list doc) :
  sync_plain cap (lines docs) tape ->
  sync_read_collection [] tape = Some (Some docs).
Proof.
  intros Hserved. unfold sync_read_collection.
  destruct (sync_read_loop_served cap tape [] [] (lines docs) docs)
    as (offset & -> & Hno); [apply not_elem_of_nil| |done|].
  - exists []. by rewrite _chunk_lines.
  - by rewrite _chunk_no_nl.
Qed.

Lemma sync_load_from_served cap (database : list (collection doc)) :
  forall tapes,
  Forall2 (fun c tape => sync_plain cap (lines (data c)) tape) database tapes ->
  sync_load_from (cloned database) tapes = Some (Some database).
Proof.
  induction database as [|c database IH]; intros tapes Htapes.
  - done.
  - apply Forall2_cons_inv_l in Htapes as (tape & tapes' & Hc & Hrest & ->).
    change (cloned (c :: database)) with (set_data c [] :: cloned database).
    cbn [sync_load_from]. change (data (set_data c [])) with (@nil doc).
    rewrite (sync_read_collection_served cap tape (data c) Hc).
    rewrite (IH tapes' Hrest). by destruct c.
Qed.

(** X19 — the synchronous adapter round-trips, on documents of
    single-byte characters.  For the adapter of part_000, which writes
    and reads with synchronous calls: after [exportDatabase] the file
    of every dirty collection holds one line per document; and when
    the text of every document is made of single-byte characters,
    every collection is dirty and the platform serves the bytes of the
    files as they are, through the buffer of 1024 bytes and with [-1]
    at the end of each stream, [loadDatabase] calls back with the very
    database that was exported: the same collections with the same
    documents in the same order. *)
Theorem sync_export_then_load_round_trip
    (database : list (collection doc)) d0 tapes :
  (forall document : doc, single_byte (stringify document)) ->
  Forall (fun c => dirty c = true) database ->
  let d := (sync_exportDatabase database d0).1.1 in
  length tapes = length database ->
  (forall cidx tape, tapes !! cidx = Some tape ->
     exists content, files d !! cidx = Some content /\
                     sync_served sync_buffer (utf8 content) tape) ->
  (sync_exportDatabase database d0).2 = [Undefined] /\
  (forall cidx c, database !! cidx = Some c ->
     files d !! cidx = Some (lines (data c))) /\
  sync_loadDatabase d tapes = Some (SyncDatabase database).
Proof.
  intros Hsingle Hdirty d Hlen Htapes.
  assert (Hdisk : meta d = Header (cloned database) /\
                  forall cidx c, database !! cidx = Some c ->
                    files d !! cidx = Some (lines (data c))).
  { unfold d, sync_exportDatabase.
    match goal with |- context [sync_export_from 0 database ?d'] =>
      pose proof (sync_export_from_files database 0 d') as Hf;
      destruct (sync_export_from 0 database d') as [d1 ops] end.
    simpl in *. split; [by destruct (Hf 0)|].
    intros cidx c Hc. destruct (Hf cidx) as [_ ->].
    rewrite Nat.sub_0_r, Hc. rewrite Forall_lookup in Hdirty.
    by rewrite (Hdirty cidx c Hc). }
  destruct Hdisk as [Hmeta Hfiles].
  split; [|split; [done|]].
  { unfold sync_exportDatabase.
    by destruct (sync_export_from 0 database _). }
  unfold sync_loadDatabase. rewrite Hmeta.
  rewrite (sync_load_from_served sync_buffer database tapes); [done|].
  apply Forall2_same_length_lookup. split; [done|].
  intros cidx c tape Hc Htape.
  destruct (Htapes cidx tape Htape) as (content & Hcontent & Hserved).
  rewrite (Hfiles cidx c Hc) in Hcontent. injection Hcontent as <-.
  pose proof (single_byte_lines (data c) Hsingle) as Hlines.
  rewrite (utf8_single _ Hlines) in Hserved.
  by apply sync_served_plain.
Qed.
End SynchronousFacts.

(* ===================================================================== *)
(** * [_each] (part_001)                                                   *)
(* ===================================================================== *)

Lemma _each_exited errs : forall st,
  oe_exited st = true -> fold_left _each_done errs st = st.
Proof.
  induction errs as [|err errs IH]; intros st Hst; simpl; [done|].
  unfold _each_done at 2. rewrite Hst. by apply IH.
Qed.

Lemma _each_run errs : forall st,
  oe_exited st = false ->
  oe_called (fold_left _each_done errs st)
  = oe_called st ++ match filter (fun err => truthy err = true) errs with
                    | [] => []
                    | err :: _ => [err]
                    end /\
  (Forall (fun err => truthy err = false) errs ->
   oe_raised (fold_left _each_done errs st) = oe_raised st + length errs).
Proof.
  induction errs as [|err errs IH]; intros st Hst; simpl.
  - rewrite app_nil_r. split; [done|]. intros _. lia.
  - unfold _each_done at 2 4. rewrite Hst.
    destruct (truthy err) eqn:Herr.
    + rewrite filter_cons_True by done. rewrite _each_exited by done. simpl.
      split; [done|]. intros Hall. apply Forall_cons in Hall as [Hall _].
      congruence.
    + rewrite filter_cons_False by (by rewrite Herr).
      destruct (IH (OwnEach (oe_length st) false (oe_called st)
                      (S (oe_raised st))) eq_refl) as [Hcalled Hraised].
      split; [done|]. intros Hall. apply Forall_cons in Hall as [_ Hall].
      rewrite (Hraised Hall). simpl. lia.
Qed.

(** X20 — [_each] answers errors only.  The iterator of part_001,
    on an array that is not empty: its callback is called once at
    most, and only with the first error that a handler reports;
    completions after that error are ignored.  A handler that
    completes without error never brings the callback nearer: the
    completion raises a ReferenceError, because the counter it counts
    up is declared under another name, so that when every handler
    succeeds the callback is never called.  On an empty array the
    callback is called at once. *)
Theorem own_each_answers_errors_only n errs :
  0 < n ->
  let st := fold_left _each_done errs (_each n) in
  oe_called st = match filter (fun err => truthy err = true) errs with
                 | [] => []
                 | err :: _ => [err]
                 end /\
  (Forall (fun err => truthy err = false) errs ->
   oe_called st = [] /\ oe_raised st = length errs) /\
  oe_called (_each 0) = [Undefined].
Proof.
  intros Hn st. unfold st, _each.
  destruct n as [|n]; [lia|]. simpl.
  destruct (_each_run errs (OwnEach (S n) false [] 0) eq_refl)
    as [Hcalled Hraised].
  split; [done|]. split; [|done].
  intros Hall. split; [|by apply Hraised].
  rewrite Hcalled. simpl.
  assert (filter (fun err => truthy err = true) errs = []) as ->; [|done].
  clear -Hall. induction Hall as [|err errs Herr _ IH]; [done|].
  rewrite filter_cons_False by (by rewrite Herr). done.
Qed.

(* ===================================================================== *)
(** * More runs on sample databases                                        *)
(* ===================================================================== *)

(** X1 at work: three documents in batches of 2, the first write done. *)
Lemma collection_file_is_opened_written_closed_witness :
  let st := export_run Sample.small
              (exportDatabase [Sample.flags] Sample.nothing)
              [MetaWritten Sample.ok; BatchWritten 0 Sample.ok] in
  dirty Sample.flags = true /\
  meta (e_disk st) = Header [Collection Sample.flags_name true []] /\
  (exists later,
      e_ops st = [CreateDirectory; Open Meta MODE_WRITE;
                  WriteHeader [Collection Sample.flags_name true []];
                  Close Meta] ++ later) /\
  exists w buffers,
    e_writers st !! 0 = Some w /\
    ops_on (Coll 0) (e_ops st)
    = Open (Coll 0) MODE_WRITE :: map (Write (Coll 0)) buffers
      ++ match inflight w with Some _ => [] | None => [Close (Coll 0)] end /\
    (forall buffer, inflight w = Some buffer -> last buffers = Some buffer).
Proof.
  split; [reflexivity|].
  destruct (collection_file_is_opened_written_closed Sample.small
              [Sample.flags] Sample.nothing
              [MetaWritten Sample.ok; BatchWritten 0 Sample.ok] 0 Sample.flags
              eq_refl eq_refl)
    as [_ [[Hnone _]|Hstarted]].
  - vm_compute in Hnone. discriminate.
  - exact Hstarted.
Defined.

(** X3 at work: the first write of the first of two collections fails. *)
Lemma first_failed_write_is_the_answer_witness :
  let st := export_run Sample.small
              (exportDatabase [Sample.flags; Sample.flags] Sample.nothing)
              [MetaWritten Sample.ok] in
  e_callback st = [] /\
  e_callback
    (export_run Sample.small
       (export_step Sample.small st (BatchWritten 0 Sample.failed))
       [BatchWritten 1 Sample.ok; BatchWritten 1 Sample.ok])
  = [Str Sample.EIO].
Proof.
  split; [reflexivity|].
  refine (proj2 (first_failed_write_is_the_answer Sample.small
                   [Sample.flags; Sample.flags] Sample.nothing
                   [MetaWritten Sample.ok] 0 Sample.flags Sample.failed
                   [BatchWritten 1 Sample.ok; BatchWritten 1 Sample.ok]
                   eq_refl eq_refl _ eq_refl eq_refl)).
  eexists _, _. split; vm_compute; reflexivity.
Defined.

(** X4 at work: an export of one collection that went through. *)
Lemma answer_without_error_comes_last_witness :
  let events := [MetaWritten Sample.ok; BatchWritten 0 Sample.ok;
                 BatchWritten 0 Sample.ok] in
  let st := export_run Sample.small
              (exportDatabase [Sample.flags] Sample.nothing) events in
  e_callback st = [Null] /\
  ((exists r0, MetaWritten r0 ∈ events /\ w_success r0 = false /\
               w_error r0 = Null) \/
   (Null = Null /\
    length (e_writers st) = 1 /\
    Forall (fun w => settled_ok w = true) (e_writers st))).
Proof.
  split; [vm_compute; reflexivity|].
  apply (answer_without_error_comes_last Sample.small
           [Sample.flags] Sample.nothing
           [MetaWritten Sample.ok; BatchWritten 0 Sample.ok;
            BatchWritten 0 Sample.ok] Null).
  - vm_compute. left.
  - reflexivity.
Defined.

(** X5 at work: the first write fails without an error, the second is
    in flight. *)
Lemma collection_writes_are_leading_lines_witness :
  let st := export_run Sample.small
              (exportDatabase [Sample.flags] Sample.nothing)
              [MetaWritten Sample.ok; BatchWritten 0 Sample.failed_silently] in
  dirty Sample.flags = true /\
  writes_on (Coll 0) (e_ops st)
  = [Sample.true_text ++ [NL];
     Sample.false_text ++ [NL] ++ Sample.true_text ++ [NL]] /\
  exists batches : list (list bool),
    writes_on (Coll 0) (e_ops st) = map lines batches /\
    exists rest, concat batches ++ rest = data Sample.flags.
Proof.
  split; [reflexivity|]. split; [vm_compute; reflexivity|].
  destruct (collection_writes_are_leading_lines Sample.small
              [Sample.flags] Sample.nothing
              [MetaWritten Sample.ok; BatchWritten 0 Sample.failed_silently]
              0 Sample.flags
              (Writer (Iterating (Sample.false_text ++ [NL] ++ Sample.true_text
                                    ++ [NL]))
                 [] 3 [])
              eq_refl eq_refl)
    as (batches & Hwrites & Hrest & _).
  - vm_compute. reflexivity.
  - by exists batches.
Defined.

(** X6 at work: a dirty collection and one that is not. *)
Lemma answer_without_error_means_all_is_on_disk_witness :
  let events := [MetaWritten Sample.ok; BatchWritten 0 Sample.ok;
                 BatchWritten 0 Sample.ok] in
  let st := export_run Sample.small
              (exportDatabase [Sample.flags; Sample.idle] Sample.one_line)
              events in
  e_callback st = [Null] /\
  files (e_disk st) !! 0 = Some (lines (data Sample.flags)) /\
  files (e_disk st) !! 1 = None.
Proof.
  split; [vm_compute; reflexivity|].
  assert (Hres : Forall (fun ev => outspoken (result_of ev))
                   [MetaWritten Sample.ok; BatchWritten 0 Sample.ok;
                    BatchWritten 0 Sample.ok])
    by (repeat constructor; left; reflexivity).
  assert (Hin : Null ∈ e_callback
                  (export_run Sample.small
                     (exportDatabase [Sample.flags; Sample.idle] Sample.one_line)
                     [MetaWritten Sample.ok; BatchWritten 0 Sample.ok;
                      BatchWritten 0 Sample.ok]))
    by (vm_compute; left).
  destruct (answer_without_error_means_all_is_on_disk Sample.small
              [Sample.flags; Sample.idle] Sample.one_line _ Null Hres Hin
              eq_refl) as [_ Hfiles].
  split.
  - exact (Hfiles 0 Sample.flags eq_refl).
  - exact (Hfiles 1 Sample.idle eq_refl).
Defined.

(** X8 at work: the only collection is not dirty. *)
Lemma export_with_nothing_to_write_witness :
  Forall (fun c : collection bool => dirty c = false) [Sample.idle] /\
  e_callback
    (export_run Sample.small (exportDatabase [Sample.idle] Sample.one_line)
       [MetaWritten Sample.ok; BatchWritten 0 Sample.ok])
  = [Null].
Proof.
  assert (Hclean : Forall (fun c : collection bool => dirty c = false)
                     [Sample.idle]) by (repeat constructor).
  split; [exact Hclean|].
  by destruct (export_with_nothing_to_write Sample.small [Sample.idle]
                 Sample.one_line Sample.ok [BatchWritten 0 Sample.ok]
                 Hclean eq_refl) as (Hcb & _).
Defined.

(** X11 at work: the first read brings a line that is no JSON. *)
Lemma line_that_does_not_parse_is_never_answered_witness :
  _chunk [] (Sample.tr ++ [NL]) push (@nil bool) = Raised [] /\
  reading_of 0
    (load_run Sample.small
       (load_step Sample.small (loadDatabase Sample.one_line)
          (ChunkRead 0 (Sample.chunk 3 (Sample.tr ++ [NL]))))
       [Timeout 0])
  = Some (ReadingOf (Reader Crashed [] 0 3) []
            [Open (Coll 0) MODE_READ; Read (Coll 0)]).
Proof.
  split; [reflexivity|].
  exact (proj1 (line_that_does_not_parse_is_never_answered Sample.small
                  Sample.one_line [Collection Sample.flags_name true []] [] 0
                  (ReadingOf (Reader Reading [] 0 0) []
                     [Open (Coll 0) MODE_READ; Read (Coll 0)])
                  (Sample.chunk 3 (Sample.tr ++ [NL])) [] [Timeout 0]
                  eq_refl eq_refl eq_refl eq_refl eq_refl)).
Defined.

(** X12 at work: a file of one line and the beginning of another, read
    through a buffer of 5 bytes. *)
Lemma load_delivers_what_one_pass_finds_witness :
  let events := [ChunkRead 0 (Sample.chunk 5 (Sample.true_text ++ [NL]));
                 Timeout 0; ChunkRead 0 (Sample.chunk 2 Sample.fa)] in
  _chunk [] (Sample.true_text ++ [NL] ++ Sample.fa) push (@nil bool)
  = Returned [true] Sample.fa /\
  honest_run Sample.small Sample.cut_short (loadDatabase Sample.cut_short)
    events /\
  exists v,
    reading_of 0 (load_run Sample.small (loadDatabase Sample.cut_short) events)
    = Some v /\ rd_data v = [true].
Proof.
  assert (Hrun : honest_run Sample.small Sample.cut_short
                   (loadDatabase Sample.cut_short)
                   [ChunkRead 0 (Sample.chunk 5 (Sample.true_text ++ [NL]));
                    Timeout 0; ChunkRead 0 (Sample.chunk 2 Sample.fa)]).
  { simpl. split; [chunk_served (Sample.true_text ++ [NL])|].
    split; [reflexivity|]. split; [chunk_served Sample.fa|]. exact I. }
  split; [reflexivity|]. split; [exact Hrun|].
  eexists. split; [vm_compute; reflexivity|].
  refine (proj1 (load_delivers_what_one_pass_finds Sample.small
                   Sample.cut_short [Collection Sample.flags_name true []] _ 0
                   (Collection Sample.flags_name true [])
                   (Sample.true_text ++ [NL] ++ Sample.fa) [true] Sample.fa _
                   _ _ eq_refl eq_refl eq_refl eq_refl Hrun _ _)).
  - repeat constructor.
  - vm_compute. discriminate.
  - vm_compute. reflexivity.
  - reflexivity.
Defined.

(** X13 at work: the first read has filled the buffer, the second is
    in flight. *)
Lemma collection_file_is_opened_read_closed_witness :
  let v := ReadingOf (Reader Reading [] 5 5) [true]
             [Open (Coll 0) MODE_READ; Read (Coll 0); Read (Coll 0)] in
  reading_of 0
    (load_run Sample.small (loadDatabase Sample.one_line)
       [ChunkRead 0 (Sample.chunk 5 (Sample.true_text ++ [NL])); Timeout 0])
  = Some v /\
  exists reads closing more,
    rd_ops v = Open (Coll 0) MODE_READ
               :: replicate (S reads) (Read (Coll 0)) ++ closing /\
    (closing = [] \/
     closing = [Close (Coll 0)] /\ at_rest (rd_reader v) = true) /\
    rd_data v = [] ++ more.
Proof.
  assert (Hv : reading_of 0
                 (load_run Sample.small (loadDatabase Sample.one_line)
                    [ChunkRead 0 (Sample.chunk 5 (Sample.true_text ++ [NL]));
                     Timeout 0])
               = Some (ReadingOf (Reader Reading [] 5 5) [true]
                         [Open (Coll 0) MODE_READ; Read (Coll 0);
                          Read (Coll 0)]))
    by (vm_compute; reflexivity).
  split; [exact Hv|].
  exact (collection_file_is_opened_read_closed Sample.small Sample.one_line
           [Collection Sample.flags_name true []] _ 0
           (Collection Sample.flags_name true []) _ eq_refl eq_refl Hv).
Defined.

(** X15 at work: two lines cut in the middle of each. *)
Lemma lines_survive_any_cutting_witness :
  let chunks := [Sample.tr; Sample.ue ++ [NL] ++ Sample.fa; [];
                 Sample.lse ++ [NL]] in
  concat chunks = lines [true; false] /\
  feed [] chunks push [] = Returned [true; false] [].
Proof.
  split; [reflexivity|].
  exact (proj1 (lines_survive_any_cutting [true; false]
                  [Sample.tr; Sample.ue ++ [NL] ++ Sample.fa; [];
                   Sample.lse ++ [NL]] [] eq_refl)).
Defined.

(** X16 at work: a line that is no JSON between two good ones. *)
Lemma codec_stops_at_the_first_bad_line_witness :
  parse (doc := bool) Sample.tr = None /\
  _chunk [] (lines [true] ++ Sample.tr ++ [NL] ++ Sample.false_text ++ [NL])
    push (@nil bool)
  = Raised [true].
Proof.
  split; [reflexivity|].
  apply (codec_stops_at_the_first_bad_line [true] Sample.tr
           (Sample.false_text ++ [NL]) []).
  - discriminate.
  - intros Hin. vm_compute in Hin.
    repeat (apply elem_of_cons in Hin as [Hin|Hin]; [discriminate|]).
    by apply elem_of_nil in Hin.
  - reflexivity.
Defined.

(** X18 at work: a buffer of 5 bytes and the default batches. *)
Lemma adapter_round_trips_with_its_options_witness :
  writer_batch (constructor 5 0) = 25%Z /\
  exists written read,
    round_trip (constructor 5 0) [Sample.flags; Sample.empty] Sample.nothing
      written read /\
    map data
      (l_database
         (load_run (constructor 5 0)
            (loadDatabase
               (e_disk (export_run (constructor 5 0)
                          (exportDatabase [Sample.flags; Sample.empty]
                             Sample.nothing) written)))
            read))
    = [[true; false; true]; []].
Proof.
  split; [reflexivity|].
  destruct (adapter_round_trips_with_its_options 5 0
              [Sample.flags; Sample.empty] Sample.nothing)
    as (_ & _ & _ & _ & (written & read & Hrun) & Hall).
  - intros []; repeat constructor.
  - vm_compute. discriminate.
  - vm_compute. discriminate.
  - repeat constructor.
  - exists written, read. split; [exact Hrun|].
    by destruct (Hall written read Hrun) as [Hdata _].
Defined.

(** X19 at work: three documents, read back in one read of 16 bytes. *)
Lemma sync_export_then_load_round_trip_witness :
  let tapes := [[SyncRead 16 (lines (data Sample.flags)); SyncRead (-1) []]] in
  Forall (fun c : collection bool => dirty c = true) [Sample.flags] /\
  sync_loadDatabase (sync_exportDatabase [Sample.flags] Sample.nothing).1.1 tapes
  = Some (SyncDatabase [Sample.flags]).
Proof.
  assert (Hdirty : Forall (fun c : collection bool => dirty c = true)
                     [Sample.flags]) by (repeat constructor).
  split; [exact Hdirty|].
  assert (Hsingle : forall document : bool, single_byte (stringify document))
    by (intros []; repeat constructor).
  refine (proj2 (proj2 (sync_export_then_load_round_trip [Sample.flags]
                          Sample.nothing
                          [[SyncRead 16 (lines (data Sample.flags));
                            SyncRead (-1) []]]
                          Hsingle Hdirty eq_refl _))).
  intros cidx tape Htape. destruct cidx as [|cidx]; [|by destruct cidx].
  injection Htape as <-. exists (lines (data Sample.flags)).
  split; [reflexivity|]. simpl.
  split; [reflexivity|]. split; [|lia].
  exists (lines (data Sample.flags)).
  split; [reflexivity|]. split; [apply not_elem_of_nil|].
  split; [constructor|]. split; [unfold sync_buffer; simpl; lia|reflexivity].
Defined.

(** X20 at work: two handlers succeed, two fail. *)
Lemma own_each_answers_errors_only_witness :
  oe_called
    (fold_left _each_done
       [Undefined; Str Sample.EIO; Null; Str Sample.tr] (_each 4))
  = [Str Sample.EIO].
Proof.
  refine (proj1 (own_each_answers_errors_only 4
                   [Undefined; Str Sample.EIO; Null; Str Sample.tr] _)).
  lia.
Defined.

(* ===================================================================== *)
(** * Runs that go wrong                                                   *)
(* ===================================================================== *)

(** C6 at work: the first write of a collection of three documents is
    reported as failed, without an error; the second write is issued
    all the same, and when it is done the export answers [null]. *)
Lemma write_failure_without_error_goes_unnoticed_witness :
  let st := export_run Sample.small
              (exportDatabase [Sample.flags] Sample.nothing)
              [MetaWritten Sample.ok] in
  let unnoticed :=
    export_step Sample.small st (BatchWritten 0 Sample.failed_silently) in
  w_success Sample.failed_silently = false /\
  truthy (w_error Sample.failed_silently) = false /\
  e_ops unnoticed
  = e_ops (export_step Sample.small st (BatchWritten 0 Sample.ok)) /\
  writes_on (Coll 0) (e_ops unnoticed)
  = [Sample.true_text ++ [NL];
     Sample.false_text ++ [NL] ++ Sample.true_text ++ [NL]] /\
  e_callback (export_run Sample.small unnoticed [BatchWritten 0 Sample.ok])
  = [Null].
Proof.
  split; [reflexivity|]. split; [reflexivity|].
  destruct (write_failure_without_error_goes_unnoticed Sample.small
              [Sample.flags] Sample.nothing [MetaWritten Sample.ok] 0
              Sample.flags Sample.failed_silently Sample.ok eq_refl)
    as (_ & Hops & _ & _).
  - eexists _, _. split; vm_compute; reflexivity.
  - reflexivity.
  - reflexivity.
  - reflexivity.
  - split; [exact Hops|]. split; vm_compute; reflexivity.
Defined.

(** C4 at work: the file holds one line of 5 bytes and the buffer is of
    5 bytes; the first read fills it, the second is reported as failed
    and is taken for the end of the stream. *)
Lemma failed_read_is_not_told_to_the_caller_witness :
  let st := load_run Sample.small (loadDatabase Sample.one_line)
              [ChunkRead 0 (Sample.chunk 5 (Sample.true_text ++ [NL]));
               Timeout 0] in
  let st' := load_step Sample.small st (ChunkRead 0 Sample.read_failed) in
  r_success Sample.read_failed = false /\
  l_database st' = l_database st /\
  (exists r', l_readers st' !! 0 = Some r' /\ r_phase r' = Finished Undefined) /\
  l_callback st' = [Database [Collection Sample.flags_name true [true]]].
Proof.
  split; [reflexivity|].
  assert (Hreading :
    reading_of 0
      (load_run Sample.small (loadDatabase Sample.one_line)
         [ChunkRead 0 (Sample.chunk 5 (Sample.true_text ++ [NL])); Timeout 0])
    = Some (ReadingOf (Reader Reading [] 5 5) [true]
              [Open (Coll 0) MODE_READ; Read (Coll 0); Read (Coll 0)]))
    by (vm_compute; reflexivity).
  destruct (failed_read_is_not_told_to_the_caller Sample.small Sample.one_line
              [Collection Sample.flags_name true []]
              [ChunkRead 0 (Sample.chunk 5 (Sample.true_text ++ [NL]));
               Timeout 0]
              0 _ Sample.read_failed [] eq_refl Hreading eq_refl eq_refl)
    as (Hdb & Hr & _).
  split; [exact Hdb|]. split; [exact Hr|]. vm_compute. reflexivity.
Defined.

(** C1 at work: a database of two collections, one of them empty, a
    buffer of 5 bytes and batches of 2.  The export goes through; the
    load is served what the files hold, and the end of the empty file
    is reported first, as a read that failed.  The callback gets the
    database without any document; the three documents of the other
    collection arrive afterwards. *)
Lemma load_answers_before_the_documents_are_read_witness :
  let database := [Sample.flags; Sample.empty] in
  let written := [MetaWritten Sample.ok; BatchWritten 0 Sample.ok;
                  BatchWritten 0 Sample.ok] in
  let e := export_run Sample.small (exportDatabase database Sample.nothing)
             written in
  let read := [ChunkRead 1 Sample.read_failed;
               ChunkRead 0 (Sample.chunk 5 (Sample.true_text ++ [NL]));
               Timeout 0;
               ChunkRead 0 (Sample.chunk 5 Sample.false_text);
               Timeout 0;
               ChunkRead 0 (Sample.chunk 5 (NL :: Sample.true_text));
               Timeout 0;
               ChunkRead 0 (Sample.chunk 1 [NL])] in
  let l := load_run Sample.small (loadDatabase (e_disk e)) read in
  round_trip Sample.small database Sample.nothing written read /\
  l_callback l
  = [Database [Collection Sample.flags_name true [];
               Collection Sample.empty_name true []]] /\
  map data (l_database l) = [[true; false; true]; []].
Proof.
  assert (Hdirty : Forall (fun c : collection bool => dirty c = true)
                     [Sample.flags; Sample.empty])
    by (repeat constructor).
  assert (Hok : Forall (fun ev => succeeded (result_of ev))
                  [MetaWritten Sample.ok; BatchWritten 0 Sample.ok;
                   BatchWritten 0 Sample.ok])
    by (repeat constructor).
  destruct (load_answers_before_the_documents_are_read Sample.small
              [Sample.flags; Sample.empty] Sample.nothing
              [MetaWritten Sample.ok; BatchWritten 0 Sample.ok;
               BatchWritten 0 Sample.ok]
              1 Sample.empty Sample.read_failed Hdirty Hok)
    as (Hfirst & Hanswer & _); try reflexivity.
  split; [|split; [apply Hanswer|vm_compute; reflexivity]].
  split; [exact Hok|]. split; [reflexivity|]. split.
  - split; [exact Hfirst|]. simpl.
    split; [chunk_served (Sample.true_text ++ [NL])|].
    split; [reflexivity|]. split; [chunk_served Sample.false_text|].
    split; [reflexivity|]. split; [chunk_served (NL :: Sample.true_text)|].
    split; [reflexivity|]. split; [chunk_served [NL]|]. exact I.
  - vm_compute. repeat constructor.
Defined.

(** A character of two bytes that the end of a buffer cuts is not put
    together again.  One document, the JSON string of the letter e
    with an acute accent, is exported; its line is five bytes.  With a
    buffer of 2 bytes the first read ends between the two bytes of the
    letter; [toString] makes of each half what it can, the line that
    comes out is not the one that went in, and [JSON.parse] rejects
    it: the collection stays empty and the callback is never called. *)
Lemma cut_character_is_not_restored :
  let opts := constructor 2 25 in
  let database := [Collection Sample.flags_name true [Sample.E_acute]] in
  let written := [MetaWritten Sample.ok; BatchWritten 0 Sample.ok] in
  let e := export_run opts (exportDatabase database (Disk Absent ∅)) written in
  let read :=
    [ChunkRead 0 (Sample.chunk 2 (toString [ascii_of_nat 34; ascii_of_nat 195]));
     Timeout 0;
     ChunkRead 0 (Sample.chunk 2 (toString [ascii_of_nat 169; ascii_of_nat 34]));
     Timeout 0;
     ChunkRead 0 (Sample.chunk 1 (toString [NL]))] in
  let l := load_run opts (loadDatabase (e_disk e)) read in
  files (e_disk e) !! 0 = Some (Sample.e_acute_text ++ [NL]) /\
  utf8 (Sample.e_acute_text ++ [NL])
  = [ascii_of_nat 34; ascii_of_nat 195; ascii_of_nat 169; ascii_of_nat 34; NL] /\
  round_trip opts database (Disk Absent ∅) written read /\
  l_callback l = [] /\
  map data (l_database l) = [[]].
Proof.
  split; [vm_compute; reflexivity|]. split; [vm_compute; reflexivity|].
  split; [|split; vm_compute; reflexivity].
  split; [repeat constructor|]. split; [vm_compute; reflexivity|]. split.
  - simpl.
    split; [chunk_served [ascii_of_nat 34; ascii_of_nat 195]|].
    split; [reflexivity|].
    split; [chunk_served [ascii_of_nat 169; ascii_of_nat 34]|].
    split; [reflexivity|]. split; [chunk_served [NL]|]. exact I.
  - vm_compute. repeat constructor.
Qed.
